(** * EICrecon: barrel TOF hit digitisation, IRT radiator tables and the
      PODIO event source

    A shallow embedding of

    - [src/detectors/BTOF/BTOFHitDigi.h]: the class [eicrecon::BTOFHitDigi],
      its constructor, its constant members and the Landau pulse lambda
      handed to [TF1];
    - [src/services/geometry/irt/irtgeo/IrtGeo.cc]: the constructors of
      [IrtGeo], [IrtGeo::Bind], [IrtGeo::RadiatorName] and
      [IrtGeo::RadiatorNum];
    - [src/services/io/podio/JEventSourcePODIO.cc]: [Open], [GetEvent],
      [CopyToJEventT], [CheckOpenable] and [PrintCollectionTypeTable] of
      the PODIO event source, with the calls made on the ROOT frame reader.

    The header only declares [init] and [execute], and the neighbour finder
    and the configuration struct live in headers that are not among the
    sources.  Those parts are modelled from the specification of the
    digitisation engine; every such definition says so in its comment.

    Doubles are embedded as rationals ([Q]): every decimal literal of the
    header is represented exactly, and the properties proved below concern
    signs, ranges and the order of operations.  [int] and [uint64_t] values
    are embedded as [Z].  Functions of libraries outside the repository
    (ROOT's [TMath::Landau], [std::sqrt], the C++ random engine) are
    parameters of the development. *)

From Stdlib Require Import ZArith QArith Qround Lqa Lia String List Ascii.
From stdpp Require Import base gmap sets list strings sorting.

Set Default Proof Using "Type".

(* ===================================================================== *)
(** * Definitions                                                         *)
(* ===================================================================== *)

(** ** IrtGeo.cc *)

Module IrtGeo.

(** What [PrintLog(stderr, ...)] is asked to print. *)
Inductive diagnostic : Type :=
| unknown_radiator_number (num : Z)
| unknown_radiator_name (name : string).

(** A returned value together with the lines written to [stderr]. *)
Definition logged (A : Type) : Type := (A * list diagnostic)%type.

Definition value {A : Type} (r : logged A) : A := fst r.
Definition printed {A : Type} (r : logged A) : list diagnostic := snd r.

Section radiators.

(** The enumerators [kAerogel] and [kGas] are declared in [IrtGeo.h],
    which is not among the sources; they are taken as parameters. *)
Variables kAerogel kGas : Z.

(** [const char * IrtGeo::RadiatorName(int num)] *)
Definition RadiatorName (num : Z) : logged string :=
  if (num =? kAerogel)%Z then ("Aerogel"%string, [])
  else if (num =? kGas)%Z then ("Gas"%string, [])
  else ("UNKNOWN_RADIATOR"%string, [unknown_radiator_number num]).

(** [int IrtGeo::RadiatorNum(std::string name)] *)
Definition RadiatorNum (name : string) : logged Z :=
  if (name =? "Aerogel")%string then (kAerogel, [])
  else if (name =? "Gas")%string then (kGas, [])
  else ((-1)%Z, [unknown_radiator_name name]).

(** [int IrtGeo::RadiatorNum(const char * name)]: converts to
    [std::string] and calls the overload above. *)
Definition RadiatorNum_cstr (name : string) : logged Z :=
  RadiatorNum name.

End radiators.

End IrtGeo.

(** ** BTOFHitDigi.h *)

Module BTOF.

Open Scope Q_scope.

(** Modelled from the spec: [BarrelTOFNeighborFinder.h] is missing.  The
    finder is "constructed once with topology parameters (channel count
    around the barrel, sub-bins per channel, physical bar length,
    additional granularity factor)"; the header calls its constructor with
    four arguments in that order. *)
Record BarrelTOFNeighborFinder : Type := BarrelTOFNeighborFinder_ctor {
  channel_count : Z;
  sub_bins : Z;
  bar_length : Q;
  granularity : Z
}.

(** Modelled from the spec: [algorithms/digi/BTOFHitDigiConfig.h] is
    missing.  The fields are those of the configuration object of the
    spec's section 6 that a configuration can carry; [sumFields] is the
    ordered list of cell-id field names and [threshold] is the "configured
    threshold" of the Digitizer's zero suppression.  Section 6 also lists
    [adc_bit] and [tdc_bit]; in the header these are [const] members of the
    class with their own initialisers, so they are members of
    [BTOFHitDigi] below and not fields of the configuration. *)
Record BTOFHitDigiConfig : Type := {
  a : Q;
  b : Q;
  c : Q;
  cfg_tRes : Q;
  cfg_dyRangeADC : Q;
  pedestalMean : Q;
  pedestalSigma : Q;
  tdcResolution : Q;
  sumFields : list string;
  crossTalkEnabled : bool;
  threshold : Q
}.

(** ROOT's [TF1], as far as the constructor call of the header uses it: a
    name, the function of [(x, par)], the range and the number of
    parameters. *)
Record TF1 : Type := TF1_ctor {
  tf1_name : string;
  tf1_fn : list Q -> list Q -> Q;
  tf1_xmin : Q;
  tf1_xmax : Q;
  tf1_npar : Z
}.

(** The state of the pseudo-random stream behind [generator] and
    [m_normDist]: the sequence of standard-normal deviates that
    [m_normDist(generator)] returns, and how many have been taken. *)
Record rng : Type := mk_rng {
  tape : nat -> Q;
  pos : nat
}.

(** The members of [class BTOFHitDigi] in declaration order.  [m_log] and
    [pi] are left out; [generator] stands for the pair of [generator] and
    [m_normDist]; [adc_range] and [tdc_range] have no initialiser and hold
    [None] until something assigns them. *)
Record BTOFHitDigi : Type := {
  m_cfg : BTOFHitDigiConfig;
  _neighborFinder : BarrelTOFNeighborFinder;
  dyRangeADC : Q;
  stepTDC : Q;
  tRes : Q;
  tMin : Q;
  tMax : Q;
  total_time : Z;
  time_period : Z;
  nBins : Z;
  adc_bit : Z;
  tdc_bit : Z;
  mpv : Q;
  sigma : Q;
  gain : Q;
  risetime : Q;
  std : Q;
  mean : Q;
  sigma_analog : Q;
  adc_range : option Z;
  tdc_range : option Z;
  id_mask : Z;
  fLandau : TF1;
  generator : rng
}.

Section header.

(** [TMath::Landau(x, mpv, sigma, norm)] of ROOT. *)
Variable TMath_Landau : Q -> Q -> Q -> bool -> Q.

(** The configuration held by a default-constructed [WithPodConfig] and the
    stream of a default-constructed [std::default_random_engine]. *)
Variable default_cfg : BTOFHitDigiConfig.
Variable default_tape : nat -> Q.

(** The lambda handed to [TF1] in the constructor's initialiser list:
    [x[0]] is the abscissa, [par[0]] the mean, [par[1]] the standard
    deviation. *)
Definition landau_lambda (x par : list Q) : Q :=
  let mean := nth 0 par 0 in
  let std := nth 1 par 0 in
  let C := - 113.766 in
  let landau := C * TMath_Landau (nth 0 x 0) mean std true in
  landau.

(** [BTOFHitDigi::BTOFHitDigi()]: the initialiser list and the default
    member initialisers.  Members are initialised in declaration order, so
    [tMin] and [tMax] are set when [fLandau] is built. *)
Definition BTOFHitDigi_ctor : BTOFHitDigi :=
  let tMin := 0.1 in
  let tMax := 100.0 in
  let risetime := 0.45 in
  {| m_cfg := default_cfg;
     _neighborFinder := BarrelTOFNeighborFinder_ctor 64 4 3.2 4;
     dyRangeADC := 0;
     stepTDC := 0;
     tRes := 0;
     tMin := tMin;
     tMax := tMax;
     total_time := Qceiling (tMax - tMin);
     time_period := 25;
     nBins := 10000;
     adc_bit := 8;
     tdc_bit := 10;
     mpv := 1.56075e-04;
     sigma := 1.92005e-05;
     gain := 80;
     risetime := risetime;
     std := risetime / 5;
     mean := 3.65;
     sigma_analog := 0.293951;
     adc_range := None;
     tdc_range := None;
     id_mask := 0;
     fLandau := TF1_ctor "landau" landau_lambda tMin tMax 2;
     generator := mk_rng default_tape 0 |}.

End header.

(** The reading of a pulse function as [amplitude(t, mpv, sigma, gain)]
    with a scale that the gain controls: handed a gain as a further
    parameter, it gives different values for different gains wherever its
    value is not zero. *)
Definition scale_controlled_by_gain (amplitude : list Q -> list Q -> Q) : Prop :=
  forall t mpv sigma gain gain' : Q,
    ~ gain == gain' ->
    ~ amplitude [t] [mpv; sigma; gain] == 0 ->
    ~ amplitude [t] [mpv; sigma; gain] == amplitude [t] [mpv; sigma; gain'].

(** The members declared [const]; nothing after construction can assign
    them. *)
Definition const_members (d : BTOFHitDigi) :=
  (tMin d, tMax d, total_time d, time_period d, nBins d, adc_bit d, tdc_bit d).

(** [WithPodConfig<BTOFHitDigiConfig>::applyConfig]: stores the supplied
    configuration in [m_cfg]; the class has no other way to receive one. *)
Definition applyConfig (cfg : BTOFHitDigiConfig) (d : BTOFHitDigi) : BTOFHitDigi :=
  {| m_cfg := cfg;
     _neighborFinder := _neighborFinder d;
     dyRangeADC := dyRangeADC d;
     stepTDC := stepTDC d;
     tRes := tRes d;
     tMin := tMin d;
     tMax := tMax d;
     total_time := total_time d;
     time_period := time_period d;
     nBins := nBins d;
     adc_bit := adc_bit d;
     tdc_bit := tdc_bit d;
     mpv := mpv d;
     sigma := sigma d;
     gain := gain d;
     risetime := risetime d;
     std := std d;
     mean := mean d;
     sigma_analog := sigma_analog d;
     adc_range := adc_range d;
     tdc_range := tdc_range d;
     id_mask := id_mask d;
     fLandau := fLandau d;
     generator := generator d |}.

(** Assignment to the member [generator] (seeding it, or advancing it by
    drawing from it). *)
Definition with_generator (g : rng) (d : BTOFHitDigi) : BTOFHitDigi :=
  {| m_cfg := m_cfg d;
     _neighborFinder := _neighborFinder d;
     dyRangeADC := dyRangeADC d;
     stepTDC := stepTDC d;
     tRes := tRes d;
     tMin := tMin d;
     tMax := tMax d;
     total_time := total_time d;
     time_period := time_period d;
     nBins := nBins d;
     adc_bit := adc_bit d;
     tdc_bit := tdc_bit d;
     mpv := mpv d;
     sigma := sigma d;
     gain := gain d;
     risetime := risetime d;
     std := std d;
     mean := mean d;
     sigma_analog := sigma_analog d;
     adc_range := adc_range d;
     tdc_range := tdc_range d;
     id_mask := id_mask d;
     fLandau := fLandau d;
     generator := g |}.

(** ** The engine behind the header

    [BTOFHitDigi.cc], [BarrelTOFNeighborFinder.h] and
    [BTOFHitDigiConfig.h] are not among the sources.  What the header only
    declares ([init], [execute], the finder) is modelled below from the
    specification, component by component, on top of the members and
    constants of the header. *)

(** *** Records exchanged with the collaborators *)

(** Modelled from the spec: the truth-level input record (section 6);
    [edm4hep::SimTrackerHit] itself is outside the repository. *)
Record SimHit : Type := {
  channelId : Z;
  energy : Q;
  time : Q;
  position : Q * Q * Q;
  particleRef : nat
}.

(** Modelled from the spec: the output record (section 6);
    [edm4eic::RawTrackerHit] itself is outside the repository. *)
Record RawHit : Type := {
  raw_channelId : Z;
  adcCode : Z;
  tdcCode : Z
}.

(** Modelled from the spec: the geometry handle ([dd4hep::Detector] is
    outside the repository and its use is in the missing [BTOFHitDigi.cc]).
    It supplies the decoding of cell-id fields (the bits a named field
    occupies) and whether a channel identifier resolves at all. *)
Record GeometryHandle : Type := {
  field_mask : string -> Z;
  resolves : Z -> bool
}.

(** Modelled from the spec: a truth hit after [EnergyTimeSmearing]
    ([BTOFHitDigi.cc] is missing). *)
Record SmearedHit : Type := {
  sm_channelId : Z;
  smearedEnergy : Q;
  smearedTime : Q
}.

(** Modelled from the spec: the transient per-channel aggregate of section
    3, "total accumulated charge/amplitude and an effective arrival time"
    ([BTOFHitDigi.cc] is missing). *)
Record AnalogSignal : Type := {
  sig_channel : Z;
  amplitude : Q;
  arrival : Q
}.

(** Modelled from the spec: the diagnostic counters of one [execute] call
    for hits that fail geometry resolution or fall outside the time window
    ([BTOFHitDigi.cc] is missing). *)
Record diagnostics : Type := {
  unresolved_hits : nat;
  out_of_window_hits : nat
}.

(** *** The pseudo-random stream *)

(** Computations that draw from the stream. *)
Definition Rand (A : Type) : Type := rng -> A * rng.

#[global] Instance Rand_ret : MRet Rand := fun A x g => (x, g).

#[global] Instance Rand_bind : MBind Rand :=
  fun A B k m g => let (x, g') := m g in k x g'.

(** One call [m_normDist(generator)]: the next standard-normal deviate. *)
Definition draw : Rand Q :=
  fun g => (tape g (pos g), mk_rng (tape g) (S (pos g))).

(** A normal sampler with the given mean and standard deviation; it takes
    one deviate from the stream. *)
Definition normal_sample (mean sigma : Q) : Rand Q :=
  z ← draw; mret (mean + sigma * z).

(** Comparison of doubles. *)
Definition Qltb (x y : Q) : bool := negb (Qle_bool y x).

Definition Qsum (l : list Q) : Q := fold_right Qplus 0 l.

(** *** NeighborFinder (section 4.1) *)

(** Modelled from the spec: the "valid topology range" of channel ids
    ([BarrelTOFNeighborFinder.h] is missing). *)
Definition valid_channel (f : BarrelTOFNeighborFinder) (ch : Z) : bool :=
  ((0 <=? ch) && (ch <? channel_count f))%Z.

(** Modelled from the spec: [neighbors(channelId) -> set<channelId>] of the
    missing [BarrelTOFNeighborFinder.h], computed from the topology
    parameters alone; the channels around the barrel form a ring, "the
    first and last channel index are mutual neighbors", and a channel id
    outside the valid range yields the empty set. *)
Definition neighbors (f : BarrelTOFNeighborFinder) (ch : Z) : gset Z :=
  if valid_channel f ch
  then {[ ((ch - 1) `mod` channel_count f)%Z; ((ch + 1) `mod` channel_count f)%Z ]}
  else ∅.

(** *** Digitizer (section 4.5) *)

(** Modelled from the spec: the largest code [2^bits - 1] of a [bits]-wide
    unsigned integer (the Digitizer is in the missing [BTOFHitDigi.cc]). *)
Definition max_code (bits : Z) : Z := (2 ^ bits - 1)%Z.

(** Modelled from the spec: the clipping of the missing Digitizer, "values
    below 0 clip to 0, values above the maximum representable code clip to
    [2^adc_bit - 1]". *)
Definition clip_code (bits : Z) (v : Z) : Z :=
  if (v <? 0)%Z then 0%Z
  else if (max_code bits <? v)%Z then max_code bits
  else v.

(** Modelled from the spec: the ADC path of the missing Digitizer.  The
    amplitude plus the pedestal offset is scaled linearly over
    [[0, dyRangeADC]] onto the codes of an [adc_bit]-wide unsigned
    integer. *)
Definition adc_scaled (d : BTOFHitDigi) (amp ped : Q) : Q :=
  (amp + ped) / dyRangeADC d * inject_Z (max_code (adc_bit d)).

(** Modelled from the spec: the ADC code of the missing Digitizer, the
    scaled value without its fractional part, clipped.  After clipping,
    truncation and rounding down agree. *)
Definition adc_code (d : BTOFHitDigi) (amp ped : Q) : Z :=
  clip_code (adc_bit d) (Qfloor (adc_scaled d amp ped)).

(** Modelled from the spec: the TDC path of the missing Digitizer, the
    effective time "at a granularity of [stepTDC]". *)
Definition tdc_scaled (d : BTOFHitDigi) (t : Q) : Q := t / stepTDC d.

(** Modelled from the spec: the TDC code of the missing Digitizer, a
    [tdc_bit]-wide unsigned integer; "values outside the representable
    range are clipped". *)
Definition tdc_code (d : BTOFHitDigi) (t : Q) : Z :=
  clip_code (tdc_bit d) (Qfloor (tdc_scaled d t)).

(** What cyclic wrapping within the [tdc_bit]-wide range would give
    instead; used only to tell the two policies apart. *)
Definition tdc_code_wrapped (d : BTOFHitDigi) (t : Q) : Z :=
  (Qfloor (tdc_scaled d t) `mod` 2 ^ tdc_bit d)%Z.

(** *** EnergyTimeSmearing (section 4.3) *)

Section engine.

(** [std::sqrt]. *)
Variable Qsqrt : Q -> Q.

(** The amplitude one smeared hit contributes to its channel, obtained
    with the PulseShapeModel, and the effective arrival time of the hits of
    one channel.  The specification names both and fixes neither. *)
Variable pulse_contribution : SmearedHit -> Q.
Variable effective_time : list SmearedHit -> Q.

(** The fraction of a neighbour's signal picked up by a channel when
    cross-channel sharing is enabled. *)
Variable sharing_fraction : Q.

(** The geometry handle; [init] receives it as [detector]. *)
Variable detector : GeometryHandle.

(** The stream of deviates produced after seeding [generator]. *)
Variable stream_of_seed : Z -> nat -> Q.

(** Modelled from the spec: the relative standard deviation
    [a/sqrt(trueEnergy) + b + c/trueEnergy]; the smearing code is in the
    missing [BTOFHitDigi.cc], the header only carries the comment
    "a/sqrt(E/GeV) + b + c/E or a/sqrt(E/GeV) (relative value)". *)
Definition relative_resolution (cfg : BTOFHitDigiConfig) (trueEnergy : Q) : Q :=
  a cfg / Qsqrt trueEnergy + b cfg + c cfg / trueEnergy.

(** Modelled from the spec: the relative standard deviation of "the
    simpler configured mode", [a/sqrt(trueEnergy) + b] (the smearing code is
    missing). *)
Definition relative_resolution_simple (cfg : BTOFHitDigiConfig) (trueEnergy : Q) : Q :=
  a cfg / Qsqrt trueEnergy + b cfg.

(** Modelled from the spec: "absolute std = relative std x trueEnergy"
    (the smearing code is missing). *)
Definition energy_sigma (cfg : BTOFHitDigiConfig) (trueEnergy : Q) : Q :=
  relative_resolution cfg trueEnergy * trueEnergy.

(** Modelled from the spec: the missing
    [smear(trueEnergy, trueTime) -> (smearedEnergy, smearedTime)], the
    energy draw first, then the time draw with the absolute resolution
    [tRes]. *)
Definition smear (d : BTOFHitDigi) (trueEnergy trueTime : Q) : Rand (Q * Q) :=
  smearedEnergy ← normal_sample trueEnergy (energy_sigma (m_cfg d) trueEnergy);
  smearedTime ← normal_sample trueTime (tRes d);
  mret (smearedEnergy, smearedTime).

(** The smeared energies of [n] successive [smear] calls on the same true
    energy and time, the repeated trials of the spec's section 8. *)
Fixpoint smear_trials (d : BTOFHitDigi) (trueEnergy trueTime : Q) (n : nat)
    : Rand (list Q) :=
  match n with
  | O => mret []
  | S n' =>
      et ← smear d trueEnergy trueTime;
      rest ← smear_trials d trueEnergy trueTime n';
      mret (fst et :: rest)
  end.

(** Modelled from the spec: smearing of one truth hit (missing from the
    sources); the channel identifier is passed through. *)
Definition smear_hit (d : BTOFHitDigi) (h : SimHit) : Rand SmearedHit :=
  et ← smear d (energy h) (time h);
  mret {| sm_channelId := channelId h;
          smearedEnergy := fst et;
          smearedTime := snd et |}.

(** Modelled from the spec: the hits of one event are smeared in input
    order (the loop is in the missing [BTOFHitDigi.cc]). *)
Fixpoint smear_hits (d : BTOFHitDigi) (hits : list SimHit) : Rand (list SmearedHit) :=
  match hits with
  | [] => mret []
  | h :: rest =>
      h' ← smear_hit d h;
      rest' ← smear_hits d rest;
      mret (h' :: rest')
  end.

(** *** HitAggregator (section 4.4) *)

(** Modelled from the spec: the sum-field values of a channel identifier,
    its bits under the mask [id_mask] of the configured sum fields (the use
    of [id_mask] is in the missing [BTOFHitDigi.cc]). *)
Definition channel_key (d : BTOFHitDigi) (id : Z) : Z := Z.land id (id_mask d).

(** Modelled from the spec: the valid time window [[tMin, tMax]] (its use
    is in the missing [BTOFHitDigi.cc]). *)
Definition in_window (d : BTOFHitDigi) (t : Q) : bool :=
  Qle_bool (tMin d) t && Qle_bool t (tMax d).

(** Modelled from the spec: a hit enters the aggregation of the missing
    HitAggregator when its channel identifier resolves and its smeared time
    lies in [[tMin, tMax]]. *)
Definition accepted (d : BTOFHitDigi) (h : SmearedHit) : bool :=
  resolves detector (sm_channelId h) && in_window d (smearedTime h).

(** Modelled from the spec: the excluded hits are counted (missing
    HitAggregator). *)
Definition count_diagnostics (d : BTOFHitDigi) (hs : list SmearedHit) : diagnostics :=
  {| unresolved_hits :=
       length (List.filter (fun h => negb (resolves detector (sm_channelId h))) hs);
     out_of_window_hits :=
       length (List.filter
                 (fun h => resolves detector (sm_channelId h)
                           && negb (in_window d (smearedTime h))) hs) |}.

(** Modelled from the spec: the partition of the hits into channels by
    the missing HitAggregator, in order of first appearance. *)
Fixpoint add_to_channel (k : Z) (h : SmearedHit)
    (groups : list (Z * list SmearedHit)) : list (Z * list SmearedHit) :=
  match groups with
  | [] => [(k, [h])]
  | (k', members) :: rest =>
      if (k =? k')%Z then (k', members ++ [h]) :: rest
      else (k', members) :: add_to_channel k h rest
  end.

(** Modelled from the spec: hits "whose sum-field values match belong to
    the same channel" (missing HitAggregator). *)
Definition partition_hits (d : BTOFHitDigi) (hs : list SmearedHit)
    : list (Z * list SmearedHit) :=
  fold_left (fun groups h => add_to_channel (channel_key d (sm_channelId h)) h groups)
            hs [].

(** Modelled from the spec: the pulse contributions of the hits of a
    channel are summed, "sum of amplitudes, no averaging" (missing
    HitAggregator). *)
Definition direct_amplitude (members : list SmearedHit) : Q :=
  Qsum (map pulse_contribution members).

(** Modelled from the spec: with sharing enabled a channel "additionally
    accumulates scaled contributions from its geometric neighbors" (missing
    HitAggregator). *)
Definition shared_amplitude (d : BTOFHitDigi) (k : Z) (kept : list SmearedHit) : Q :=
  if crossTalkEnabled (m_cfg d)
  then sharing_fraction *
       direct_amplitude
         (List.filter
            (fun h => bool_decide
                        (channel_key d (sm_channelId h) ∈ neighbors (_neighborFinder d) k))
            kept)
  else 0.

(** Modelled from the spec: the missing HitAggregator, one [AnalogSignal]
    per channel that received a contribution. *)
Definition aggregate (d : BTOFHitDigi) (hs : list SmearedHit) : list AnalogSignal :=
  let kept := List.filter (accepted d) hs in
  map (fun group : Z * list SmearedHit =>
         {| sig_channel := fst group;
            amplitude := direct_amplitude (snd group) + shared_amplitude d (fst group) kept;
            arrival := effective_time (snd group) |})
      (partition_hits d kept).

(** *** Digitizer, per signal *)

(** Modelled from the spec: the missing Digitizer on one signal.  The
    pedestal is drawn once per channel, the codes are computed, and a
    channel whose accumulated amplitude is below the threshold emits
    nothing. *)
Definition digitize (d : BTOFHitDigi) (s : AnalogSignal) : Rand (option RawHit) :=
  ped ← normal_sample (pedestalMean (m_cfg d)) (pedestalSigma (m_cfg d));
  mret (if Qltb (amplitude s) (threshold (m_cfg d)) then None
        else Some {| raw_channelId := sig_channel s;
                     adcCode := adc_code d (amplitude s) ped;
                     tdcCode := tdc_code d (arrival s) |}).

(** Modelled from the spec: the missing Digitizer on the signals of one
    event, in order. *)
Fixpoint digitize_all (d : BTOFHitDigi) (signals : list AnalogSignal) : Rand (list RawHit) :=
  match signals with
  | [] => mret []
  | s :: rest =>
      r ← digitize d s;
      rest' ← digitize_all d rest;
      mret (match r with Some hit => hit :: rest' | None => rest' end)
  end.

(** *** [init] and [execute] *)

(** Modelled from the spec: the error taxonomy of section 7, of which only
    the configuration error is surfaced to the caller ([BTOFHitDigi.cc] is
    missing). *)
Inductive error : Type :=
| ConfigurationError.

(** Modelled from the spec: the check of the missing [init]; by section 7
    bit widths, the time window and the dynamic range are checked at
    initialisation.  The widths and the window are the ones the engine
    quantises with, the [const] members [adc_bit], [tdc_bit], [tMin] and
    [tMax] of the header; the dynamic range is the one of the
    configuration. *)
Definition valid_configuration (d : BTOFHitDigi) : bool :=
  (0 <? adc_bit d)%Z && (0 <? tdc_bit d)%Z
  && Qltb (tMin d) (tMax d)
  && Qltb 0 (cfg_dyRangeADC (m_cfg d)).

(** Modelled from the spec: the mask of the configured sum fields, from
    the field decoding of the geometry handle (missing [init]). *)
Definition sum_field_mask (fields : list string) : Z :=
  fold_right (fun f m => Z.lor (field_mask detector f) m) 0%Z fields.

(** Modelled from the spec: the missing [BTOFHitDigi::init], which the
    header only declares, with return type [void].  By section 7 of the
    spec an engine that fails the check is refused; otherwise the "unitless
    counterparts of inputs" [dyRangeADC], [stepTDC], [tRes] and the mask
    [id_mask] are filled in from the configuration and the geometry
    handle.  How the refusal reaches the caller is not in the header. *)
Definition init (d : BTOFHitDigi) : error + BTOFHitDigi :=
  if valid_configuration d then
    inr {| m_cfg := m_cfg d;
           _neighborFinder := _neighborFinder d;
           dyRangeADC := cfg_dyRangeADC (m_cfg d);
           stepTDC := tdcResolution (m_cfg d);
           tRes := cfg_tRes (m_cfg d);
           tMin := tMin d;
           tMax := tMax d;
           total_time := total_time d;
           time_period := time_period d;
           nBins := nBins d;
           adc_bit := adc_bit d;
           tdc_bit := tdc_bit d;
           mpv := mpv d;
           sigma := sigma d;
           gain := gain d;
           risetime := risetime d;
           std := std d;
           mean := mean d;
           sigma_analog := sigma_analog d;
           adc_range := adc_range d;
           tdc_range := tdc_range d;
           id_mask := sum_field_mask (sumFields (m_cfg d));
           fLandau := fLandau d;
           generator := generator d |}
  else inl ConfigurationError.

(** Modelled from the spec: the missing [BTOFHitDigi::execute], which the
    header only declares, as a computation on the stream: smearing,
    aggregation, digitisation. *)
Definition execute_rand (d : BTOFHitDigi) (simhits : list SimHit)
    : Rand (list RawHit * diagnostics) :=
  smeared ← smear_hits d simhits;
  rawhits ← digitize_all d (aggregate d smeared);
  mret (rawhits, count_diagnostics d smeared).

(** Modelled from the spec: the missing [BTOFHitDigi::execute] proper; it
    runs on the member [generator] and leaves it advanced. *)
Definition execute (d : BTOFHitDigi) (simhits : list SimHit)
    : list RawHit * diagnostics * BTOFHitDigi :=
  let (out, g) := execute_rand d simhits (generator d) in
  (out, with_generator g d).

(** Modelled from the spec: seeding the engine's generator (no seeding
    code is among the sources). *)
Definition seed_engine (seed : Z) (d : BTOFHitDigi) : BTOFHitDigi :=
  with_generator (mk_rng (stream_of_seed seed) 0) d.

(** Modelled from the spec: one event after the other on the same engine
    (the event loop is outside the sources). *)
Fixpoint execute_events (d : BTOFHitDigi) (events : list (list SimHit))
    : list (list RawHit) :=
  match events with
  | [] => []
  | simhits :: rest =>
      let (out, d') := execute d simhits in
      fst out :: execute_events d' rest
  end.

(** Modelled from the spec: a job (the caller is outside the sources).  The
    engine is configured, seeded and initialised, and only an initialised
    engine executes. *)
Definition run (d0 : BTOFHitDigi) (cfg : BTOFHitDigiConfig) (seed : Z)
    (events : list (list SimHit)) : error + list (list RawHit) :=
  match init (seed_engine seed (applyConfig cfg d0)) with
  | inl e => inl e
  | inr d => inr (execute_events d events)
  end.

(** The statement that two hits with matching sum-field values give exactly
    one record whose ADC code, unless it is the largest code, is strictly
    greater than the code either hit gives when it is the only hit of the
    event. *)
Definition merged_strictly_greater (d : BTOFHitDigi) (h1 h2 : SimHit) : Prop :=
  channel_key d (channelId h1) = channel_key d (channelId h2) ->
  exists r r1 r2,
    fst (fst (execute d [h1; h2])) = [r]
    /\ fst (fst (execute d [h1])) = [r1]
    /\ fst (fst (execute d [h2])) = [r2]
    /\ ((adcCode r < max_code (adc_bit d))%Z ->
        (adcCode r1 < adcCode r)%Z /\ (adcCode r2 < adcCode r)%Z).

End engine.

(** *** Concrete collaborators

    Simple instances of the external functions, on which the model can be
    evaluated. *)

(** A bell-shaped density with the calling convention of [TMath::Landau]:
    zero for a non-positive width, divided by the width when normalised. *)
Definition bell_density (x mu s : Q) (norm : bool) : Q :=
  if Qle_bool s 0 then 0
  else
    let u := (x - mu) / s in
    let den := / (1 + u * u) in
    if norm then den / s else den.

(** Three Newton steps towards the square root. *)
Definition newton_sqrt (x : Q) : Q :=
  let step := fun y : Q => Qred ((y + x / y) / 2) in
  step (step (step ((x + 1) / 2))).

(** A periodic stream of deviates in [{-3/2, -1, ..., 3/2}]. *)
Definition sawtooth_stream (seed : Z) (n : nat) : Q :=
  inject_Z ((seed + Z.of_nat n) `mod` 7 - 3) / 2.

(** A stream that starts like [sawtooth_stream 1] and is zero from the
    tenth deviate on. *)
Definition short_stream (n : nat) : Q :=
  if (n <? 10)%nat then sawtooth_stream 1 n else 0.

(** A contribution equal to the deposited charge, and the arrival time of
    the first hit of the channel. *)
Definition charge_contribution (h : SmearedHit) : Q := smearedEnergy h.

Definition first_arrival (hs : list SmearedHit) : Q :=
  match hs with
  | [] => 0
  | h :: _ => smearedTime h
  end.

(** A geometry that resolves every identifier and decodes two fields. *)
Definition two_field_geometry : GeometryHandle :=
  {| field_mask := fun f =>
       if (f =? "layer")%string then 255%Z
       else if (f =? "module")%string then 65280%Z
       else 0%Z;
     resolves := fun _ => true |}.

(** A configuration without noise: the deviates are multiplied by zero. *)
Definition quiet_cfg : BTOFHitDigiConfig :=
  {| a := 0; b := 0; c := 0;
     cfg_tRes := 0;
     cfg_dyRangeADC := 10;
     pedestalMean := 0;
     pedestalSigma := 0;
     tdcResolution := 0.02;
     sumFields := ["layer"%string; "module"%string];
     crossTalkEnabled := false;
     threshold := 0 |}.

(** The same with the resolution and pedestal noise switched on. *)
Definition noisy_cfg : BTOFHitDigiConfig :=
  {| a := 0.1; b := 0.02; c := 0;
     cfg_tRes := 0.03;
     cfg_dyRangeADC := 10;
     pedestalMean := 0.4;
     pedestalSigma := 0.1;
     tdcResolution := 0.02;
     sumFields := ["layer"%string; "module"%string];
     crossTalkEnabled := true;
     threshold := 0.5 |}.

(** The engine as the constructor leaves it, with the concrete
    collaborators. *)
Definition fresh_engine : BTOFHitDigi :=
  BTOFHitDigi_ctor bell_density quiet_cfg (sawtooth_stream 1).

(** The quiet configuration with zero suppression below 1/2. *)
Definition suppressing_cfg : BTOFHitDigiConfig :=
  {| a := 0; b := 0; c := 0;
     cfg_tRes := 0;
     cfg_dyRangeADC := 10;
     pedestalMean := 0;
     pedestalSigma := 0;
     tdcResolution := 0.02;
     sumFields := ["layer"%string; "module"%string];
     crossTalkEnabled := false;
     threshold := 0.5 |}.

(** The quiet configuration with a dynamic range of 10^10. *)
Definition wide_range_cfg : BTOFHitDigiConfig :=
  {| a := 0; b := 0; c := 0;
     cfg_tRes := 0;
     cfg_dyRangeADC := 1e10;
     pedestalMean := 0;
     pedestalSigma := 0;
     tdcResolution := 0.02;
     sumFields := ["layer"%string; "module"%string];
     crossTalkEnabled := false;
     threshold := 0 |}.

(** The engine configured with [cfg], seeded with 1 and initialised. *)
Definition ready_engine (cfg : BTOFHitDigiConfig) : BTOFHitDigi :=
  match init two_field_geometry
          (seed_engine sawtooth_stream 1 (applyConfig cfg fresh_engine)) with
  | inr d => d
  | inl _ => fresh_engine
  end.

(** A truth hit at the origin. *)
Definition sim_hit (id : Z) (e t : Q) : SimHit :=
  {| channelId := id; energy := e; time := t; position := (0, 0, 0); particleRef := 0 |}.

End BTOF.

(** ** IrtGeo.cc: construction and binding *)

Module IrtGeoSetup.

(** What the constructor asks [PrintLog(stderr, ...)] to print. *)
Inductive log_line : Type :=
| cannot_find_default_compact_file.

(** The result of a call that may run into undefined behaviour: building a
    [std::string] from the null pointer that [getenv] returns for a variable
    that is not set. *)
Inductive outcome (A : Type) : Type :=
| undefined_behaviour
| completed (result : A).

Arguments undefined_behaviour {A}.
Arguments completed {A} result.

(** The members of [IrtGeo] that the constructor and [Bind] assign.  [det]
    holds the compact file handed to [det->fromXML]; [irtGeometry] holds the
    names of the detectors added to the [CherenkovDetectorCollection];
    [detRich] and [irtDetector] hold the detector name they were looked up
    or created with.  [None] stands for a member that was not assigned. *)
Record IrtGeo : Type := {
  detName : string;
  verbose : bool;
  det : option string;
  detRich : option string;
  irtGeometry : option (list string);
  irtDetector : option string
}.

(** [void IrtGeo::Bind()] *)
Definition Bind (this : IrtGeo) : IrtGeo :=
  {| detName := detName this;
     verbose := verbose this;
     det := det this;
     detRich := Some (detName this);
     irtGeometry := Some [detName this];
     irtDetector := Some (detName this) |}.

(** [det = &dd4hep::Detector::getInstance(); det->fromXML(compactFile);] *)
Definition fromXML (compactFile : string) (this : IrtGeo) : IrtGeo :=
  {| detName := detName this;
     verbose := verbose this;
     det := Some compactFile;
     detRich := detRich this;
     irtGeometry := irtGeometry this;
     irtDetector := irtDetector this |}.

(** [IrtGeo::IrtGeo(std::string detName_, std::string compactFile_, bool
    verbose_)]; [getenv] is the process environment, [None] for a variable
    that is not set. *)
Definition IrtGeo_ctor (getenv : string -> option string)
    (detName_ compactFile_ : string) (verbose_ : bool)
    : outcome (IrtGeo * list log_line) :=
  let this := {| detName := detName_; verbose := verbose_;
                 det := None; detRich := None;
                 irtGeometry := None; irtDetector := None |} in
  if (compactFile_ =? "")%string then
    match getenv "DETECTOR_PATH"%string with
    | None => undefined_behaviour
    | Some DETECTOR_PATH =>
        match getenv "DETECTOR_CONFIG"%string with
        | None => undefined_behaviour
        | Some DETECTOR_CONFIG =>
            if (DETECTOR_PATH =? "")%string || (DETECTOR_CONFIG =? "")%string
            then completed (this, [cannot_find_default_compact_file])
            else
              let compactFile :=
                (DETECTOR_PATH ++ "/" ++ DETECTOR_CONFIG ++ ".xml")%string in
              completed (Bind (fromXML compactFile this), [])
        end
    end
  else
    let compactFile := compactFile_ in
    completed (Bind (fromXML compactFile this), []).

End IrtGeoSetup.

(** ** JEventSourcePODIO.cc *)

Module PODIO.

Open Scope Z_scope.

(** *** [CheckOpenable] *)

(** [std::string::find(needle)]: the position of the first occurrence,
    [None] for [npos]. *)
Definition find (needle s : string) : option nat := String.index 0 needle s.

(** [double JEventSourceGeneratorT<JEventSourcePODIO>::CheckOpenable(std::string)] *)
Definition CheckOpenable (resource_name : string) : Q :=
  match find ".root" resource_name with
  | Some _ => 0.01%Q
  | None => 0.0%Q
  end.

(** *** The comma separated lists of [Open] *)

(** The loop [while (ss.good()) { getline(ss, substr, ','); insert(substr); }]
    on the characters [ss] still in the stream, with the characters [substr]
    that the running [getline] has taken so far.  A comma ends the piece and
    leaves the stream good; the end of the input ends the piece, sets
    [eofbit] and so ends the loop. *)
Fixpoint getline_pieces (substr : string) (ss : string) : list string :=
  match ss with
  | EmptyString => [substr]
  | String ch rest =>
      if (ch =? ",")%char then substr :: getline_pieces "" rest
      else getline_pieces (substr ++ String ch "") rest
  end.

(** The pieces inserted for the parameter value [str]; an empty value is
    skipped by [if (!str.empty())]. *)
Definition list_pieces (str : string) : list string :=
  if (str =? "")%string then [] else getline_pieces "" str.

(** The number of commas of a parameter value. *)
Fixpoint commas (s : string) : nat :=
  match s with
  | EmptyString => O
  | String ch rest => if (ch =? ",")%char then S (commas rest) else commas rest
  end.

(** A name without a comma. *)
Definition comma_free (s : string) : Prop :=
  ~ In ","%char (list_ascii_of_string s).

(** The update of [m_INPUT_INCLUDE_COLLECTIONS] or
    [m_INPUT_EXCLUDE_COLLECTIONS]. *)
Definition insert_pieces (str : string) (collections : gset string) : gset string :=
  foldl (fun acc substr => {[ substr ]} ∪ acc) collections (list_pieces str).

(** *** The version check of [Open] *)

(** [podio::version::Version] *)
Record Version : Type := {
  major : Z;
  minor : Z;
  patch : Z
}.

(** The two statements that compute [version_mismatch]. *)
Definition version_mismatch (version build_version : Version) : bool :=
  let version_mismatch := major version >? major build_version in
  version_mismatch
  || ((major version =? major build_version)
      && (minor version >? minor build_version)).

(** *** [PrintCollectionTypeTable] *)

(** [size_t] arithmetic. *)
Definition size_t_modulus : Z := 2 ^ 64.

Definition size_t_sub (x y : Z) : Z := (x - y) mod size_t_modulus.

(** [std::max(a, b)] *)
Definition std_max (x y : Z) : Z := if x <? y then y else x.

Definition strlen (s : string) : Z := Z.of_nat (String.length s).

Fixpoint string_fill (n : nat) (ch : ascii) : string :=
  match n with
  | O => EmptyString
  | S n' => String ch (string_fill n' ch)
  end.

Section tables.

(** [std::string::max_size()] of the implementation. *)
Variable max_size : Z.

(** [std::string(count, ch)]; [None] stands for the [std::length_error]
    thrown when [count] exceeds [max_size()]. *)
Definition fill (count : Z) (ch : ascii) : option string :=
  if count <=? max_size then Some (string_fill (Z.to_nat count) ch) else None.

(** Names that, with the two separating blanks, are no longer than
    [max_size()]. *)
Definition names_fit (dvs : list (string * string)) : Prop :=
  Forall (fun dv => strlen (fst dv) + 2 <= max_size) dvs.

(** The first loop of a table: the longest [dv->name]. *)
Definition max_name_len (dvs : list (string * string)) : Z :=
  fold_left (fun m dv => std_max m (strlen (fst dv))) dvs 0.

(** The rows of a table, each as its two columns:
    [dv->name + std::string(max_name_len + 2 - dv->name.length(), ' ')] and
    [dv->className]. *)
Fixpoint table_rows (width : Z) (dvs : list (string * string))
    : option (list (string * string)) :=
  match dvs with
  | [] => Some []
  | dv :: rest =>
      match fill (size_t_sub (width + 2) (strlen (fst dv))) " " with
      | None => None
      | Some pad =>
          match table_rows width rest with
          | None => None
          | Some rows => Some ((fst dv ++ pad, snd dv)%string :: rows)
          end
      end
  end.

(** One table of [PrintCollectionTypeTable]: the header line as two
    columns, the line of dashes, the rows.  [title] is ["Collection Name"]
    or ["ObjID Name"]. *)
Definition table (title : string) (dvs : list (string * string))
    : option ((string * string) * string * list (string * string)) :=
  let width := max_name_len dvs in
  match fill (size_t_sub (width + 2) (strlen title)) " " with
  | None => None
  | Some pad =>
      match fill width "-" with
      | None => None
      | Some dashes =>
          match table_rows width dvs with
          | None => None
          | Some rows =>
              Some ((title ++ pad, "Data Type"), dashes ++ "  " ++ dashes, rows)%string
          end
      end
  end.

Definition table_lines
    (t : (string * string) * string * list (string * string)) : list string :=
  let '(header, dashes, rows) := t in
  (fst header ++ snd header)%string :: dashes
    :: map (fun row : string * string => (fst row ++ snd row)%string) rows.

(** [void JEventSourcePODIO::PrintCollectionTypeTable(void)]: the lines
    written to [std::cout] when the call returns, [None] when a
    [std::length_error] leaves it.  [data_vectors] and [objid_vectors] are
    the names and class names of [reader.GetDataVectors()] and
    [reader.GetObjIDVectors()]. *)
Definition PrintCollectionTypeTable
    (data_vectors objid_vectors : list (string * string)) : option (list string) :=
  match table "Collection Name" data_vectors with
  | None => None
  | Some collections =>
      match table "ObjID Name" objid_vectors with
      | None => None
      | Some objids =>
          Some ([""; "Available Collections"; ""]%string
                  ++ table_lines collections ++ [""%string]
                  ++ table_lines objids ++ [""%string])
      end
  end.

End tables.

(** *** Events and the objects copied into them *)

Section events.

(** The POD-level data of a collection (for instance
    [edm4hep::EventHeaderData]). *)
Variable Tdata : Type.

(** [podio::ObjectID] *)
Record ObjectID : Type := {
  index : Z;
  collectionID : Z
}.

(** An "Obj"-level object with the members the copy assigns.  A high-level
    object [T(obj)] wraps one of these and is represented by it. *)
Record Obj : Type := {
  obj_id : ObjectID;
  obj_data : Tdata
}.

(** [EICEventStore::DataVectorT<Tdata>] with the members used here. *)
Record DataVectorT : Type := {
  dv_name : string;
  dv_className : string;
  dv_collectionID : Z;
  vec : list Tdata
}.

(** [EICEventStore] with the members used here. *)
Record EICEventStore : Type := {
  m_datavectors : list DataVectorT;
  m_podio_objs : list Obj
}.

(** [JEvent], as far as the event source touches it: the two numbers, the
    event store handed over with [Insert(es)], and the collections handed
    over with [Insert(tptrs, name)], oldest first. *)
Record JEvent : Type := {
  event_number : Z;
  run_number : Z;
  event_store : option EICEventStore;
  inserted : list (string * list Obj)
}.

Definition SetEventNumber (n : Z) (event : JEvent) : JEvent :=
  {| event_number := n;
     run_number := run_number event;
     event_store := event_store event;
     inserted := inserted event |}.

Definition SetRunNumber (n : Z) (event : JEvent) : JEvent :=
  {| event_number := event_number event;
     run_number := n;
     event_store := event_store event;
     inserted := inserted event |}.

(** [event->Insert(es)] *)
Definition Insert_store (es : EICEventStore) (event : JEvent) : JEvent :=
  {| event_number := event_number event;
     run_number := run_number event;
     event_store := Some es;
     inserted := inserted event |}.

(** [event->Insert(tptrs, name)] *)
Definition Insert (tptrs : list Obj) (name : string) (event : JEvent) : JEvent :=
  {| event_number := event_number event;
     run_number := run_number event;
     event_store := event_store event;
     inserted := inserted event ++ [(name, tptrs)] |}.

(** The body of the loop of [CopyToJEventT] on one element of [dvt->vec];
    the state is the running [id], [tptrs] and [podio_objs].  [id.index] is
    an [int] and the embedding is meant for vectors of fewer than [2^31]
    elements. *)
Definition copy_one (state : ObjectID * list Obj * list Obj) (data : Tdata)
    : ObjectID * list Obj * list Obj :=
  let '(id, tptrs, podio_objs) := state in
  let obj := {| obj_id := id; obj_data := data |} in
  ({| index := index id + 1; collectionID := collectionID id |},
   tptrs ++ [obj],
   podio_objs ++ [obj]).

(** [template <typename T, typename Tobj, typename Tdata> void
    CopyToJEventT(dvt, event, podio_objs)]: returns the event and the
    vector [podio_objs] as the call leaves them. *)
Definition CopyToJEventT (dvt : DataVectorT) (event : JEvent)
    (podio_objs : list Obj) : JEvent * list Obj :=
  let id := {| index := 0; collectionID := dv_collectionID dvt |} in
  let '(_, tptrs, podio_objs') := fold_left copy_one (vec dvt) (id, [], podio_objs) in
  (Insert tptrs (dv_name dvt) event, podio_objs').

(** *** The event source *)

(** Calls made on the member [reader]: the calls that change it and the
    queries [GetPodioVersion], [GetNumEvents], [GetDataVectors] and
    [GetObjIDVectors]. *)
Inductive reader_call : Type :=
| call_OpenFile (resource_name : string)
| call_CloseFile
| call_GetEvent (entry : Z)
| call_SetBranchStatus (brname : string) (status : bool)
| call_GetPodioVersion
| call_GetNumEvents
| call_GetDataVectors
| call_GetObjIDVectors.

(** The queries among the calls. *)
Definition is_query (call : reader_call) : bool :=
  match call with
  | call_GetPodioVersion | call_GetNumEvents
  | call_GetDataVectors | call_GetObjIDVectors => true
  | _ => false
  end.

(** Lines handed to the loggers. *)
Inductive log_event : Type :=
| log_version_mismatch (version build_version : Version)
| log_version (version build_version : Version)
| log_opened (resource_name : string) (nevents : Z)
| log_problem_opening (resource_name : string)
| log_exception (what : string)
| log_disabling_all
| log_not_found (brname : string)
| log_enabled (brname : string) (found : Z)
| log_disabled (brname : string) (found : Z)
| log_table (lines : list string).

(** [JEventSource::RETURN_STATUS], the value thrown by [GetEvent]. *)
Inductive RETURN_STATUS : Type :=
| kNO_MORE_EVENTS.

(** The members of [JEventSourcePODIO] that [Open] and [GetEvent] read or
    assign, with the calls made on [reader], the lines logged and whether
    [GetApplication()->Quit()] was called. *)
Record JEventSourcePODIO : Type := {
  resource_name : string;
  m_include_collections_str : string;
  m_exclude_collections_str : string;
  m_INPUT_INCLUDE_COLLECTIONS : gset string;
  m_INPUT_EXCLUDE_COLLECTIONS : gset string;
  run_forever : bool;
  Nevents_in_file : Z;
  Nevents_read : Z;
  reader_calls : list reader_call;
  logged : list log_event;
  quit_called : bool
}.

Definition set_Nevents_read (n : Z) (s : JEventSourcePODIO) : JEventSourcePODIO :=
  {| resource_name := resource_name s;
     m_include_collections_str := m_include_collections_str s;
     m_exclude_collections_str := m_exclude_collections_str s;
     m_INPUT_INCLUDE_COLLECTIONS := m_INPUT_INCLUDE_COLLECTIONS s;
     m_INPUT_EXCLUDE_COLLECTIONS := m_INPUT_EXCLUDE_COLLECTIONS s;
     run_forever := run_forever s;
     Nevents_in_file := Nevents_in_file s;
     Nevents_read := n;
     reader_calls := reader_calls s;
     logged := logged s;
     quit_called := quit_called s |}.

Definition set_Nevents_in_file (n : Z) (s : JEventSourcePODIO) : JEventSourcePODIO :=
  {| resource_name := resource_name s;
     m_include_collections_str := m_include_collections_str s;
     m_exclude_collections_str := m_exclude_collections_str s;
     m_INPUT_INCLUDE_COLLECTIONS := m_INPUT_INCLUDE_COLLECTIONS s;
     m_INPUT_EXCLUDE_COLLECTIONS := m_INPUT_EXCLUDE_COLLECTIONS s;
     run_forever := run_forever s;
     Nevents_in_file := n;
     Nevents_read := Nevents_read s;
     reader_calls := reader_calls s;
     logged := logged s;
     quit_called := quit_called s |}.

Definition call_reader (call : reader_call) (s : JEventSourcePODIO) : JEventSourcePODIO :=
  {| resource_name := resource_name s;
     m_include_collections_str := m_include_collections_str s;
     m_exclude_collections_str := m_exclude_collections_str s;
     m_INPUT_INCLUDE_COLLECTIONS := m_INPUT_INCLUDE_COLLECTIONS s;
     m_INPUT_EXCLUDE_COLLECTIONS := m_INPUT_EXCLUDE_COLLECTIONS s;
     run_forever := run_forever s;
     Nevents_in_file := Nevents_in_file s;
     Nevents_read := Nevents_read s;
     reader_calls := reader_calls s ++ [call];
     logged := logged s;
     quit_called := quit_called s |}.

Definition log_line (line : log_event) (s : JEventSourcePODIO) : JEventSourcePODIO :=
  {| resource_name := resource_name s;
     m_include_collections_str := m_include_collections_str s;
     m_exclude_collections_str := m_exclude_collections_str s;
     m_INPUT_INCLUDE_COLLECTIONS := m_INPUT_INCLUDE_COLLECTIONS s;
     m_INPUT_EXCLUDE_COLLECTIONS := m_INPUT_EXCLUDE_COLLECTIONS s;
     run_forever := run_forever s;
     Nevents_in_file := Nevents_in_file s;
     Nevents_read := Nevents_read s;
     reader_calls := reader_calls s;
     logged := logged s ++ [line];
     quit_called := quit_called s |}.

Definition Quit (s : JEventSourcePODIO) : JEventSourcePODIO :=
  {| resource_name := resource_name s;
     m_include_collections_str := m_include_collections_str s;
     m_exclude_collections_str := m_exclude_collections_str s;
     m_INPUT_INCLUDE_COLLECTIONS := m_INPUT_INCLUDE_COLLECTIONS s;
     m_INPUT_EXCLUDE_COLLECTIONS := m_INPUT_EXCLUDE_COLLECTIONS s;
     run_forever := run_forever s;
     Nevents_in_file := Nevents_in_file s;
     Nevents_read := Nevents_read s;
     reader_calls := reader_calls s;
     logged := logged s;
     quit_called := true |}.

(** The parameters read by [Open]: the members that receive them with the
    values given by the user. *)
Definition set_parameters (include_str exclude_str : string) (forever : bool)
    (s : JEventSourcePODIO) : JEventSourcePODIO :=
  {| resource_name := resource_name s;
     m_include_collections_str := include_str;
     m_exclude_collections_str := exclude_str;
     m_INPUT_INCLUDE_COLLECTIONS :=
       insert_pieces include_str (m_INPUT_INCLUDE_COLLECTIONS s);
     m_INPUT_EXCLUDE_COLLECTIONS :=
       insert_pieces exclude_str (m_INPUT_EXCLUDE_COLLECTIONS s);
     run_forever := forever;
     Nevents_in_file := Nevents_in_file s;
     Nevents_read := Nevents_read s;
     reader_calls := reader_calls s;
     logged := logged s;
     quit_called := quit_called s |}.

(** The modulus of the unsigned type of the two event counters, which is
    declared in [JEventSourcePODIO.h]. *)
Variable counter_modulus : Z.

(** [reader.GetEvent(entry)]: the event store the reader builds. *)
Variable reader_GetEvent : Z -> EICEventStore.

(** [CopyToJEvent] of the generated [datamodel_glue.h], which selects the
    instance of [CopyToJEventT] by class name. *)
Variable CopyToJEvent : DataVectorT -> JEvent -> list Obj -> JEvent * list Obj.

(** [event->Get<edm4hep::EventHeader>("EventHeader")]: the event number and
    run number of each header returned. *)
Variable Get_EventHeader : JEvent -> list (Z * Z).

(** One pass of the loop over [es->m_datavectors].  [es->m_podio_objs] is
    the vector of the store the event already holds, so what the copy
    appends shows in the event. *)
Definition copy_datavector (event : JEvent) (dv : DataVectorT) : JEvent :=
  match event_store event with
  | None => event
  | Some es =>
      let (event', podio_objs) := CopyToJEvent dv event (m_podio_objs es) in
      Insert_store {| m_datavectors := m_datavectors es;
                      m_podio_objs := podio_objs |} event'
  end.

(** The loop over the headers. *)
Definition set_numbers (event : JEvent) (h : Z * Z) : JEvent :=
  SetRunNumber (snd h) (SetEventNumber (fst h) event).

(** The part of [GetEvent] after the counter check: read the entry, hand
    the store to the event, copy the collections, set the numbers. *)
Definition fill_event (entry : Z) (event : JEvent) : JEvent :=
  let es := reader_GetEvent entry in
  let event := Insert_store es event in
  let event := fold_left copy_datavector (m_datavectors es) event in
  let headers := Get_EventHeader event in
  fold_left set_numbers headers event.

(** [void JEventSourcePODIO::GetEvent(std::shared_ptr<JEvent> event)]: the
    source after the call and either the thrown status or the filled
    event. *)
Definition GetEvent (s : JEventSourcePODIO) (event : JEvent)
    : JEventSourcePODIO * (RETURN_STATUS + JEvent) :=
  let checked :=
    if Nevents_in_file s <=? Nevents_read s then
      if run_forever s then inr (set_Nevents_read 0 s)
      else inl (call_reader call_CloseFile s)
    else inr s in
  match checked with
  | inl s' => (s', inl kNO_MORE_EVENTS)
  | inr s' =>
      let entry := Nevents_read s' in
      let s'' := call_reader (call_GetEvent entry)
                   (set_Nevents_read ((entry + 1) mod counter_modulus) s') in
      (s'', inr (fill_event entry event))
  end.

(** Successive calls of [GetEvent], each on a fresh event, until one
    throws: the events delivered, the source, and the status thrown if a
    call threw. *)
Fixpoint GetEvents (n : nat) (fresh : JEvent) (s : JEventSourcePODIO)
    : list JEvent * JEventSourcePODIO * option RETURN_STATUS :=
  match n with
  | O => ([], s, None)
  | S n' =>
      match GetEvent s fresh with
      | (s', inl status) => ([], s', Some status)
      | (s', inr event) =>
          let '(events, s'', status) := GetEvents n' fresh s' in
          (event :: events, s'', status)
      end
  end.

End events.

Arguments obj_id {Tdata} _.
Arguments obj_data {Tdata} _.
Arguments dv_name {Tdata} _.
Arguments dv_className {Tdata} _.
Arguments dv_collectionID {Tdata} _.
Arguments vec {Tdata} _.
Arguments m_datavectors {Tdata} _.
Arguments m_podio_objs {Tdata} _.
Arguments event_number {Tdata} _.
Arguments run_number {Tdata} _.
Arguments event_store {Tdata} _.
Arguments inserted {Tdata} _.
Arguments SetEventNumber {Tdata} n event.
Arguments SetRunNumber {Tdata} n event.
Arguments Insert_store {Tdata} es event.
Arguments Insert {Tdata} tptrs name event.
Arguments copy_one {Tdata} state data.
Arguments CopyToJEventT {Tdata} dvt event podio_objs.
Arguments copy_datavector {Tdata} CopyToJEvent event dv.
Arguments set_numbers {Tdata} event h.
Arguments fill_event {Tdata} reader_GetEvent CopyToJEvent Get_EventHeader entry event.
Arguments GetEvent {Tdata} counter_modulus reader_GetEvent CopyToJEvent Get_EventHeader s event.
Arguments GetEvents {Tdata} counter_modulus reader_GetEvent CopyToJEvent Get_EventHeader n fresh s.

(** *** [Open] *)

(** The values the user has given to the four parameters of [Open];
    [None] for a parameter that was not set. *)
Record user_parameters : Type := {
  INPUT_INCLUDE_COLLECTIONS : option string;
  INPUT_EXCLUDE_COLLECTIONS : option string;
  RUN_FOREVER : option bool;
  PRINT_TYPE_TABLE : option bool
}.

(** [SetDefaultParameter(name, var, description)]: [var] keeps its value
    unless the user has set the parameter. *)
Definition SetDefaultParameter {A : Type} (user : option A) (var : A) : A :=
  match user with
  | Some v => v
  | None => var
  end.

(** What [reader] answers for the file at hand: the message of the
    exception [OpenFile] throws, if it throws; the version and the number
    of events; the names and class names of the data vectors and of the
    object-id vectors; the count [found] that [SetBranchStatus] reports
    for a branch name; and, for each of the four queries, the message of
    the exception it throws, if it throws instead of answering. *)
Record root_file : Type := {
  open_exception : option string;
  file_version : Version;
  file_events : Z;
  file_data_vectors : list (string * string);
  file_objid_vectors : list (string * string);
  branches_found : string -> Z;
  version_exception : option string;
  events_exception : option string;
  data_vectors_exception : option string;
  objid_vectors_exception : option string
}.

(** The order in which a range-based [for] walks a
    [std::set<std::string>]: ascending in [std::string::operator<], the
    lexicographic order of the characters. *)
Definition in_order (names : gset string) : list string :=
  merge_sort (fun x y : string => String.leb x y) (elements names).

Section open.

Variable max_size : Z.

(** [podio::version::build_version] *)
Variable build_version : Version.

(** [e.what()] of the [std::length_error] of [std::string]. *)
Variable length_error_what : string.

Variable user : user_parameters.
Variable file : root_file.

(** The body of the loop over [m_INPUT_INCLUDE_COLLECTIONS]. *)
Definition enable_collection (s : JEventSourcePODIO) (brname : string)
    : JEventSourcePODIO :=
  let s := log_line log_disabling_all s in
  let s := call_reader (call_SetBranchStatus brname true) s in
  let found := branches_found file brname in
  if found =? 0 then log_line (log_not_found brname) s
  else log_line (log_enabled brname found) s.

(** The body of the loop over [m_INPUT_EXCLUDE_COLLECTIONS]. *)
Definition disable_collection (s : JEventSourcePODIO) (brname : string)
    : JEventSourcePODIO :=
  let s := call_reader (call_SetBranchStatus brname false) s in
  let found := branches_found file brname in
  if found =? 0 then log_line (log_not_found brname) s
  else log_line (log_disabled brname found) s.

(** The two blocks at the end of [Open]. *)
Definition set_branch_statuses (s : JEventSourcePODIO) : JEventSourcePODIO :=
  let s :=
    if decide (m_INPUT_INCLUDE_COLLECTIONS s = ∅) then s
    else fold_left enable_collection (in_order (m_INPUT_INCLUDE_COLLECTIONS s))
           (call_reader (call_SetBranchStatus "*" false) s) in
  if decide (m_INPUT_EXCLUDE_COLLECTIONS s = ∅) then s
  else fold_left disable_collection (in_order (m_INPUT_EXCLUDE_COLLECTIONS s)) s.

(** The [catch (std::exception &e)] block. *)
Definition problem_opening (what : string) (s : JEventSourcePODIO)
    : JEventSourcePODIO :=
  Quit (log_line (log_exception what)
          (log_line (log_problem_opening (resource_name s)) s)).

(** The queries one table of [PrintCollectionTypeTable] makes before it is
    printed or a [std::length_error] leaves it: one for the loop that finds
    the longest name and, when the header line and the line of dashes could
    be built, one more for the loop over the rows. *)
Definition table_queries (query : reader_call) (title : string)
    (dvs : list (string * string)) : list reader_call :=
  match fill max_size (size_t_sub (max_name_len dvs + 2) (strlen title)) " ",
        fill max_size (max_name_len dvs) "-" with
  | Some _, Some _ => [query; query]
  | _, _ => [query]
  end.

(** [PrintCollectionTypeTable] as [Open] calls it: the queries made on
    [reader], and either the message of the exception that leaves the call
    (of a query that throws, or of the [std::length_error] of a padding) or
    the lines printed. *)
Definition PrintCollectionTypeTable_on_reader
    : list reader_call * (string + list string) :=
  match data_vectors_exception file with
  | Some what => ([call_GetDataVectors], inl what)
  | None =>
      let collection_queries :=
        table_queries call_GetDataVectors "Collection Name" (file_data_vectors file) in
      match table max_size "Collection Name" (file_data_vectors file) with
      | None => (collection_queries, inl length_error_what)
      | Some _ =>
          match objid_vectors_exception file with
          | Some what => (collection_queries ++ [call_GetObjIDVectors], inl what)
          | None =>
              let queries :=
                collection_queries
                  ++ table_queries call_GetObjIDVectors "ObjID Name"
                       (file_objid_vectors file) in
              match PrintCollectionTypeTable max_size
                      (file_data_vectors file) (file_objid_vectors file) with
              | None => (queries, inl length_error_what)
              | Some lines => (queries, inr lines)
              end
          end
      end
  end.

(** How control leaves the [try] block of [Open]: by an exception, by the
    [return] after a version mismatch, or at its end. *)
Inductive try_outcome : Type :=
| thrown (what : string)
| returned
| completed.

(** The [try] block of [Open]. *)
Definition try_block (print_type_table : bool) (s : JEventSourcePODIO)
    : JEventSourcePODIO * try_outcome :=
  let s := call_reader (call_OpenFile (resource_name s)) s in
  match open_exception file with
  | Some what => (s, thrown what)
  | None =>
      let s := call_reader call_GetPodioVersion s in
      match version_exception file with
      | Some what => (s, thrown what)
      | None =>
          let version := file_version file in
          if version_mismatch version build_version then
            (Quit (log_line (log_version_mismatch version build_version) s), returned)
          else
            let s := log_line (log_version version build_version) s in
            let s := call_reader call_GetNumEvents s in
            match events_exception file with
            | Some what => (s, thrown what)
            | None =>
                let s := set_Nevents_in_file (file_events file) s in
                let s := log_line (log_opened (resource_name s) (Nevents_in_file s)) s in
                if print_type_table then
                  let (queries, result) := PrintCollectionTypeTable_on_reader in
                  let s := fold_left (fun s query => call_reader query s) queries s in
                  match result with
                  | inl what => (s, thrown what)
                  | inr lines => (log_line (log_table lines) s, completed)
                  end
                else (s, completed)
            end
      end
  end.

(** [void JEventSourcePODIO::Open()]: the parameters, the [try] block with
    its [catch], and the two blocks that set the branch statuses.  A call of
    [SetBranchStatus] is outside the [try] block; the embedding covers the
    runs in which it returns. *)
Definition Open (s : JEventSourcePODIO) : JEventSourcePODIO :=
  let s :=
    set_parameters
      (SetDefaultParameter (INPUT_INCLUDE_COLLECTIONS user) (m_include_collections_str s))
      (SetDefaultParameter (INPUT_EXCLUDE_COLLECTIONS user) (m_exclude_collections_str s))
      (SetDefaultParameter (RUN_FOREVER user) (run_forever s)) s in
  let print_type_table := SetDefaultParameter (PRINT_TYPE_TABLE user) false in
  match try_block print_type_table s with
  | (s, thrown what) => problem_opening what s
  | (s, returned) => s
  | (s, completed) => set_branch_statuses s
  end.

End open.

(** What a sequence of reader calls leaves as the status of a branch, when
    each [SetBranchStatus(brname, status)] sets the status of the branches
    that [brname] matches and no other call touches it. *)
Definition branch_status (matches : string -> string -> bool)
    (calls : list reader_call) (initial : bool) (branch : string) : bool :=
  fold_left
    (fun status call =>
       match call with
       | call_SetBranchStatus brname new_status =>
           if matches brname branch then new_status else status
       | _ => status
       end)
    calls initial.

(** *** Concrete sources and files *)

(** A source as the constructor and the default member initialisers of the
    header are expected to leave it: nothing parsed, no event counted. *)
Definition new_source (name : string) : JEventSourcePODIO :=
  {| resource_name := name;
     m_include_collections_str := "";
     m_exclude_collections_str := "";
     m_INPUT_INCLUDE_COLLECTIONS := ∅;
     m_INPUT_EXCLUDE_COLLECTIONS := ∅;
     run_forever := false;
     Nevents_in_file := 0;
     Nevents_read := 0;
     reader_calls := [];
     logged := [];
     quit_called := false |}.

(** A source on an open file of [n] events. *)
Definition open_source (n : Z) (forever : bool) : JEventSourcePODIO :=
  {| resource_name := "events.root";
     m_include_collections_str := "";
     m_exclude_collections_str := "";
     m_INPUT_INCLUDE_COLLECTIONS := ∅;
     m_INPUT_EXCLUDE_COLLECTIONS := ∅;
     run_forever := forever;
     Nevents_in_file := n;
     Nevents_read := 0;
     reader_calls := [];
     logged := [];
     quit_called := false |}.

Definition empty_event : JEvent Z :=
  {| event_number := 0; run_number := 0; event_store := None; inserted := [] |}.

(** A reader whose entry [i] holds one header collection with the numbers
    [(100 + i, 7)] and one collection of two hits. *)
Definition sample_store (entry : Z) : EICEventStore Z :=
  {| m_datavectors :=
       [ {| dv_name := "EventHeader"; dv_className := "vector<edm4hep::EventHeaderData>";
            dv_collectionID := 1; vec := [100 + entry] |};
         {| dv_name := "EcalBarrelHits"; dv_className := "vector<edm4hep::SimCalorimeterHitData>";
            dv_collectionID := 2; vec := [11; 12] |} ];
     m_podio_objs := [] |}.

(** The headers of an event: the objects inserted under "EventHeader", with
    run number 7. *)
Definition sample_headers (event : JEvent Z) : list (Z * Z) :=
  flat_map
    (fun entry : string * list (Obj Z) =>
       if (fst entry =? "EventHeader")%string
       then map (fun obj => (obj_data obj, 7)) (snd entry)
       else [])
    (inserted event).

Definition sample_file : root_file :=
  {| open_exception := None;
     file_version := {| major := 0; minor := 16; patch := 2 |};
     file_events := 3;
     file_data_vectors :=
       [("EventHeader", "vector<edm4hep::EventHeaderData>");
        ("EcalBarrelHits", "vector<edm4hep::SimCalorimeterHitData>")]%string;
     file_objid_vectors := [("EcalBarrelHits#0", "vector<podio::ObjectID>")]%string;
     branches_found := fun brname => if (brname =? "EcalBarrelHits")%string then 1 else 0;
     version_exception := None;
     events_exception := None;
     data_vectors_exception := None;
     objid_vectors_exception := None |}.

(** The same file behind a reader whose [GetNumEvents] throws. *)
Definition unreadable_file : root_file :=
  {| open_exception := None;
     file_version := {| major := 0; minor := 16; patch := 2 |};
     file_events := 3;
     file_data_vectors := file_data_vectors sample_file;
     file_objid_vectors := file_objid_vectors sample_file;
     branches_found := branches_found sample_file;
     version_exception := None;
     events_exception := Some "no events tree"%string;
     data_vectors_exception := None;
     objid_vectors_exception := None |}.

(** A user who asks for the type table. *)
Definition listing_user : user_parameters :=
  {| INPUT_INCLUDE_COLLECTIONS := None;
     INPUT_EXCLUDE_COLLECTIONS := None;
     RUN_FOREVER := None;
     PRINT_TYPE_TABLE := Some true |}.

(** A user who sets no parameter, and one who selects collections. *)
Definition default_user : user_parameters :=
  {| INPUT_INCLUDE_COLLECTIONS := None;
     INPUT_EXCLUDE_COLLECTIONS := None;
     RUN_FOREVER := None;
     PRINT_TYPE_TABLE := None |}.

Definition selecting_user : user_parameters :=
  {| INPUT_INCLUDE_COLLECTIONS := Some "EcalBarrelHits,EventHeader"%string;
     INPUT_EXCLUDE_COLLECTIONS := Some "EventHeader"%string;
     RUN_FOREVER := None;
     PRINT_TYPE_TABLE := None |}.

(** A pattern matches a branch when it is the branch name or ["*"]. *)
Definition exact_or_star (brname branch : string) : bool :=
  (brname =? "*")%string || (brname =? branch)%string.

End PODIO.

(** The environment of a configured site. *)
Definition two_variable_environment (var : string) : option string :=
  if (var =? "DETECTOR_PATH")%string then Some "/opt/detector"%string
  else if (var =? "DETECTOR_CONFIG")%string then Some "epic"%string
  else None.

(* ===================================================================== *)
(** * Properties                                                          *)
(* ===================================================================== *)

Import BTOF.
Open Scope Q_scope.

(** ** Radiator tables *)

Section radiator_properties.

Variables kAerogel kGas : Z.

Lemma string_eqb_false (s t : string) : s <> t -> (s =? t)%string = false.
Proof. intros Hne. apply String.eqb_neq. exact Hne. Qed.

(** C10: for a radiator number [num] that is [kAerogel] or [kGas],
    [RadiatorNum(RadiatorName(num)) = num]; for every other number
    [RadiatorName] returns ["UNKNOWN_RADIATOR"]; and for every name other
    than ["Aerogel"] and ["Gas"], [RadiatorNum] returns [-1]. *)
Theorem RadiatorNum_RadiatorName_roundtrip (num : Z) (name : string) :
  ((num = kAerogel \/ num = kGas) ->
   IrtGeo.value
     (IrtGeo.RadiatorNum_cstr kAerogel kGas
        (IrtGeo.value (IrtGeo.RadiatorName kAerogel kGas num))) = num)
  /\ (num <> kAerogel -> num <> kGas ->
      IrtGeo.value (IrtGeo.RadiatorName kAerogel kGas num)
      = "UNKNOWN_RADIATOR"%string)
  /\ (name <> "Aerogel"%string -> name <> "Gas"%string ->
      IrtGeo.value (IrtGeo.RadiatorNum kAerogel kGas name) = (-1)%Z).
Proof.
  unfold IrtGeo.RadiatorNum_cstr, IrtGeo.RadiatorNum, IrtGeo.RadiatorName.
  repeat split.
  - intros Hnum.
    destruct (Z.eqb_spec num kAerogel) as [Ha | Ha]; [now subst |].
    destruct (Z.eqb_spec num kGas) as [Hg | Hg]; [now subst |].
    destruct Hnum; contradiction.
  - intros Ha Hg.
    apply Z.eqb_neq in Ha, Hg. now rewrite Ha, Hg.
  - intros Ha Hg.
    now rewrite (string_eqb_false _ _ Ha), (string_eqb_false _ _ Hg).
Qed.

End radiator_properties.

Lemma RadiatorNum_RadiatorName_roundtrip_witness :
  IrtGeo.value
    (IrtGeo.RadiatorNum_cstr 0 1 (IrtGeo.value (IrtGeo.RadiatorName 0 1 1))) = 1%Z
  /\ IrtGeo.value (IrtGeo.RadiatorName 0 1 7) = "UNKNOWN_RADIATOR"%string
  /\ IrtGeo.value (IrtGeo.RadiatorNum 0 1 "Water") = (-1)%Z.
Proof.
  split; [| split].
  - apply (RadiatorNum_RadiatorName_roundtrip 0 1 1 "Water"). right. reflexivity.
  - apply (RadiatorNum_RadiatorName_roundtrip 0 1 7 "Water"); discriminate.
  - apply (RadiatorNum_RadiatorName_roundtrip 0 1 7 "Water"); discriminate.
Defined.

(** ** Constants of the header *)

Section header_properties.

Variable TMath_Landau : Q -> Q -> Q -> bool -> Q.
Variable default_cfg : BTOFHitDigiConfig.
Variable default_tape : nat -> Q.

Local Abbreviation ctor := (BTOFHitDigi_ctor TMath_Landau default_cfg default_tape).

Lemma applyConfig_const_members (cfg : BTOFHitDigiConfig) (d : BTOFHitDigi) :
  const_members (applyConfig cfg d) = const_members d.
Proof. reflexivity. Qed.

Lemma with_generator_const_members (g : rng) (d : BTOFHitDigi) :
  const_members (with_generator g d) = const_members d.
Proof. reflexivity. Qed.

Lemma total_time_ctor : total_time ctor = 100%Z.
Proof. reflexivity. Qed.

(** C9: whatever configuration is supplied, the engine has [adc_bit = 8],
    [tdc_bit = 10], [tMin = 0.1], [tMax = 100.0], [time_period = 25], and
    its neighbour finder is the one constructed with (64, 4, 3.2, 4). *)
Theorem quantization_constants_fixed (cfg : BTOFHitDigiConfig) :
  let d := applyConfig cfg ctor in
  adc_bit d = 8%Z
  /\ tdc_bit d = 10%Z
  /\ tMin d = 0.1
  /\ tMax d = 100.0
  /\ time_period d = 25%Z
  /\ _neighborFinder d = BarrelTOFNeighborFinder_ctor 64 4 3.2 4
  /\ m_cfg d = cfg.
Proof. cbv zeta. repeat split. Qed.

End header_properties.

(** ** The pulse shape *)

Section pulse_properties.

Variable TMath_Landau : Q -> Q -> Q -> bool -> Q.
Variable default_cfg : BTOFHitDigiConfig.
Variable default_tape : nat -> Q.

(** ROOT's Landau density takes no negative value. *)
Hypothesis Landau_nonneg : forall x mu s norm, 0 <= TMath_Landau x mu s norm.

(** C7, as the header has it: the pulse function built by the constructor
    is the constant [C = -113.766] times the normalised Landau density at
    [(t, mpv, sigma)], so its value is never positive; [TF1] is given two
    parameters, and the value depends on the abscissa and these two
    parameters alone, so that a gain handed over as a further parameter
    changes nothing; its scale is the constant [C].  The member [gain = 80]
    is a constant of the engine beside the function, whatever the
    configuration. *)
Theorem fLandau_single_sign (t mpv sigma : Q) :
  tf1_fn (fLandau (BTOFHitDigi_ctor TMath_Landau default_cfg default_tape))
    = landau_lambda TMath_Landau
  /\ tf1_npar (fLandau (BTOFHitDigi_ctor TMath_Landau default_cfg default_tape)) = 2%Z
  /\ landau_lambda TMath_Landau [t] [mpv; sigma]
     = - 113.766 * TMath_Landau t mpv sigma true
  /\ landau_lambda TMath_Landau [t] [mpv; sigma] <= 0
  /\ (forall x x' par par',
        nth 0 x 0 = nth 0 x' 0 ->
        nth 0 par 0 = nth 0 par' 0 -> nth 1 par 0 = nth 1 par' 0 ->
        landau_lambda TMath_Landau x par = landau_lambda TMath_Landau x' par')
  /\ (forall gain : Q,
        landau_lambda TMath_Landau [t] [mpv; sigma; gain]
        = landau_lambda TMath_Landau [t] [mpv; sigma])
  /\ (forall cfg : BTOFHitDigiConfig,
        let d := applyConfig cfg (BTOFHitDigi_ctor TMath_Landau default_cfg default_tape) in
        gain d = 80 /\ tf1_fn (fLandau d) = landau_lambda TMath_Landau).
Proof using Landau_nonneg.
  split; [reflexivity | split; [reflexivity | split; [reflexivity | split]]].
  - unfold landau_lambda. cbn [nth].
    pose proof (Landau_nonneg t mpv sigma true) as Hden.
    assert (Hc : - 113.766 < 0) by reflexivity.
    nra.
  - split; [| split].
    + intros x x' par par' Hx Hmean Hstd. unfold landau_lambda.
      now rewrite Hx, Hmean, Hstd.
    + intros gain. reflexivity.
    + intros cfg. split; reflexivity.
Qed.

End pulse_properties.

Lemma bell_density_nonneg (x mu s : Q) (norm : bool) : 0 <= bell_density x mu s norm.
Proof.
  unfold bell_density.
  destruct (Qle_bool s 0) eqn:Hs; [apply Qle_refl |].
  assert (Hpos : 0 < s).
  { apply Qnot_le_lt. intros Hle. apply Qle_bool_iff in Hle. congruence. }
  set (u := (x - mu) / s).
  assert (Hden : 0 <= / (1 + u * u)).
  { apply Qinv_le_0_compat. nra. }
  destruct norm; [| exact Hden].
  unfold Qdiv. apply Qmult_le_0_compat; [exact Hden |].
  apply Qinv_le_0_compat. apply Qlt_le_weak. exact Hpos.
Qed.

Lemma fLandau_single_sign_witness :
  tf1_fn (fLandau fresh_engine) [3.7] [3.65; 0.293951] <= 0.
Proof.
  destruct (fLandau_single_sign bell_density quiet_cfg (sawtooth_stream 1)
              bell_density_nonneg 3.7 3.65 0.293951) as (Hfn & _ & _ & Hsign & _).
  unfold fresh_engine. rewrite Hfn. exact Hsign.
Defined.

(** C7 as stated fails: the function the header hands to [TF1] takes two
    parameters and never reads a third one, so for no Landau density that
    is somewhere different from zero is its scale controlled by a gain;
    with the bell-shaped density, at the peak of the pulse, the gains 80
    and 160 handed over as a third parameter give the same value. *)
Lemma fLandau_scale_not_gain :
  ~ (exists (TMath_Landau : Q -> Q -> Q -> bool -> Q) (cfg : BTOFHitDigiConfig)
            (tape : nat -> Q) (t mpv sigma : Q),
        ~ TMath_Landau t mpv sigma true == 0
        /\ scale_controlled_by_gain
             (tf1_fn (fLandau (BTOFHitDigi_ctor TMath_Landau cfg tape))))
  /\ ~ scale_controlled_by_gain (tf1_fn (fLandau fresh_engine))
  /\ tf1_npar (fLandau fresh_engine) = 2%Z
  /\ tf1_fn (fLandau fresh_engine) [3.65] [3.65; 0.293951; 80]
     = tf1_fn (fLandau fresh_engine) [3.65] [3.65; 0.293951; 160].
Proof.
  split; [| split; [| split; reflexivity]].
  - intros (TMath_Landau & cfg & tape & t & mpv & sigma & Hdensity & Hclaim).
    apply (Hclaim t mpv sigma 80 160).
    + intros Heq. discriminate Heq.
    + cbn. intros Hzero. apply Hdensity.
      apply Qmult_integral in Hzero as [Hzero | Hzero]; [discriminate Hzero | exact Hzero].
    + reflexivity.
  - intros Hclaim.
    apply (Hclaim 3.65 3.65 0.293951 80 160).
    + intros Heq. discriminate Heq.
    + intros Hzero. vm_compute in Hzero. discriminate Hzero.
    + reflexivity.
Qed.

(** ** Clipping and the two code paths *)

Lemma max_code_nonneg (bits : Z) : (0 <= bits)%Z -> (0 <= max_code bits)%Z.
Proof.
  intros Hbits. unfold max_code.
  pose proof (Z.pow_pos_nonneg 2 bits) as Hpow. lia.
Qed.

Lemma clip_code_range (bits v : Z) :
  (0 <= bits)%Z -> (0 <= clip_code bits v <= max_code bits)%Z.
Proof.
  intros Hbits. pose proof (max_code_nonneg bits Hbits) as Hmax.
  unfold clip_code.
  destruct (Z.ltb_spec v 0); [lia |].
  destruct (Z.ltb_spec (max_code bits) v); lia.
Qed.

Lemma clip_code_below (bits v : Z) : (v < 0)%Z -> clip_code bits v = 0%Z.
Proof.
  intros Hv. unfold clip_code. destruct (Z.ltb_spec v 0); [reflexivity | lia].
Qed.

Lemma clip_code_above (bits v : Z) :
  (0 <= bits)%Z -> (max_code bits <= v)%Z -> clip_code bits v = max_code bits.
Proof.
  intros Hbits Hv. pose proof (max_code_nonneg bits Hbits) as Hmax.
  unfold clip_code.
  destruct (Z.ltb_spec v 0); [lia |].
  destruct (Z.ltb_spec (max_code bits) v); lia.
Qed.

Lemma clip_code_inside (bits v : Z) :
  (0 <= v <= max_code bits)%Z -> clip_code bits v = v.
Proof.
  intros Hv. unfold clip_code.
  destruct (Z.ltb_spec v 0); [lia |].
  destruct (Z.ltb_spec (max_code bits) v); lia.
Qed.

Lemma clip_code_monotone (bits v w : Z) :
  (0 <= bits)%Z -> (v <= w)%Z -> (clip_code bits v <= clip_code bits w)%Z.
Proof.
  intros Hbits Hvw. pose proof (max_code_nonneg bits Hbits) as Hmax.
  unfold clip_code.
  destruct (Z.ltb_spec v 0), (Z.ltb_spec w 0),
    (Z.ltb_spec (max_code bits) v), (Z.ltb_spec (max_code bits) w); lia.
Qed.

Lemma Qfloor_negative (x : Q) : x < 0 -> (Qfloor x < 0)%Z.
Proof.
  intros Hx. pose proof (Qfloor_le x) as Hfl.
  assert (Hlt : inject_Z (Qfloor x) < inject_Z 0) by (eapply Qle_lt_trans; eauto).
  rewrite <- Zlt_Qlt in Hlt. exact Hlt.
Qed.

Lemma Qfloor_at_least (x : Q) (n : Z) : inject_Z n <= x -> (n <= Qfloor x)%Z.
Proof.
  intros Hx. rewrite <- (Qfloor_Z n). apply Qfloor_resp_le. exact Hx.
Qed.

Lemma Qltb_true (x y : Q) : Qltb x y = true <-> x < y.
Proof.
  unfold Qltb. rewrite negb_true_iff. split.
  - intros Hb. apply Qnot_le_lt. intros Hle. apply Qle_bool_iff in Hle. congruence.
  - intros Hlt. destruct (Qle_bool y x) eqn:Hb; [| reflexivity].
    apply Qle_bool_iff in Hb. exfalso. apply (Qlt_not_le _ _ Hlt Hb).
Qed.

Lemma Qltb_false (x y : Q) : Qltb x y = false <-> y <= x.
Proof.
  unfold Qltb. rewrite negb_false_iff. apply Qle_bool_iff.
Qed.

(** ** The engine *)

Section engine_properties.

Variable TMath_Landau : Q -> Q -> Q -> bool -> Q.
Variable default_cfg : BTOFHitDigiConfig.
Variable default_tape : nat -> Q.
Variable Qsqrt : Q -> Q.
Variable pulse_contribution : SmearedHit -> Q.
Variable effective_time : list SmearedHit -> Q.
Variable sharing_fraction : Q.
Variable detector : GeometryHandle.
Variable stream_of_seed : Z -> nat -> Q.

Local Abbreviation ctor := (BTOFHitDigi_ctor TMath_Landau default_cfg default_tape).
Local Abbreviation init' := (init detector).
Local Abbreviation seeded := (seed_engine stream_of_seed).
Local Abbreviation aggregate' :=
  (aggregate pulse_contribution effective_time sharing_fraction detector).
Local Abbreviation execute_rand' :=
  (execute_rand Qsqrt pulse_contribution effective_time sharing_fraction detector).
Local Abbreviation execute' :=
  (execute Qsqrt pulse_contribution effective_time sharing_fraction detector).
Local Abbreviation run' :=
  (run Qsqrt pulse_contribution effective_time sharing_fraction detector stream_of_seed).

Lemma init_success (d0 d : BTOFHitDigi) :
  init' d0 = inr d ->
  valid_configuration d0 = true
  /\ const_members d = const_members d0
  /\ m_cfg d = m_cfg d0
  /\ _neighborFinder d = _neighborFinder d0
  /\ dyRangeADC d = cfg_dyRangeADC (m_cfg d0)
  /\ stepTDC d = tdcResolution (m_cfg d0)
  /\ tRes d = cfg_tRes (m_cfg d0)
  /\ generator d = generator d0.
Proof.
  unfold init. destruct (valid_configuration d0) eqn:Hvalid; [| discriminate].
  intros [= <-]. repeat split.
Qed.

Lemma init_dyRange_positive (d0 d : BTOFHitDigi) :
  init' d0 = inr d -> 0 < dyRangeADC d.
Proof.
  intros Hinit. destruct (init_success _ _ Hinit) as (Hvalid & _ & _ & _ & -> & _).
  unfold valid_configuration in Hvalid.
  apply andb_true_iff in Hvalid as [_ Hdy]. now apply Qltb_true.
Qed.

(** The engine a job works with: constructed, configured, seeded,
    initialised. *)
Lemma configured_engine_constants (cfg : BTOFHitDigiConfig) (seed : Z) (d : BTOFHitDigi) :
  init' (seeded seed (applyConfig cfg ctor)) = inr d ->
  adc_bit d = 8%Z /\ tdc_bit d = 10%Z /\ time_period d = 25%Z
  /\ tMin d = 0.1 /\ tMax d = 100.0
  /\ _neighborFinder d = BarrelTOFNeighborFinder_ctor 64 4 3.2 4
  /\ m_cfg d = cfg.
Proof.
  intros Hinit. destruct (init_success _ _ Hinit) as (_ & Hconst & Hcfg & Hnf & _).
  unfold const_members in Hconst. cbn in Hconst, Hcfg, Hnf.
  injection Hconst as -> -> _ -> _ -> ->. rewrite Hcfg, Hnf. repeat split.
Qed.

Lemma digitize_all_cons (d : BTOFHitDigi) (s : AnalogSignal)
    (rest : list AnalogSignal) (g : rng) :
  digitize_all d (s :: rest) g =
  let (r, g1) := digitize d s g in
  let (rest', g2) := digitize_all d rest g1 in
  (match r with Some hit => hit :: rest' | None => rest' end, g2).
Proof. reflexivity. Qed.

Lemma digitize_value (d : BTOFHitDigi) (s : AnalogSignal) (g : rng) :
  digitize d s g =
  (if Qltb (amplitude s) (threshold (m_cfg d)) then None
   else Some {| raw_channelId := sig_channel s;
                adcCode := adc_code d (amplitude s)
                             (pedestalMean (m_cfg d)
                              + pedestalSigma (m_cfg d) * tape g (pos g));
                tdcCode := tdc_code d (arrival s) |},
   mk_rng (tape g) (S (pos g))).
Proof. reflexivity. Qed.

(** Every emitted record carries codes computed by the two code paths. *)
Lemma digitize_all_codes (d : BTOFHitDigi) (signals : list AnalogSignal)
    (g : rng) (r : RawHit) :
  In r (fst (digitize_all d signals g)) ->
  exists s ped,
    In s signals
    /\ raw_channelId r = sig_channel s
    /\ adcCode r = adc_code d (amplitude s) ped
    /\ tdcCode r = tdc_code d (arrival s).
Proof.
  revert g. induction signals as [| s rest IH]; intros g Hin; [destruct Hin |].
  rewrite digitize_all_cons, digitize_value in Hin.
  destruct (digitize_all d rest _) as [rest' g2] eqn:Hrest.
  assert (Htail : In r rest' -> exists s0 ped,
             In s0 (s :: rest) /\ raw_channelId r = sig_channel s0
             /\ adcCode r = adc_code d (amplitude s0) ped
             /\ tdcCode r = tdc_code d (arrival s0)).
  { intros Hr. specialize (IH (mk_rng (tape g) (S (pos g)))).
    rewrite Hrest in IH. destruct (IH Hr) as (s0 & ped & Hs0 & Hrest0).
    exists s0, ped. split; [right; exact Hs0 | exact Hrest0]. }
  destruct (Qltb (amplitude s) (threshold (m_cfg d))); cbn [fst] in Hin.
  - now apply Htail.
  - destruct Hin as [<- | Hr]; [| now apply Htail].
    eexists s, _. repeat split. now left.
Qed.

Lemma execute_rawhits (d : BTOFHitDigi) (simhits : list SimHit) :
  fst (fst (execute' d simhits)) =
  fst (digitize_all d
         (aggregate' d (fst (smear_hits Qsqrt d simhits (generator d))))
         (snd (smear_hits Qsqrt d simhits (generator d)))).
Proof.
  unfold execute, execute_rand, mbind, Rand_bind, mret, Rand_ret.
  destruct (smear_hits Qsqrt d simhits (generator d)) as [smeared g1].
  cbn [fst snd].
  destruct (digitize_all d _ g1) as [rawhits g2]. reflexivity.
Qed.


Lemma adc_code_range (d : BTOFHitDigi) (amp ped : Q) :
  (0 <= adc_bit d)%Z -> (0 <= adc_code d amp ped <= max_code (adc_bit d))%Z.
Proof. intros Hbits. now apply clip_code_range. Qed.

Lemma tdc_code_range (d : BTOFHitDigi) (t : Q) :
  (0 <= tdc_bit d)%Z -> (0 <= tdc_code d t <= max_code (tdc_bit d))%Z.
Proof. intros Hbits. now apply clip_code_range. Qed.

Lemma adc_scaled_full_range (d : BTOFHitDigi) (amp ped : Q) :
  (0 <= adc_bit d)%Z -> 0 < dyRangeADC d -> dyRangeADC d <= amp + ped ->
  inject_Z (max_code (adc_bit d)) <= adc_scaled d amp ped.
Proof.
  intros Hbits Hdy Hfull.
  assert (Hmax : 0 <= inject_Z (max_code (adc_bit d))).
  { change 0 with (inject_Z 0). rewrite <- Zle_Qle. now apply max_code_nonneg. }
  assert (Hone : 1 <= (amp + ped) / dyRangeADC d).
  { apply Qle_shift_div_l; [exact Hdy |]. now rewrite Qmult_1_l. }
  unfold adc_scaled. nra.
Qed.

(** The largest code is given exactly from the top of the dynamic range
    on. *)
Lemma adc_code_saturated_iff (d : BTOFHitDigi) (amp ped : Q) :
  (0 < adc_bit d)%Z -> 0 < dyRangeADC d ->
  adc_code d amp ped = max_code (adc_bit d) <-> dyRangeADC d <= amp + ped.
Proof.
  intros Hbits Hdy.
  assert (Hmax : (0 < max_code (adc_bit d))%Z).
  { unfold max_code. assert (2 ^ 1 <= 2 ^ adc_bit d)%Z by (apply Z.pow_le_mono_r; lia). lia. }
  assert (HmaxQ : 0 < inject_Z (max_code (adc_bit d))).
  { change 0 with (inject_Z 0). now rewrite <- Zlt_Qlt. }
  assert (Hq : (amp + ped) / dyRangeADC d * dyRangeADC d == amp + ped).
  { field. lra. }
  split.
  - intros Hcode. unfold adc_code, clip_code in Hcode.
    assert (Hfloor : (max_code (adc_bit d) <= Qfloor (adc_scaled d amp ped))%Z).
    { destruct (Z.ltb_spec (Qfloor (adc_scaled d amp ped)) 0); [lia |].
      destruct (Z.ltb_spec (max_code (adc_bit d)) (Qfloor (adc_scaled d amp ped))); lia. }
    pose proof (Qfloor_le (adc_scaled d amp ped)) as Hle.
    rewrite Zle_Qle in Hfloor. unfold adc_scaled in *.
    set (q := (amp + ped) / dyRangeADC d) in *. nra.
  - intros Hfull. unfold adc_code.
    apply clip_code_above; [lia |]. apply Qfloor_at_least.
    apply adc_scaled_full_range; [lia | exact Hdy | exact Hfull].
Qed.

Lemma adc_scaled_negative (d : BTOFHitDigi) (amp ped : Q) :
  (0 < adc_bit d)%Z -> 0 < dyRangeADC d -> amp + ped < 0 -> adc_scaled d amp ped < 0.
Proof.
  intros Hbits Hdy Hneg.
  assert (Hmax : (0 < max_code (adc_bit d))%Z).
  { unfold max_code. assert (2 ^ 1 <= 2 ^ adc_bit d)%Z by (apply Z.pow_le_mono_r; lia). lia. }
  assert (HmaxQ : 0 < inject_Z (max_code (adc_bit d))).
  { change 0 with (inject_Z 0). now rewrite <- Zlt_Qlt. }
  assert (Hq : (amp + ped) / dyRangeADC d * dyRangeADC d == amp + ped).
  { field. lra. }
  unfold adc_scaled. set (q := (amp + ped) / dyRangeADC d) in *. nra.
Qed.



(** *** Smearing and the random stream *)

Lemma smear_value (d : BTOFHitDigi) (e t : Q) (g : rng) :
  smear Qsqrt d e t g =
  (e + energy_sigma Qsqrt (m_cfg d) e * tape g (pos g),
   t + tRes d * tape g (S (pos g)),
   mk_rng (tape g) (S (S (pos g)))).
Proof. reflexivity. Qed.

(** The energies of repeated trials: trial [i] meets the deviate [2 i]
    after the current position of the stream. *)
Lemma smear_trials_values (d : BTOFHitDigi) (e t : Q) (n : nat) (g : rng) :
  fst (smear_trials Qsqrt d e t n g)
  = map (fun i => e + energy_sigma Qsqrt (m_cfg d) e * tape g (pos g + 2 * i)%nat)
      (seq 0 n)
  /\ snd (smear_trials Qsqrt d e t n g) = mk_rng (tape g) (pos g + 2 * n).
Proof.
  revert g. induction n as [| n IH]; intros g.
  - cbn. replace (pos g + 0)%nat with (pos g) by lia. now destruct g.
  - cbn [smear_trials]. unfold mbind, Rand_bind. rewrite smear_value.
    unfold mret, Rand_ret.
    destruct (IH (mk_rng (tape g) (S (S (pos g))))) as [Hvalues Hstream].
    destruct (smear_trials Qsqrt d e t n _) as [rest g']. cbn [fst snd tape pos] in *.
    subst rest g'. split.
    + cbn [seq map]. replace (pos g + 2 * 0)%nat with (pos g) by lia. f_equal.
      rewrite <- seq_shift, map_map. apply map_ext. intros i.
      replace (S (S (pos g)) + 2 * i)%nat with (pos g + 2 * S i)%nat by lia. reflexivity.
    + f_equal. lia.
Qed.

Lemma Qsum_affine (m k : Q) (zs : list Q) :
  Qsum (map (fun z => m + k * z) zs) == inject_Z (Z.of_nat (length zs)) * m + k * Qsum zs.
Proof.
  induction zs as [| z rest IH]; [cbn; ring |].
  cbn [map Qsum fold_right length]. fold (Qsum (map (fun z => m + k * z) rest)).
  fold (Qsum rest). rewrite IH, Nat2Z.inj_succ. unfold Z.succ.
  rewrite inject_Z_plus. change (inject_Z 1) with 1. ring.
Qed.

Lemma Qsum_square_deviation (m k : Q) (zs : list Q) :
  Qsum (map (fun x => (x - m) * (x - m)) (map (fun z => m + k * z) zs))
  == k * k * Qsum (map (fun z => z * z) zs).
Proof.
  induction zs as [| z rest IH]; [cbn; ring |].
  cbn [map Qsum fold_right].
  fold (Qsum (map (fun x => (x - m) * (x - m)) (map (fun z => m + k * z) rest))).
  fold (Qsum (map (fun z => z * z) rest)). rewrite IH. ring.
Qed.

(** C3: for a true energy [e > 0] the smeared energy is the next deviate of
    the standard-normal sampler [m_normDist], scaled by the absolute
    standard deviation [(a/sqrt(e) + b + c/e) * e] and shifted to the mean
    [e]: where that standard deviation is not zero the standardised smeared
    energy is the deviate itself, and a zero deviate gives [e].  The
    standard deviation is the relative resolution times [e], and with
    [c = 0] it is [(a/sqrt(e) + b) * e].  Over repeated trials the smeared
    energies therefore have the mean [e] and the mean squared deviation
    from [e] of [sigma^2] whenever the deviates drawn have mean 0 and mean
    square 1. *)
Theorem smear_energy_sigma (d : BTOFHitDigi) (e t : Q) (g : rng) (n : nat) :
  0 < e ->
  let cfg := m_cfg d in
  let sigma_e := (a cfg / Qsqrt e + b cfg + c cfg / e) * e in
  let deviate := tape g (pos g) in
  let smeared := fst (fst (smear Qsqrt d e t g)) in
  let trials := fst (smear_trials Qsqrt d e t n g) in
  let deviates := map (fun i => tape g (pos g + 2 * i)%nat) (seq 0 n) in
  smeared = e + sigma_e * deviate
  /\ (deviate == 0 -> smeared == e)
  /\ (~ sigma_e == 0 -> (smeared - e) / sigma_e == deviate)
  /\ sigma_e = relative_resolution Qsqrt cfg e * e
  /\ (c cfg == 0 ->
      relative_resolution Qsqrt cfg e == relative_resolution_simple Qsqrt cfg e
      /\ sigma_e == (a cfg / Qsqrt e + b cfg) * e)
  /\ length trials = n
  /\ Qsum trials == inject_Z (Z.of_nat n) * e + sigma_e * Qsum deviates
  /\ Qsum (map (fun x => (x - e) * (x - e)) trials)
     == sigma_e * sigma_e * Qsum (map (fun z => z * z) deviates)
  /\ (Qsum deviates == 0 ->
      Qsum (map (fun z => z * z) deviates) == inject_Z (Z.of_nat n) ->
      Qsum trials == inject_Z (Z.of_nat n) * e
      /\ Qsum (map (fun x => (x - e) * (x - e)) trials)
         == inject_Z (Z.of_nat n) * (sigma_e * sigma_e)).
Proof.
  intros He cfg sigma_e deviate smeared trials deviates.
  assert (Hsmeared : smeared = e + sigma_e * deviate).
  { unfold smeared. rewrite smear_value. reflexivity. }
  assert (Htrials : trials = map (fun z => e + sigma_e * z) deviates).
  { unfold trials, deviates. rewrite (proj1 (smear_trials_values d e t n g)), map_map.
    reflexivity. }
  assert (Hlen : length deviates = n).
  { unfold deviates. now rewrite length_map, length_seq. }
  assert (Hsum : Qsum trials == inject_Z (Z.of_nat n) * e + sigma_e * Qsum deviates).
  { rewrite Htrials, Qsum_affine, Hlen. reflexivity. }
  assert (Hsquares : Qsum (map (fun x => (x - e) * (x - e)) trials)
                     == sigma_e * sigma_e * Qsum (map (fun z => z * z) deviates)).
  { rewrite Htrials. apply Qsum_square_deviation. }
  split; [exact Hsmeared |]. split; [| split; [| split; [reflexivity | split]]].
  - intros Hzero. rewrite Hsmeared, Hzero. ring.
  - intros Hsigma. rewrite Hsmeared. field. exact Hsigma.
  - intros Hc.
    assert (Hrel : relative_resolution Qsqrt cfg e == relative_resolution_simple Qsqrt cfg e).
    { unfold relative_resolution, relative_resolution_simple.
      rewrite Hc. unfold Qdiv at 2. rewrite Qmult_0_l. ring. }
    split; [exact Hrel |].
    change sigma_e with (relative_resolution Qsqrt cfg e * e). rewrite Hrel. reflexivity.
  - split; [| split; [exact Hsum | split; [exact Hsquares |]]].
    + rewrite Htrials, length_map. exact Hlen.
    + intros Hmean Hsquare. split.
      * rewrite Hsum, Hmean. ring.
      * rewrite Hsquares, Hsquare. ring.
Qed.

Lemma smear_hits_stream (d : BTOFHitDigi) (hits : list SimHit) (g : rng) :
  tape (snd (smear_hits Qsqrt d hits g)) = tape g
  /\ pos (snd (smear_hits Qsqrt d hits g)) = (pos g + 2 * length hits)%nat.
Proof.
  revert g. induction hits as [| h rest IH]; intros g.
  - cbn. split; [reflexivity | lia].
  - cbn [smear_hits]. unfold mbind, Rand_bind, smear_hit.
    unfold mbind, Rand_bind. rewrite smear_value. unfold mret, Rand_ret.
    specialize (IH (mk_rng (tape g) (S (S (pos g))))).
    destruct (smear_hits Qsqrt d rest _) as [rest' g'].
    cbn [fst snd tape pos length] in *. destruct IH as [-> ->]. split; [reflexivity | lia].
Qed.

Lemma smear_hits_cons (d : BTOFHitDigi) (h : SimHit) (rest : list SimHit) (g : rng) :
  smear_hits Qsqrt d (h :: rest) g =
  (fst (smear_hit Qsqrt d h g)
     :: fst (smear_hits Qsqrt d rest (mk_rng (tape g) (S (S (pos g))))),
   snd (smear_hits Qsqrt d rest (mk_rng (tape g) (S (S (pos g)))))).
Proof.
  cbn [smear_hits]. unfold mbind, Rand_bind, smear_hit.
  unfold mbind, Rand_bind. rewrite smear_value. unfold mret, Rand_ret.
  destruct (smear_hits Qsqrt d rest _) as [rest' g']. reflexivity.
Qed.

(** The hit at position [i] of an event is smeared with the deviates
    [2 i] and [2 i + 1] after the current position of the stream. *)
Lemma smear_hits_lookup (d : BTOFHitDigi) (hits : list SimHit) (g : rng)
    (i : nat) (h : SimHit) :
  hits !! i = Some h ->
  fst (smear_hits Qsqrt d hits g) !! i =
  Some {| sm_channelId := channelId h;
          smearedEnergy :=
            energy h + energy_sigma Qsqrt (m_cfg d) (energy h)
                       * tape g (pos g + 2 * i)%nat;
          smearedTime := time h + tRes d * tape g (pos g + 2 * i + 1)%nat |}.
Proof.
  revert g i. induction hits as [| h0 rest IH]; intros g i Hi; [discriminate |].
  rewrite smear_hits_cons. cbn [fst]. destruct i as [| j].
  - injection Hi as ->. cbn.
    replace (pos g + 0)%nat with (pos g) by lia.
    replace (pos g + 1)%nat with (S (pos g)) by lia. reflexivity.
  - pose proof (IH (mk_rng (tape g) (S (S (pos g)))) j Hi) as Hj.
    cbn [tape pos] in Hj.
    replace (pos g + 2 * S j)%nat with (S (S (pos g)) + 2 * j)%nat by lia.
    exact Hj.
Qed.

(** Nothing in [execute] reads the generator except through the stream. *)
Lemma smear_hits_with_generator (g0 : rng) (d : BTOFHitDigi) (hits : list SimHit) (g : rng) :
  smear_hits Qsqrt (with_generator g0 d) hits g = smear_hits Qsqrt d hits g.
Proof.
  revert g. induction hits as [| h rest IH]; intros g; [reflexivity |].
  rewrite !smear_hits_cons. rewrite !IH. reflexivity.
Qed.

Lemma digitize_all_with_generator (g0 : rng) (d : BTOFHitDigi)
    (signals : list AnalogSignal) (g : rng) :
  digitize_all (with_generator g0 d) signals g = digitize_all d signals g.
Proof.
  revert g. induction signals as [| s rest IH]; intros g; [reflexivity |].
  rewrite !digitize_all_cons, !digitize_value. rewrite IH. reflexivity.
Qed.

Lemma execute_with_generator (g0 : rng) (d : BTOFHitDigi) (simhits : list SimHit) :
  execute' (with_generator g0 d) simhits
  = (let (out, g) := execute_rand' d simhits g0 in (out, with_generator g d)).
Proof.
  unfold execute, execute_rand, mbind, Rand_bind, mret, Rand_ret.
  cbn [generator with_generator]. rewrite smear_hits_with_generator.
  destruct (smear_hits Qsqrt d simhits g0) as [smeared g1].
  change (aggregate' (with_generator g0 d) smeared) with (aggregate' d smeared).
  rewrite digitize_all_with_generator.
  destruct (digitize_all d (aggregate' d smeared) g1) as [rawhits g2].
  reflexivity.
Qed.

(** The stream after the smearing of an event and after the digitisation
    of its signals. *)
Lemma smear_hits_generator (d : BTOFHitDigi) (hits : list SimHit) (g : rng) :
  snd (smear_hits Qsqrt d hits g) = mk_rng (tape g) (pos g + 2 * length hits).
Proof.
  destruct (smear_hits_stream d hits g) as [Htape Hpos].
  destruct (snd (smear_hits Qsqrt d hits g)) as [tp ps]. cbn in *. now subst.
Qed.

Lemma digitize_all_generator (d : BTOFHitDigi) (signals : list AnalogSignal) (g : rng) :
  snd (digitize_all d signals g) = mk_rng (tape g) (pos g + length signals).
Proof.
  revert g. induction signals as [| s rest IH]; intros g.
  - cbn. replace (pos g + 0)%nat with (pos g) by lia. now destruct g.
  - rewrite digitize_all_cons, digitize_value.
    specialize (IH (mk_rng (tape g) (S (pos g)))).
    destruct (digitize_all d rest _) as [rest' g2]. cbn [fst snd tape pos length] in *.
    rewrite IH. f_equal. lia.
Qed.

(** Smearing reads the stream only at the two deviates of each hit, and
    digitisation only at the one deviate of each signal. *)
Lemma smear_hits_local (d : BTOFHitDigi) (hits : list SimHit) (g1 g2 : rng) :
  (forall i, (i < 2 * length hits)%nat -> tape g1 (pos g1 + i)%nat = tape g2 (pos g2 + i)%nat) ->
  fst (smear_hits Qsqrt d hits g1) = fst (smear_hits Qsqrt d hits g2).
Proof.
  revert g1 g2. induction hits as [| h rest IH]; intros g1 g2 Hsame; [reflexivity |].
  rewrite !smear_hits_cons. cbn [fst length] in *. f_equal.
  - unfold smear_hit, mbind, Rand_bind. rewrite !smear_value. cbn [fst snd mret Rand_ret].
    pose proof (Hsame 0%nat ltac:(lia)) as H0. pose proof (Hsame 1%nat ltac:(lia)) as H1.
    replace (pos g1 + 0)%nat with (pos g1) in H0 by lia.
    replace (pos g2 + 0)%nat with (pos g2) in H0 by lia.
    replace (pos g1 + 1)%nat with (S (pos g1)) in H1 by lia.
    replace (pos g2 + 1)%nat with (S (pos g2)) in H1 by lia.
    now rewrite H0, H1.
  - apply IH. intros i Hi. cbn [tape pos].
    replace (S (S (pos g1)) + i)%nat with (pos g1 + (2 + i))%nat by lia.
    replace (S (S (pos g2)) + i)%nat with (pos g2 + (2 + i))%nat by lia.
    apply Hsame. lia.
Qed.

Lemma digitize_all_local (d : BTOFHitDigi) (signals : list AnalogSignal) (g1 g2 : rng) :
  (forall j, (j < length signals)%nat -> tape g1 (pos g1 + j)%nat = tape g2 (pos g2 + j)%nat) ->
  fst (digitize_all d signals g1) = fst (digitize_all d signals g2).
Proof.
  revert g1 g2. induction signals as [| s rest IH]; intros g1 g2 Hsame; [reflexivity |].
  rewrite !digitize_all_cons, !digitize_value. cbn [length] in Hsame.
  pose proof (Hsame 0%nat ltac:(lia)) as H0.
  replace (pos g1 + 0)%nat with (pos g1) in H0 by lia.
  replace (pos g2 + 0)%nat with (pos g2) in H0 by lia.
  assert (Hrest : fst (digitize_all d rest (mk_rng (tape g1) (S (pos g1))))
                  = fst (digitize_all d rest (mk_rng (tape g2) (S (pos g2))))).
  { apply IH. intros j Hj. cbn [tape pos].
    replace (S (pos g1) + j)%nat with (pos g1 + S j)%nat by lia.
    replace (S (pos g2) + j)%nat with (pos g2 + S j)%nat by lia.
    apply Hsame. lia. }
  destruct (digitize_all d rest (mk_rng (tape g1) (S (pos g1)))) as [r1 g1'].
  destruct (digitize_all d rest (mk_rng (tape g2) (S (pos g2)))) as [r2 g2'].
  cbn [fst] in *. subst r2. rewrite H0. reflexivity.
Qed.

(** One [execute] on the stream [g]: its result and the stream it leaves. *)
Lemma execute_rand_value (d : BTOFHitDigi) (simhits : list SimHit) (g : rng) :
  let smeared := fst (smear_hits Qsqrt d simhits g) in
  let signals := aggregate' d smeared in
  execute_rand' d simhits g
  = (fst (digitize_all d signals (mk_rng (tape g) (pos g + 2 * length simhits))),
     count_diagnostics detector d smeared,
     mk_rng (tape g) (pos g + 2 * length simhits + length signals)).
Proof.
  cbv zeta. unfold execute_rand, mbind, Rand_bind, mret, Rand_ret.
  pose proof (smear_hits_generator d simhits g) as Hg1.
  destruct (smear_hits Qsqrt d simhits g) as [smeared g1]. cbn [fst snd] in *. subst g1.
  pose proof (digitize_all_generator d (aggregate' d smeared)
                (mk_rng (tape g) (pos g + 2 * length simhits))) as Hg2.
  destruct (digitize_all d (aggregate' d smeared) _) as [rawhits g2].
  cbn [fst snd tape pos] in *. now subst g2.
Qed.


(** *** The neighbour ring *)

Lemma ring_succ (n ch : Z) :
  (0 <= ch < n)%Z ->
  ((ch + 1) `mod` n = if ch + 1 =? n then 0 else ch + 1)%Z.
Proof.
  intros Hch. destruct (Z.eqb_spec (ch + 1) n) as [Heq | Hne].
  - rewrite Heq. apply Z_mod_same_full.
  - apply Z.mod_small. lia.
Qed.

Lemma ring_pred (n ch : Z) :
  (0 <= ch < n)%Z ->
  ((ch - 1) `mod` n = if ch =? 0 then n - 1 else ch - 1)%Z.
Proof.
  intros Hch. destruct (Z.eqb_spec ch 0) as [Heq | Hne].
  - subst ch. replace (0 - 1)%Z with (n - 1 + (-1) * n)%Z by lia.
    rewrite Z_mod_plus_full. apply Z.mod_small. lia.
  - apply Z.mod_small. lia.
Qed.

Lemma elem_of_neighbors (f : BarrelTOFNeighborFinder) (ch other : Z) :
  other ∈ neighbors f ch <->
  (0 <= ch < channel_count f)%Z
  /\ (other = (if ch =? 0 then channel_count f - 1 else ch - 1)%Z
      \/ other = (if ch + 1 =? channel_count f then 0 else ch + 1)%Z).
Proof.
  unfold neighbors, valid_channel.
  destruct (Z.leb_spec 0 ch) as [Hlo | Hlo]; cbn [andb];
    [destruct (Z.ltb_spec ch (channel_count f)) as [Hhi | Hhi] |].
  - rewrite elem_of_union, !elem_of_singleton.
    rewrite ring_pred, ring_succ by lia.
    split; [intros Hmem; split; [lia | exact Hmem] | intros [_ Hmem]; exact Hmem].
  - rewrite elem_of_empty. split; [intros [] | intros [Hrange _]; lia].
  - rewrite elem_of_empty. split; [intros [] | intros [Hrange _]; lia].
Qed.

(** C5: adjacency is symmetric, and the channels form a ring: the first
    and the last channel are neighbours of each other, in particular
    channels 0 and 63 of the finder the constructor builds. *)
Theorem neighbors_symmetric_ring (f : BarrelTOFNeighborFinder) (A B : Z) :
  (B ∈ neighbors f A <-> A ∈ neighbors f B)
  /\ ((0 < channel_count f)%Z ->
      (channel_count f - 1)%Z ∈ neighbors f 0
      /\ 0%Z ∈ neighbors f (channel_count f - 1))
  /\ (63%Z ∈ neighbors (_neighborFinder ctor) 0
      /\ 0%Z ∈ neighbors (_neighborFinder ctor) 63).
Proof.
  split; [| split].
  - rewrite !elem_of_neighbors.
    destruct (Z.eqb_spec A 0), (Z.eqb_spec B 0),
      (Z.eqb_spec (A + 1) (channel_count f)),
      (Z.eqb_spec (B + 1) (channel_count f)); lia.
  - intros Hn. rewrite !elem_of_neighbors.
    destruct (Z.eqb_spec (channel_count f - 1) 0),
      (Z.eqb_spec (channel_count f - 1 + 1) (channel_count f)),
      (Z.eqb_spec (0 + 1) (channel_count f)); cbn; lia.
  - rewrite !elem_of_neighbors.
    change (channel_count (_neighborFinder ctor)) with 64%Z.
    change (0 =? 0)%Z with true. change (63 =? 0)%Z with false.
    change (0 + 1 =? 64)%Z with false. change (63 + 1 =? 64)%Z with true.
    cbv iota. lia.
Qed.

(** *** Initialisation *)

(** Conversely a configuration that passes the check is accepted. *)
Lemma valid_configuration_accepted (d0 : BTOFHitDigi) :
  valid_configuration d0 = true -> exists d, init' d0 = inr d.
Proof. intros Hvalid. unfold init. rewrite Hvalid. eauto. Qed.

End engine_properties.

(** ** Merging of hits in one channel *)

Lemma not_self_neighbor (f : BarrelTOFNeighborFinder) (k : Z) :
  channel_count f <> 1%Z -> k ∉ neighbors f k.
Proof.
  intros Hn. rewrite elem_of_neighbors.
  destruct (Z.eqb_spec k 0), (Z.eqb_spec (k + 1) (channel_count f)); lia.
Qed.

Lemma adc_scaled_comp (d : BTOFHitDigi) (amp amp' ped : Q) :
  amp == amp' -> adc_scaled d amp ped == adc_scaled d amp' ped.
Proof. intros Heq. unfold adc_scaled. now rewrite Heq. Qed.

Lemma adc_code_comp (d : BTOFHitDigi) (amp amp' ped : Q) :
  amp == amp' -> adc_code d amp ped = adc_code d amp' ped.
Proof.
  intros Heq. unfold adc_code. f_equal. apply Qfloor_comp. now apply adc_scaled_comp.
Qed.

Lemma adc_scaled_monotone (d : BTOFHitDigi) (amp amp' ped : Q) :
  (0 <= adc_bit d)%Z -> 0 < dyRangeADC d -> amp <= amp' ->
  adc_scaled d amp ped <= adc_scaled d amp' ped.
Proof.
  intros Hbits Hdy Hle. unfold adc_scaled.
  assert (Hmax : 0 <= inject_Z (max_code (adc_bit d))).
  { change 0 with (inject_Z 0). rewrite <- Zle_Qle. now apply max_code_nonneg. }
  apply Qmult_le_compat_r; [| exact Hmax].
  unfold Qdiv. apply Qmult_le_compat_r; [lra |].
  apply Qinv_le_0_compat. lra.
Qed.

Lemma adc_code_monotone (d : BTOFHitDigi) (amp amp' ped : Q) :
  (0 <= adc_bit d)%Z -> 0 < dyRangeADC d -> amp <= amp' ->
  (adc_code d amp ped <= adc_code d amp' ped)%Z.
Proof.
  intros Hbits Hdy Hle. unfold adc_code.
  apply clip_code_monotone; [exact Hbits |].
  apply Qfloor_resp_le. now apply adc_scaled_monotone.
Qed.

(** One more ADC step on a value that is not clipped gives a larger code. *)
Lemma adc_code_strict (d : BTOFHitDigi) (x y ped : Q) :
  (0 <= adc_bit d)%Z -> 0 < dyRangeADC d ->
  0 <= adc_scaled d x ped ->
  1 <= y / dyRangeADC d * inject_Z (max_code (adc_bit d)) ->
  (adc_code d (x + y) ped < max_code (adc_bit d))%Z ->
  (adc_code d x ped < adc_code d (x + y) ped)%Z.
Proof.
  intros Hbits Hdy Hlow Hstep Hsat.
  assert (Hsum : adc_scaled d (x + y) ped
                 == adc_scaled d x ped
                    + y / dyRangeADC d * inject_Z (max_code (adc_bit d))).
  { unfold adc_scaled. field. lra. }
  assert (Hfx : (0 <= Qfloor (adc_scaled d x ped))%Z).
  { apply (Qfloor_at_least _ 0). exact Hlow. }
  assert (Hfs : (Qfloor (adc_scaled d x ped) + 1 <= Qfloor (adc_scaled d (x + y) ped))%Z).
  { apply Qfloor_at_least. rewrite inject_Z_plus, Hsum.
    pose proof (Qfloor_le (adc_scaled d x ped)) as Hfl.
    change (inject_Z 1) with 1. lra. }
  unfold adc_code, clip_code in *.
  destruct (Z.ltb_spec (Qfloor (adc_scaled d (x + y) ped)) 0); [lia |].
  destruct (Z.ltb_spec (max_code (adc_bit d)) (Qfloor (adc_scaled d (x + y) ped)));
    [lia |].
  destruct (Z.ltb_spec (Qfloor (adc_scaled d x ped)) 0); [lia |].
  destruct (Z.ltb_spec (max_code (adc_bit d)) (Qfloor (adc_scaled d x ped))); lia.
Qed.

(** Between two amplitudes with the same code there is no strict growth,
    whatever the quantiser: a function into the codes [0..M] that does not
    saturate at some positive amplitude has two positive contributions
    whose sum gets no larger a code than the first of them. *)
Lemma quantiser_plateau (q : Q -> Z) (M : Z) (A : Q) :
  (forall x y : Q, x == y -> q x = q y) ->
  (forall x, (0 <= q x <= M)%Z) ->
  0 < A -> (q A < M)%Z ->
  exists x y, 0 < x /\ 0 < y /\ (q (x + y)%Q < M)%Z /\ (q (x + y)%Q <= q x)%Z.
Proof.
  intros Hcomp Hrange HA Hsat.
  set (N := (Z.to_nat M + 1)%nat).
  set (delta := A / inject_Z (Z.of_nat (N + 1)%nat)).
  assert (HN : 0 < inject_Z (Z.of_nat (N + 1)%nat)).
  { change 0 with (inject_Z 0). rewrite <- Zlt_Qlt. lia. }
  assert (Hdelta : 0 < delta).
  { unfold delta. apply Qlt_shift_div_l; [exact HN | lra]. }
  assert (Htotal : inject_Z (Z.of_nat (N + 1)%nat) * delta == A).
  { unfold delta. field. lra. }
  assert (Hchain : forall k : nat, (k <= N)%nat ->
            (exists x y, 0 < x /\ 0 < y /\ (q (x + y)%Q < M)%Z /\ (q (x + y)%Q <= q x)%Z)
            \/ (q (A - inject_Z (Z.of_nat k) * delta)%Q <= q A - Z.of_nat k)%Z).
  { induction k as [| k IH]; intros Hk.
    - right. rewrite (Hcomp (A - inject_Z (Z.of_nat 0) * delta) A); [lia |].
      change (inject_Z (Z.of_nat 0)) with 0. ring.
    - destruct IH as [Hplateau | Hdown]; [lia | now left |].
      set (x := A - inject_Z (Z.of_nat (S k)) * delta).
      assert (Hx : 0 < x).
      { unfold x. rewrite <- Htotal.
        assert (Hlt : inject_Z (Z.of_nat (S k)) < inject_Z (Z.of_nat (N + 1)%nat)).
        { rewrite <- Zlt_Qlt. lia. }
        nra. }
      assert (Hsum : x + delta == A - inject_Z (Z.of_nat k) * delta).
      { unfold x. rewrite Nat2Z.inj_succ. unfold Z.succ. rewrite inject_Z_plus. ring. }
      rewrite <- (Hcomp _ _ Hsum) in Hdown.
      destruct (Z_le_gt_dec (q (x + delta)) (q x)) as [Hle | Hgt].
      + left. exists x, delta. repeat split; [exact Hx | exact Hdelta | lia | exact Hle].
      + right. fold x. lia. }
  destruct (Hchain N (le_n N)) as [Hplateau | Hdown]; [exact Hplateau |].
  pose proof (Hrange (A - inject_Z (Z.of_nat N) * delta)) as Hlow.
  unfold N in Hdown, Hlow. lia.
Qed.

(** *** The partition into channels *)

Section partition.

Variable key : SmearedHit -> Z.

Local Abbreviation members_of hs k := (List.filter (fun h => (key h =? k)%Z) hs).
Local Abbreviation group_of hs := (fun k : Z => (k, members_of hs k)).
Local Abbreviation add := (fun groups h => add_to_channel (key h) h groups).

Lemma members_of_snoc (hs : list SmearedHit) (h : SmearedHit) (k : Z) :
  members_of (hs ++ [h]) k
  = members_of hs k ++ (if (key h =? k)%Z then [h] else []).
Proof. rewrite List.filter_app. cbn [List.filter]. now destruct (key h =? k)%Z. Qed.

Lemma members_of_none (hs : list SmearedHit) (k : Z) :
  (forall h, In h hs -> key h <> k) -> members_of hs k = [].
Proof.
  induction hs as [| h rest IH]; intros Hnone; [reflexivity |].
  cbn [List.filter]. destruct (Z.eqb_spec (key h) k) as [Heq | _].
  - destruct (Hnone h (or_introl eq_refl) Heq).
  - apply IH. intros h' Hh'. apply Hnone. now right.
Qed.

(** A hit whose key has a group already joins that group, behind its
    members, and leaves the other groups alone. *)
Lemma add_to_channel_known (hs : list SmearedHit) (h : SmearedHit) (keys : list Z) :
  List.NoDup keys -> In (key h) keys ->
  add (map (group_of hs) keys) h = map (group_of (hs ++ [h])) keys.
Proof.
  induction keys as [| k rest IH]; intros Hnodup Hin; [destruct Hin |].
  apply List.NoDup_cons_iff in Hnodup as [Hfresh Hrest].
  cbn [map add_to_channel]. destruct (Z.eqb_spec (key h) k) as [Heq | Hne].
  - subst k. rewrite members_of_snoc, Z.eqb_refl. f_equal.
    apply map_ext_in. intros k' Hk'. rewrite members_of_snoc.
    destruct (Z.eqb_spec (key h) k') as [Heq | _]; [now subst k' | now rewrite app_nil_r].
  - destruct Hin as [Heq | Hin]; [congruence |].
    rewrite members_of_snoc. destruct (Z.eqb_spec (key h) k) as [Heq | _]; [congruence |].
    rewrite app_nil_r. f_equal. now apply IH.
Qed.

(** A hit with a new key opens a group of its own behind the others. *)
Lemma add_to_channel_new (hs : list SmearedHit) (h : SmearedHit) (keys : list Z) :
  ~ In (key h) keys ->
  add (map (group_of hs) keys) h = map (group_of hs) keys ++ [(key h, [h])].
Proof.
  induction keys as [| k rest IH]; intros Hfresh; [reflexivity |].
  cbn [map add_to_channel app]. destruct (Z.eqb_spec (key h) k) as [Heq | Hne].
  - destruct Hfresh. now left.
  - f_equal. apply IH. intros Hin. apply Hfresh. now right.
Qed.

Lemma fold_add_to_channel (hs pre : list SmearedHit) (keys : list Z) :
  List.NoDup keys ->
  (forall k, In k keys <-> exists h, In h pre /\ key h = k) ->
  exists keys',
    List.NoDup keys'
    /\ (forall k, In k keys' <-> exists h, In h (pre ++ hs) /\ key h = k)
    /\ fold_left add hs (map (group_of pre) keys) = map (group_of (pre ++ hs)) keys'.
Proof.
  revert pre keys. induction hs as [| h rest IH]; intros pre keys Hnodup Hcover.
  - exists keys. rewrite app_nil_r. repeat split; try assumption; apply Hcover.
  - cbn [fold_left].
    replace (pre ++ h :: rest) with ((pre ++ [h]) ++ rest) by now rewrite <- app_assoc.
    destruct (in_dec Z.eq_dec (key h) keys) as [Hknown | Hnew].
    + rewrite (add_to_channel_known pre h keys Hnodup Hknown).
      apply IH; [exact Hnodup |]. intros k. rewrite Hcover. split.
      * intros (h' & Hh' & Hk). exists h'. split; [| exact Hk].
        apply List.in_app_iff. now left.
      * intros (h' & Hh' & Hk). apply List.in_app_iff in Hh' as [Hh' | [<- | []]].
        -- exists h'. now split.
        -- apply Hcover. now rewrite Hk in Hknown.
    + rewrite (add_to_channel_new pre h keys Hnew).
      assert (Hgroups : map (group_of pre) keys ++ [(key h, [h])]
                        = map (group_of (pre ++ [h])) (keys ++ [key h])).
      { rewrite map_app. cbn [map]. f_equal.
        - apply map_ext_in. intros k Hk. rewrite members_of_snoc.
          destruct (Z.eqb_spec (key h) k) as [Heq | _]; [now subst k |].
          now rewrite app_nil_r.
        - rewrite members_of_snoc, Z.eqb_refl, members_of_none; [reflexivity |].
          intros h' Hh' Hk. apply Hnew. apply Hcover. now exists h'. }
      rewrite Hgroups. apply IH.
      * apply List.NoDup_app; try assumption.
        -- constructor; [intros [] | constructor].
        -- intros k Hk [<- | []]. contradiction.
      * intros k. rewrite List.in_app_iff, Hcover. split.
        -- intros [(h' & Hh' & Hk) | [<- | []]].
           ++ exists h'. split; [apply List.in_app_iff; now left | exact Hk].
           ++ exists h. split; [apply List.in_app_iff; right; now left | reflexivity].
        -- intros (h' & Hh' & Hk). apply List.in_app_iff in Hh' as [Hh' | [<- | []]].
           ++ left. now exists h'.
           ++ right. now left.
Qed.

End partition.

(** The hits of an event fall into one group per sum-field value that
    occurs, and a group holds all hits of its value, in input order. *)
Lemma partition_hits_groups (d : BTOFHitDigi) (hs : list SmearedHit) :
  exists keys,
    List.NoDup keys
    /\ (forall k, In k keys <-> exists h, In h hs /\ channel_key d (sm_channelId h) = k)
    /\ partition_hits d hs
       = map (fun k => (k, List.filter
                             (fun h => (channel_key d (sm_channelId h) =? k)%Z) hs))
           keys.
Proof.
  destruct (fold_add_to_channel (fun h => channel_key d (sm_channelId h)) hs [] [])
    as (keys & Hnodup & Hcover & Hfold).
  - constructor.
  - intros k. split; [intros [] | intros (h & [] & _)].
  - exists keys. split; [exact Hnodup | split; [exact Hcover | exact Hfold]].
Qed.

(** The records of an event come from the signals that reach the
    threshold, one each and in their order. *)
Lemma digitize_all_channels (d : BTOFHitDigi) (signals : list AnalogSignal) (g : rng) :
  map raw_channelId (fst (digitize_all d signals g))
  = map sig_channel
      (List.filter (fun s => negb (Qltb (amplitude s) (threshold (m_cfg d)))) signals).
Proof.
  revert g. induction signals as [| s rest IH]; intros g; [reflexivity |].
  rewrite digitize_all_cons, digitize_value.
  specialize (IH (mk_rng (tape g) (S (pos g)))).
  destruct (digitize_all d rest _) as [rest' g2]. cbn [fst List.filter] in *.
  destruct (Qltb (amplitude s) (threshold (m_cfg d))); cbn [negb map raw_channelId];
    now rewrite IH.
Qed.

Lemma NoDup_map_filter {A B : Type} (f : A -> B) (P : A -> bool) (l : list A) :
  List.NoDup (map f l) -> List.NoDup (map f (List.filter P l)).
Proof.
  induction l as [| x rest IH]; intros Hnodup; [constructor |].
  cbn [map] in Hnodup. apply List.NoDup_cons_iff in Hnodup as [Hfresh Hrest].
  cbn [List.filter]. destruct (P x); [| now apply IH].
  cbn [map]. constructor; [| now apply IH].
  intros Hin. apply Hfresh. apply List.in_map_iff in Hin as (y & Hy & Hin).
  apply List.filter_In in Hin as [Hin _]. apply List.in_map_iff. now exists y.
Qed.

Lemma NoDup_map_unique {A B : Type} (f : A -> B) (l : list A) (x y : A) :
  List.NoDup (map f l) -> In x l -> In y l -> f x = f y -> x = y.
Proof.
  induction l as [| z rest IH]; intros Hnodup Hx Hy Hf; [destruct Hx |].
  cbn [map] in Hnodup. apply List.NoDup_cons_iff in Hnodup as [Hfresh Hrest].
  destruct Hx as [-> | Hx], Hy as [-> | Hy].
  - reflexivity.
  - destruct Hfresh. rewrite Hf. now apply List.in_map.
  - destruct Hfresh. rewrite <- Hf. now apply List.in_map.
  - now apply IH.
Qed.

Lemma Permutation_list_filter {A : Type} (P : A -> bool) (l l' : list A) :
  l ≡ₚ l' -> List.filter P l ≡ₚ List.filter P l'.
Proof.
  induction 1 as [| x l l' _ IH | x y l | l l' l'' _ IH1 _ IH2].
  - reflexivity.
  - cbn [List.filter]. destruct (P x); [now constructor | exact IH].
  - cbn [List.filter]. destruct (P x), (P y); try reflexivity. apply perm_swap.
  - now transitivity (List.filter P l').
Qed.

Lemma Qsum_Permutation (l l' : list Q) : l ≡ₚ l' -> Qsum l == Qsum l'.
Proof.
  induction 1 as [| x l l' _ IH | x y l | l l' l'' _ IH1 _ IH2].
  - reflexivity.
  - cbn [Qsum fold_right]. fold (Qsum l) (Qsum l'). now rewrite IH.
  - cbn [Qsum fold_right]. fold (Qsum l). ring.
  - now rewrite IH1.
Qed.

(** Two different positions of a list hold two of its elements. *)
Lemma two_positions {A : Type} (l : list A) (i j : nat) (x y : A) :
  i <> j -> l !! i = Some x -> l !! j = Some y ->
  exists others, l ≡ₚ x :: y :: others.
Proof.
  intros Hij Hi Hj.
  pose proof (delete_Permutation l i x Hi) as Hfirst.
  destruct (Nat.lt_ge_cases j i) as [Hlt | Hge].
  - exists (delete j (delete i l)). rewrite Hfirst at 1. constructor.
    apply delete_Permutation. now rewrite list_lookup_delete_lt.
  - exists (delete (j - 1)%nat (delete i l)). rewrite Hfirst at 1. constructor.
    apply delete_Permutation. rewrite list_lookup_delete_ge by lia.
    replace (S (j - 1)%nat) with j by lia. exact Hj.
Qed.

Section merging_properties.

Variable TMath_Landau : Q -> Q -> Q -> bool -> Q.
Variable default_cfg : BTOFHitDigiConfig.
Variable default_tape : nat -> Q.
Variable Qsqrt : Q -> Q.
Variable pulse_contribution : SmearedHit -> Q.
Variable effective_time : list SmearedHit -> Q.
Variable sharing_fraction : Q.
Variable detector : GeometryHandle.
Variable stream_of_seed : Z -> nat -> Q.

Local Abbreviation ctor := (BTOFHitDigi_ctor TMath_Landau default_cfg default_tape).
Local Abbreviation init' := (init detector).
Local Abbreviation seeded := (seed_engine stream_of_seed).
Local Abbreviation aggregate' :=
  (aggregate pulse_contribution effective_time sharing_fraction detector).
Local Abbreviation shared' := (shared_amplitude pulse_contribution sharing_fraction).
Local Abbreviation execute' :=
  (execute Qsqrt pulse_contribution effective_time sharing_fraction detector).

Lemma smear_hits_pair (d : BTOFHitDigi) (h1 h2 : SimHit) (g : rng) :
  smear_hits Qsqrt d [h1; h2] g =
  ([fst (smear_hit Qsqrt d h1 g);
    fst (smear_hit Qsqrt d h2 (snd (smear_hit Qsqrt d h1 g)))],
   mk_rng (tape g) (pos g + 4)).
Proof.
  replace (pos g + 4)%nat with (S (S (S (S (pos g))))) by lia. reflexivity.
Qed.

(** Hits of the channel itself are not hits of a neighbour. *)
Lemma shared_amplitude_own_channel (d : BTOFHitDigi) (k : Z) (kept : list SmearedHit) :
  channel_count (_neighborFinder d) <> 1%Z ->
  Forall (fun h => channel_key d (sm_channelId h) = k) kept ->
  shared' d k kept == 0.
Proof.
  intros Hn Hown. unfold shared_amplitude.
  destruct (crossTalkEnabled (m_cfg d)); [| reflexivity].
  assert (Hnone : List.filter
            (fun h => bool_decide
                        (channel_key d (sm_channelId h) ∈ neighbors (_neighborFinder d) k))
            kept = []).
  { induction Hown as [| h rest Hh _ IH]; [reflexivity |].
    cbn [List.filter]. rewrite Hh.
    rewrite (bool_decide_eq_false_2 _ (not_self_neighbor _ k Hn)). exact IH. }
  rewrite Hnone. unfold direct_amplitude. cbn. ring.
Qed.

Lemma aggregate_pair (d : BTOFHitDigi) (s1 s2 : SmearedHit) :
  accepted detector d s1 = true -> accepted detector d s2 = true ->
  channel_key d (sm_channelId s2) = channel_key d (sm_channelId s1) ->
  aggregate' d [s1; s2] =
  [{| sig_channel := channel_key d (sm_channelId s1);
      amplitude := pulse_contribution s1 + (pulse_contribution s2 + 0)
                   + shared' d (channel_key d (sm_channelId s1)) [s1; s2];
      arrival := effective_time [s1; s2] |}].
Proof.
  intros Hacc1 Hacc2 Hkey. unfold aggregate. cbn [List.filter].
  rewrite Hacc1, Hacc2. unfold partition_hits. cbn [fold_left add_to_channel].
  rewrite Hkey, Z.eqb_refl. reflexivity.
Qed.

(** An event of two accepted hits with matching sum-field values: one
    signal with the sum of the two contributions, and one record or, below
    the threshold, none. *)
Lemma two_hit_event_merge (cfg : BTOFHitDigiConfig) (seed : Z) (d : BTOFHitDigi)
    (h1 h2 : SimHit) :
  init' (seeded seed (applyConfig cfg ctor)) = inr d ->
  let g := generator d in
  let s1 := fst (smear_hit Qsqrt d h1 g) in
  let s2 := fst (smear_hit Qsqrt d h2 (snd (smear_hit Qsqrt d h1 g))) in
  let c1 := pulse_contribution s1 in
  let c2 := pulse_contribution s2 in
  let ped := pedestalMean cfg + pedestalSigma cfg * tape g (pos g + 4) in
  let k := channel_key d (channelId h1) in
  channel_key d (channelId h2) = k ->
  accepted detector d s1 = true -> accepted detector d s2 = true ->
  0 <= c1 -> 0 <= c2 ->
  (exists sig,
      aggregate' d [s1; s2] = [sig]
      /\ sig_channel sig = k
      /\ amplitude sig == c1 + c2
      /\ arrival sig = effective_time [s1; s2])
  /\ (threshold cfg <= c1 + c2 ->
      fst (fst (execute' d [h1; h2])) =
      [{| raw_channelId := k;
          adcCode := adc_code d (c1 + c2) ped;
          tdcCode := tdc_code d (effective_time [s1; s2]) |}])
  /\ (c1 + c2 < threshold cfg -> fst (fst (execute' d [h1; h2])) = [])
  /\ (adc_code d c1 ped <= adc_code d (c1 + c2) ped)%Z
  /\ (adc_code d c2 ped <= adc_code d (c1 + c2) ped)%Z
  /\ ((adc_code d (c1 + c2) ped < max_code (adc_bit d))%Z ->
      (0 <= adc_scaled d c1 ped ->
       1 <= c2 / dyRangeADC d * inject_Z (max_code (adc_bit d)) ->
       (adc_code d c1 ped < adc_code d (c1 + c2) ped)%Z)
      /\ (0 <= adc_scaled d c2 ped ->
          1 <= c1 / dyRangeADC d * inject_Z (max_code (adc_bit d)) ->
          (adc_code d c2 ped < adc_code d (c1 + c2) ped)%Z)).
Proof.
  intros Hinit g s1 s2 c1 c2 ped k Hkey Hacc1 Hacc2 Hc1 Hc2.
  destruct (configured_engine_constants _ _ _ _ _ _ _ _ Hinit)
    as (Hadc & _ & _ & _ & _ & Hfinder & Hcfg).
  pose proof (init_dyRange_positive _ _ _ Hinit) as Hdy.
  assert (Hbits : (0 <= adc_bit d)%Z) by (rewrite Hadc; lia).
  assert (Hring : channel_count (_neighborFinder d) <> 1%Z) by now rewrite Hfinder.
  assert (Hagg := aggregate_pair d s1 s2 Hacc1 Hacc2 Hkey).
  change (channel_key d (sm_channelId s1)) with k in Hagg.
  assert (Hshared : shared' d k [s1; s2] == 0).
  { apply shared_amplitude_own_channel; [exact Hring |].
    repeat constructor. exact Hkey. }
  set (amp := pulse_contribution s1 + (pulse_contribution s2 + 0) + shared' d k [s1; s2]) in *.
  assert (Hamp : amp == c1 + c2).
  { unfold amp. rewrite Hshared. unfold c1, c2. ring. }
  assert (Hrun : fst (fst (execute' d [h1; h2])) =
                 if Qltb amp (threshold cfg) then []
                 else [{| raw_channelId := k;
                          adcCode := adc_code d amp ped;
                          tdcCode := tdc_code d (effective_time [s1; s2]) |}]).
  { rewrite execute_rawhits, smear_hits_pair. cbn [fst snd].
    fold g s1 s2. rewrite Hagg.
    rewrite digitize_all_cons, digitize_value. cbn [digitize_all mret Rand_ret].
    cbn [amplitude sig_channel arrival tape pos]. rewrite Hcfg. fold ped.
    destruct (Qltb amp (threshold cfg)); reflexivity. }
  split; [| split; [| split; [| split; [| split]]]].
  - eexists. split; [exact Hagg |]. cbn. repeat split. exact Hamp.
  - intros Hthr. rewrite Hrun.
    assert (Hkeep : Qltb amp (threshold cfg) = false).
    { apply Qltb_false. now rewrite Hamp. }
    rewrite Hkeep. now rewrite (adc_code_comp d amp (c1 + c2) ped Hamp).
  - intros Hthr. rewrite Hrun.
    assert (Hdrop : Qltb amp (threshold cfg) = true).
    { apply Qltb_true. now rewrite Hamp. }
    now rewrite Hdrop.
  - apply adc_code_monotone; [exact Hbits | exact Hdy | lra].
  - apply adc_code_monotone; [exact Hbits | exact Hdy | lra].
  - intros Hsat. split; intros Hlow Hstep.
    + now apply adc_code_strict.
    + assert (Hswap : c2 + c1 == c1 + c2) by ring.
      rewrite <- (adc_code_comp d _ _ ped Hswap) in Hsat |- *.
      now apply adc_code_strict.
Qed.

(** With no time smearing, hits that all arrive after the window
    [[tMin, tMax]] are excluded from the aggregation, and the event has no
    record, whatever the collaborators. *)
Lemma late_hits_excluded (d : BTOFHitDigi) (hits : list SimHit) (g : rng) :
  tRes d == 0 ->
  Forall (fun h => tMax d < time h) hits ->
  List.filter (accepted detector d) (fst (smear_hits Qsqrt d hits g)) = [].
Proof.
  intros Hres Hlate. revert g. induction Hlate as [| h rest Hh _ IH]; intros g.
  - reflexivity.
  - rewrite smear_hits_cons. cbn [fst List.filter]. rewrite IH.
    assert (Hout : accepted detector d (fst (smear_hit Qsqrt d h g)) = false).
    { unfold accepted, in_window. apply andb_false_iff. right.
      apply andb_false_iff. right.
      destruct (Qle_bool _ (tMax d)) eqn:Hle; [| reflexivity].
      apply Qle_bool_iff in Hle. exfalso. revert Hle.
      unfold smear_hit, mbind, Rand_bind. rewrite smear_value.
      unfold mret, Rand_ret. cbn [fst snd smearedTime]. rewrite Hres. lra. }
    now rewrite Hout.
Qed.

Lemma late_hits_give_no_record (d : BTOFHitDigi) (simhits : list SimHit) :
  tRes d == 0 ->
  Forall (fun h => tMax d < time h) simhits ->
  fst (fst (execute' d simhits)) = [].
Proof.
  intros Hres Hlate. rewrite execute_rawhits. unfold aggregate.
  rewrite (late_hits_excluded d simhits (generator d) Hres Hlate). reflexivity.
Qed.

(** Two hits of one channel that both arrive after the window are not
    merged into a record: on an engine without time smearing the event has
    no record at all. *)
Lemma late_pair_not_merged (cfg : BTOFHitDigiConfig) (seed : Z) (d : BTOFHitDigi)
    (h1 h2 : SimHit) :
  init' (seeded seed (applyConfig cfg ctor)) = inr d ->
  cfg_tRes cfg == 0 ->
  100 < time h1 -> 100 < time h2 ->
  channel_key d (channelId h1) = channel_key d (channelId h2) ->
  ~ merged_strictly_greater Qsqrt pulse_contribution effective_time sharing_fraction
      detector d h1 h2.
Proof.
  intros Hinit Hres Hlate1 Hlate2 Hkey Hclaim.
  destruct (configured_engine_constants _ _ _ _ _ _ _ _ Hinit)
    as (_ & _ & _ & _ & Hmax & _ & _).
  destruct (init_success _ _ _ Hinit) as (_ & _ & _ & _ & _ & _ & HtRes & _).
  cbn in HtRes.
  destruct (Hclaim Hkey) as (r & _ & _ & Hpair & _).
  rewrite late_hits_give_no_record in Hpair; [discriminate | |].
  - now rewrite HtRes.
  - rewrite Hmax. constructor; [lra | constructor; [lra | constructor]].
Qed.

(** The signals of an event: one per sum-field value among the hits that
    enter the aggregation, each with the plain sum of the contributions of
    all hits of that value and the share of its neighbours. *)
Lemma aggregate_signals (d : BTOFHitDigi) (hs : list SmearedHit) :
  let kept := List.filter (accepted detector d) hs in
  exists keys,
    List.NoDup keys
    /\ (forall k, In k keys <-> exists h, In h kept /\ channel_key d (sm_channelId h) = k)
    /\ aggregate' d hs
       = map (fun k =>
                let members :=
                  List.filter (fun h => (channel_key d (sm_channelId h) =? k)%Z) kept in
                {| sig_channel := k;
                   amplitude := direct_amplitude pulse_contribution members
                                + shared' d k kept;
                   arrival := effective_time members |})
           keys.
Proof.
  cbv zeta. unfold aggregate.
  destruct (partition_hits_groups d (List.filter (accepted detector d) hs))
    as (keys & Hnodup & Hcover & Hgroups).
  exists keys. split; [exact Hnodup | split; [exact Hcover |]].
  rewrite Hgroups, map_map. reflexivity.
Qed.


End merging_properties.

(** The second form of the header's comment, [a/sqrt(E)], is the relative
    resolution with [b = 0] and [c = 0]. *)
Lemma relative_resolution_stochastic_only (Qsqrt : Q -> Q)
    (cfg : BTOFHitDigiConfig) (e : Q) :
  b cfg == 0 -> c cfg == 0 ->
  relative_resolution Qsqrt cfg e == a cfg / Qsqrt e.
Proof.
  intros Hb Hc. unfold relative_resolution. rewrite Hb, Hc.
  unfold Qdiv at 2. rewrite Qmult_0_l. ring.
Qed.

(** ** The model on concrete events *)

Local Abbreviation execute_concrete :=
  (execute newton_sqrt charge_contribution first_arrival 0.1 two_field_geometry).

Lemma ready_engine_quiet :
  init two_field_geometry
    (seed_engine sawtooth_stream 1 (applyConfig quiet_cfg fresh_engine))
  = inr (ready_engine quiet_cfg).
Proof. reflexivity. Qed.

Lemma ready_engine_noisy :
  init two_field_geometry
    (seed_engine sawtooth_stream 1 (applyConfig noisy_cfg fresh_engine))
  = inr (ready_engine noisy_cfg).
Proof. reflexivity. Qed.

Example quiet_pair_run :
  fst (fst (execute_concrete (ready_engine quiet_cfg)
              [sim_hit 257 3 5; sim_hit 257 0.01 6]))
  = [{| raw_channelId := 257; adcCode := 76; tdcCode := 250 |}].
Proof. vm_compute. reflexivity. Qed.

Example quiet_first_alone :
  fst (fst (execute_concrete (ready_engine quiet_cfg) [sim_hit 257 3 5]))
  = [{| raw_channelId := 257; adcCode := 76; tdcCode := 250 |}].
Proof. vm_compute. reflexivity. Qed.

Example suppressed_pair_run :
  fst (fst (execute_concrete (ready_engine suppressing_cfg)
              [sim_hit 257 0.1 5; sim_hit 257 0.2 6]))
  = [].
Proof. vm_compute. reflexivity. Qed.

Example empty_event_run :
  fst (fst (execute_concrete (ready_engine noisy_cfg) [])) = [].
Proof. vm_compute. reflexivity. Qed.

Example busy_event_run :
  fst (execute_concrete (ready_engine noisy_cfg)
         [sim_hit 257 3 5; sim_hit 257 4 6; sim_hit 258 1 30; sim_hit 257 1e9 20])
  = ([{| raw_channelId := 257; adcCode := 255; tdcCode := 249 |};
      {| raw_channelId := 258; adcCode := 38; tdcCode := 1023 |}],
     {| unresolved_hits := 0; out_of_window_hits := 0 |}).
Proof. vm_compute. reflexivity. Qed.

(** The ADC code has plateaus for every initialised engine: below
    saturation there are always two positive contributions whose sum gets
    the code of the first. *)
Lemma adc_code_plateau (d : BTOFHitDigi) (ped A : Q) :
  (0 <= adc_bit d)%Z -> 0 < dyRangeADC d ->
  0 < A -> (adc_code d A ped < max_code (adc_bit d))%Z ->
  exists x y,
    0 < x /\ 0 < y
    /\ (adc_code d (x + y) ped < max_code (adc_bit d))%Z
    /\ adc_code d (x + y) ped = adc_code d x ped.
Proof.
  intros Hbits Hdy HA Hsat.
  destruct (quantiser_plateau (fun x => adc_code d x ped) (max_code (adc_bit d)) A)
    as (x & y & Hx & Hy & Hlt & Hle).
  - intros x y Hxy. now apply adc_code_comp.
  - intros x. now apply adc_code_range.
  - exact HA.
  - exact Hsat.
  - exists x, y. repeat split; try assumption.
    apply Z.le_antisymm; [exact Hle |].
    apply adc_code_monotone; [exact Hbits | exact Hdy | lra].
Qed.

(** On every engine configured with a dynamic range of 10^10 the
    amplitude 10^9 is scaled to 25.5 of 255 steps. *)
Lemma wide_range_code (TMath_Landau : Q -> Q -> Q -> bool -> Q)
    (default_cfg : BTOFHitDigiConfig) (default_tape : nat -> Q)
    (detector : GeometryHandle) (stream_of_seed : Z -> nat -> Q) (seed : Z)
    (d : BTOFHitDigi) :
  init detector
    (seed_engine stream_of_seed seed
       (applyConfig wide_range_cfg (BTOFHitDigi_ctor TMath_Landau default_cfg default_tape)))
  = inr d ->
  adc_code d 1e9 0 = 25%Z.
Proof.
  intros Hinit.
  destruct (configured_engine_constants _ _ _ _ _ _ _ _ Hinit) as (Hadc & _).
  destruct (init_success _ _ _ Hinit) as (_ & _ & _ & _ & Hdy & _).
  cbn in Hdy. unfold adc_code, adc_scaled. rewrite Hadc, Hdy. reflexivity.
Qed.



(** ** The theorems at concrete inputs *)



Lemma smear_energy_sigma_witness :
  fst (fst (smear newton_sqrt (ready_engine noisy_cfg) 4 5
              (generator (ready_engine noisy_cfg))))
  = 4 + (0.1 / newton_sqrt 4 + 0.02 + 0 / 4) * 4 * sawtooth_stream 1 0.
Proof.
  apply (smear_energy_sigma newton_sqrt (ready_engine noisy_cfg) 4 5
           (generator (ready_engine noisy_cfg)) 3); reflexivity.
Defined.


Lemma neighbors_symmetric_ring_witness :
  (64 - 1)%Z ∈ neighbors (BarrelTOFNeighborFinder_ctor 64 4 3.2 4) 0
  /\ 0%Z ∈ neighbors (BarrelTOFNeighborFinder_ctor 64 4 3.2 4) (64 - 1).
Proof.
  destruct (neighbors_symmetric_ring bell_density quiet_cfg (sawtooth_stream 1)
              (BarrelTOFNeighborFinder_ctor 64 4 3.2 4) 0 63) as (_ & Hring & _).
  apply Hring. cbn. lia.
Defined.


(** ** More on the radiator tables *)

Section radiator_tables.

Variables kAerogel kGas : Z.

(** X1: Names survive the trip through their number when the two enumerators
    differ, and only then: with equal enumerators ["Gas"] comes back as
    ["Aerogel"]. *)
Theorem RadiatorName_RadiatorNum_roundtrip (name : string) :
  (kAerogel <> kGas ->
   name = "Aerogel"%string \/ name = "Gas"%string ->
   IrtGeo.value
     (IrtGeo.RadiatorName kAerogel kGas
        (IrtGeo.value (IrtGeo.RadiatorNum kAerogel kGas name))) = name)
  /\ (kAerogel = kGas ->
      IrtGeo.value
        (IrtGeo.RadiatorName kAerogel kGas
           (IrtGeo.value (IrtGeo.RadiatorNum kAerogel kGas "Gas")))
      = "Aerogel"%string).
Proof.
  unfold IrtGeo.RadiatorName, IrtGeo.RadiatorNum. split.
  - intros Hdiff [-> | ->]; cbn.
    + now rewrite Z.eqb_refl.
    + apply not_eq_sym, Z.eqb_neq in Hdiff. now rewrite Hdiff, Z.eqb_refl.
  - intros ->. cbn. now rewrite Z.eqb_refl.
Qed.

(** X2: An error line is printed exactly for an unknown input, and it carries
    that input. *)
Theorem radiator_errors_only_for_unknown (num : Z) (name : string) :
  (IrtGeo.printed (IrtGeo.RadiatorName kAerogel kGas num) = []
   <-> num = kAerogel \/ num = kGas)
  /\ (IrtGeo.printed (IrtGeo.RadiatorName kAerogel kGas num) <> [] ->
      IrtGeo.printed (IrtGeo.RadiatorName kAerogel kGas num)
      = [IrtGeo.unknown_radiator_number num])
  /\ (IrtGeo.printed (IrtGeo.RadiatorNum kAerogel kGas name) = []
      <-> name = "Aerogel"%string \/ name = "Gas"%string)
  /\ (IrtGeo.printed (IrtGeo.RadiatorNum kAerogel kGas name) <> [] ->
      IrtGeo.printed (IrtGeo.RadiatorNum kAerogel kGas name)
      = [IrtGeo.unknown_radiator_name name]).
Proof.
  unfold IrtGeo.RadiatorNum, IrtGeo.RadiatorName, IrtGeo.printed.
  split; [| split; [| split]].
  - destruct (Z.eqb_spec num kAerogel) as [Ha | Ha];
      [| destruct (Z.eqb_spec num kGas) as [Hg | Hg]]; cbn.
    + split; [left; exact Ha | reflexivity].
    + split; [right; exact Hg | reflexivity].
    + split; [discriminate | intros [Hk | Hk]; contradiction].
  - destruct (num =? kAerogel)%Z; [| destruct (num =? kGas)%Z]; cbn;
      intros Hne; [contradiction | contradiction | reflexivity].
  - destruct (String.eqb_spec name "Aerogel") as [Ha | Ha];
      [| destruct (String.eqb_spec name "Gas") as [Hg | Hg]]; cbn.
    + split; [left; exact Ha | reflexivity].
    + split; [right; exact Hg | reflexivity].
    + split; [discriminate | intros [Hk | Hk]; contradiction].
  - destruct (name =? "Aerogel")%string; [| destruct (name =? "Gas")%string]; cbn;
      intros Hne; [contradiction | contradiction | reflexivity].
Qed.

End radiator_tables.

Lemma RadiatorName_RadiatorNum_roundtrip_witness :
  IrtGeo.value (IrtGeo.RadiatorName 0 1 (IrtGeo.value (IrtGeo.RadiatorNum 0 1 "Gas")))
  = "Gas"%string
  /\ IrtGeo.value (IrtGeo.RadiatorName 5 5 (IrtGeo.value (IrtGeo.RadiatorNum 5 5 "Gas")))
     = "Aerogel"%string.
Proof.
  split.
  - apply (RadiatorName_RadiatorNum_roundtrip 0 1 "Gas"); [discriminate |].
    right. reflexivity.
  - apply (RadiatorName_RadiatorNum_roundtrip 5 5 "Gas"). reflexivity.
Defined.

(** ** Construction of the geometry *)

Section geometry_setup.

Import IrtGeoSetup.

Variable getenv : string -> option string.

Lemma append_nonempty_r (s t : string) : t <> ""%string -> (s ++ t)%string <> ""%string.
Proof.
  intros Ht. destruct s as [| ch s]; [exact Ht | discriminate].
Qed.

(** X3: A compact file that is named explicitly is loaded as it is and the
    geometry is bound, whatever the environment holds; the environment is
    not consulted, so unset variables do no harm. *)
Theorem explicit_compact_file_is_loaded (detName_ compactFile_ : string)
    (verbose_ : bool) :
  compactFile_ <> ""%string ->
  exists this,
    IrtGeo_ctor getenv detName_ compactFile_ verbose_ = completed (this, [])
    /\ det this = Some compactFile_
    /\ detRich this = Some detName_
    /\ irtGeometry this = Some [detName_]
    /\ irtDetector this = Some detName_
    /\ detName this = detName_ /\ verbose this = verbose_.
Proof.
  intros Hname. unfold IrtGeo_ctor.
  apply String.eqb_neq in Hname. rewrite Hname.
  eexists. split; [reflexivity |]. repeat split.
Qed.

(** X4: Without a compact file name the file is
    [DETECTOR_PATH/DETECTOR_CONFIG.xml] when both variables are set and not
    empty; when both are set and one is empty, the error line is printed and
    nothing is loaded or bound; a variable that is not set never reaches
    that error line. *)
Theorem default_compact_file (detName_ : string) (verbose_ : bool) :
  let result := IrtGeo_ctor getenv detName_ "" verbose_ in
  (forall path config,
      getenv "DETECTOR_PATH"%string = Some path ->
      getenv "DETECTOR_CONFIG"%string = Some config ->
      path <> ""%string -> config <> ""%string ->
      exists this,
        result = completed (this, [])
        /\ det this = Some (path ++ "/" ++ config ++ ".xml")%string
        /\ irtGeometry this = Some [detName_])
  /\ (forall path config,
        getenv "DETECTOR_PATH"%string = Some path ->
        getenv "DETECTOR_CONFIG"%string = Some config ->
        path = ""%string \/ config = ""%string ->
        exists this,
          result = completed (this, [cannot_find_default_compact_file])
          /\ det this = None /\ detRich this = None
          /\ irtGeometry this = None /\ irtDetector this = None)
  /\ (getenv "DETECTOR_PATH"%string = None
      \/ getenv "DETECTOR_CONFIG"%string = None ->
      result = undefined_behaviour).
Proof.
  cbv zeta. unfold IrtGeo_ctor. cbn [String.eqb].
  split; [| split].
  - intros path config -> -> Hpath Hconfig.
    apply String.eqb_neq in Hpath, Hconfig. rewrite Hpath, Hconfig. cbn [orb].
    eexists. split; [reflexivity |]. split; reflexivity.
  - intros path config -> -> Hempty.
    assert (Hor : ((path =? "")%string || (config =? "")%string) = true).
    { destruct Hempty as [-> | ->]; [reflexivity |]. apply orb_true_r. }
    rewrite Hor. eexists. split; [reflexivity |]. repeat split.
  - intros [-> | Hconfig]; [reflexivity |].
    destruct (getenv "DETECTOR_PATH"%string); [| reflexivity].
    now rewrite Hconfig.
Qed.

(** X5: Whatever the arguments and the environment, [fromXML] is never handed
    an empty file name, and the geometry is bound exactly when a file was
    loaded. *)
Theorem loaded_file_name_not_empty (detName_ compactFile_ : string)
    (verbose_ : bool) (this : IrtGeo) (log : list log_line) :
  IrtGeo_ctor getenv detName_ compactFile_ verbose_ = completed (this, log) ->
  det this <> Some ""%string
  /\ (det this = None <-> irtGeometry this = None)
  /\ (det this = None <-> log = [cannot_find_default_compact_file])
  /\ (log = [] \/ log = [cannot_find_default_compact_file]).
Proof.
  unfold IrtGeo_ctor.
  destruct (String.eqb_spec compactFile_ "") as [Hempty | Hname].
  - destruct (getenv "DETECTOR_PATH"%string) as [path |]; [| discriminate].
    destruct (getenv "DETECTOR_CONFIG"%string) as [config |]; [| discriminate].
    destruct ((path =? "")%string || (config =? "")%string).
    + intros [= <- <-]. cbn. repeat split; try discriminate; auto.
    + intros [= <- <-]. cbn. repeat split; try discriminate; auto.
      intros [= Hfile]. revert Hfile. apply append_nonempty_r. discriminate.
  - intros [= <- <-]. cbn. repeat split; try discriminate; auto.
    congruence.
Qed.

End geometry_setup.

Lemma explicit_compact_file_is_loaded_witness :
  exists this,
    IrtGeoSetup.IrtGeo_ctor (fun _ => None) "DRICH" "epic.xml" true
    = IrtGeoSetup.completed (this, [])
    /\ IrtGeoSetup.det this = Some "epic.xml"%string.
Proof.
  destruct (explicit_compact_file_is_loaded (fun _ => None) "DRICH" "epic.xml" true)
    as (this & Hrun & Hdet & _); [discriminate |].
  exists this. split; [exact Hrun | exact Hdet].
Defined.

Lemma default_compact_file_witness :
  exists this,
    IrtGeoSetup.IrtGeo_ctor two_variable_environment "DRICH" "" false
    = IrtGeoSetup.completed (this, [])
    /\ IrtGeoSetup.det this = Some "/opt/detector/epic.xml"%string.
Proof.
  destruct (default_compact_file two_variable_environment "DRICH" false)
    as (Hgood & _).
  destruct (Hgood "/opt/detector"%string "epic"%string) as (this & Hrun & Hdet & _);
    try reflexivity; try discriminate.
  exists this. split; [exact Hrun | exact Hdet].
Defined.

Lemma loaded_file_name_not_empty_witness :
  IrtGeoSetup.det
    (IrtGeoSetup.Bind
       (IrtGeoSetup.fromXML "epic.xml"
          {| IrtGeoSetup.detName := "DRICH"; IrtGeoSetup.verbose := true;
             IrtGeoSetup.det := None; IrtGeoSetup.detRich := None;
             IrtGeoSetup.irtGeometry := None; IrtGeoSetup.irtDetector := None |}))
  <> Some ""%string.
Proof.
  apply (loaded_file_name_not_empty (fun _ => None) "DRICH" "epic.xml" true _ []).
  reflexivity.
Defined.

(** ** Which files the PODIO source offers to open *)

Section check_openable.

Lemma substring_prefix (n : nat) (s t : string) :
  substring 0 n s = t -> String.length t = n -> exists post, s = (t ++ post)%string.
Proof.
  revert s t. induction n as [| n IH]; intros s t Hsub Hlen.
  - destruct t; [| discriminate]. exists s. reflexivity.
  - destruct s as [| ch s]; cbn in Hsub; [subst t; discriminate |].
    destruct t as [| ch' t]; [discriminate |].
    injection Hsub as -> Hsub. injection Hlen as Hlen.
    destruct (IH s t Hsub Hlen) as [post ->]. exists post. reflexivity.
Qed.

Lemma substring_occurrence (m : nat) (s t : string) :
  substring m (String.length t) s = t ->
  exists pre post, s = (pre ++ t ++ post)%string.
Proof.
  revert s. induction m as [| m IH]; intros s Hsub.
  - destruct (substring_prefix _ _ _ Hsub eq_refl) as [post ->].
    exists ""%string, post. reflexivity.
  - destruct s as [| ch s].
    + destruct t; [| destruct (String.length _); discriminate].
      exists ""%string, ""%string. reflexivity.
    + cbn in Hsub. destruct (IH s Hsub) as (pre & post & ->).
      exists (String ch pre), post. reflexivity.
Qed.

Lemma substring_of_prefix (t post : string) :
  substring 0 (String.length t) (t ++ post) = t.
Proof.
  induction t as [| ch t IH].
  - destruct post; reflexivity.
  - change (String ch (substring 0 (String.length t) (t ++ post)) = String ch t).
    now rewrite IH.
Qed.

Lemma substring_of_occurrence (pre t post : string) :
  substring (String.length pre) (String.length t) (pre ++ t ++ post) = t.
Proof.
  induction pre as [| ch pre IH]; [exact (substring_of_prefix t post) | exact IH].
Qed.

(** X6: The source offers itself, with the small confidence 0.01, for exactly
    the names that contain [".root"] somewhere, not only at the end, and
    for no other name. *)
Theorem CheckOpenable_contains_root (resource_name : string) :
  (PODIO.CheckOpenable resource_name = 0.01
   <-> exists pre post, resource_name = (pre ++ ".root" ++ post)%string)
  /\ (PODIO.CheckOpenable resource_name = 0.0
      <-> ~ exists pre post, resource_name = (pre ++ ".root" ++ post)%string)
  /\ 0 <= PODIO.CheckOpenable resource_name <= 0.01.
Proof.
  unfold PODIO.CheckOpenable, PODIO.find.
  destruct (String.index 0 ".root" resource_name) as [m |] eqn:Hfind.
  - assert (Hocc : exists pre post, resource_name = (pre ++ ".root" ++ post)%string).
    { apply (substring_occurrence m). now apply index_correct1 in Hfind. }
    split; [| split].
    + split; [intros _; exact Hocc | reflexivity].
    + split; [discriminate | intros Hnone; contradiction].
    + split; discriminate.
  - assert (Hnone : ~ exists pre post, resource_name = (pre ++ ".root" ++ post)%string).
    { intros (pre & post & ->).
      apply (index_correct3 0 (String.length pre) _ _ Hfind);
        [discriminate | lia |].
      apply (substring_of_occurrence pre ".root" post). }
    split; [| split].
    + split; [discriminate | intros Hocc; contradiction].
    + split; [intros _; exact Hnone | reflexivity].
    + split; discriminate.
Qed.

End check_openable.

(** ** The collection lists of [Open] *)

Section collection_lists.

Import PODIO.

Lemma getline_pieces_not_nil (substr ss : string) : getline_pieces substr ss <> [].
Proof.
  revert substr. induction ss as [| ch rest IH]; intros substr; cbn.
  - discriminate.
  - destruct (ch =? ",")%char; [discriminate | apply IH].
Qed.

Lemma append_assoc (s t u : string) : ((s ++ t) ++ u)%string = (s ++ t ++ u)%string.
Proof.
  induction s as [| ch s IH]; [reflexivity |].
  change (String ch ((s ++ t) ++ u) = String ch (s ++ t ++ u))%string.
  now rewrite IH.
Qed.

Lemma append_empty_r (s : string) : (s ++ "")%string = s.
Proof.
  induction s as [| ch s IH]; [reflexivity |].
  change (String ch (s ++ "") = String ch s)%string. now rewrite IH.
Qed.

Lemma concat_cons_pieces (x : string) (l : list string) :
  l <> [] -> String.concat "," (x :: l) = (x ++ "," ++ String.concat "," l)%string.
Proof. destruct l; [contradiction | reflexivity]. Qed.

Lemma getline_pieces_concat (substr ss : string) :
  String.concat "," (getline_pieces substr ss) = (substr ++ ss)%string.
Proof.
  revert substr. induction ss as [| ch rest IH]; intros substr; cbn [getline_pieces].
  - cbn. now rewrite append_empty_r.
  - destruct (ch =? ",")%char eqn:Hch.
    + apply Ascii.eqb_eq in Hch. subst ch.
      rewrite concat_cons_pieces by apply getline_pieces_not_nil.
      rewrite IH. reflexivity.
    + rewrite IH. rewrite append_assoc. reflexivity.
Qed.

Lemma list_ascii_of_string_append (s t : string) :
  list_ascii_of_string (s ++ t) = (list_ascii_of_string s ++ list_ascii_of_string t)%list.
Proof.
  induction s as [| ch s IH]; [reflexivity |].
  change (ch :: list_ascii_of_string (s ++ t)
          = ch :: (list_ascii_of_string s ++ list_ascii_of_string t)%list).
  now rewrite IH.
Qed.

Lemma comma_free_snoc (s : string) (ch : ascii) :
  comma_free s -> ch <> ","%char -> comma_free (s ++ String ch "").
Proof.
  unfold comma_free. intros Hs Hch. rewrite list_ascii_of_string_append.
  rewrite in_app_iff. cbn. intros [Hin | [Heq | []]]; [contradiction | congruence].
Qed.

Lemma getline_pieces_comma_free (substr ss : string) :
  comma_free substr -> Forall comma_free (getline_pieces substr ss).
Proof.
  revert substr. induction ss as [| ch rest IH]; intros substr Hsub; cbn [getline_pieces].
  - constructor; [exact Hsub | constructor].
  - destruct (ch =? ",")%char eqn:Hch.
    + constructor; [exact Hsub |]. apply IH. intros [].
    + apply IH. apply comma_free_snoc; [exact Hsub |].
      now apply Ascii.eqb_neq in Hch.
Qed.

Lemma getline_pieces_length (substr ss : string) :
  length (getline_pieces substr ss) = S (commas ss).
Proof.
  revert substr. induction ss as [| ch rest IH]; intros substr; cbn; [reflexivity |].
  destruct (ch =? ",")%char; cbn; now rewrite IH.
Qed.

(** X7: Joining the pieces read from a non-empty parameter value with commas
    gives the value back; no piece holds a comma; and there is one piece
    more than the value has commas, so empty names between, before and
    after commas are pieces too. *)
Theorem list_pieces_join (str : string) :
  str <> ""%string ->
  String.concat "," (list_pieces str) = str
  /\ Forall comma_free (list_pieces str)
  /\ length (list_pieces str) = S (commas str).
Proof.
  intros Hstr. unfold list_pieces.
  apply String.eqb_neq in Hstr. rewrite Hstr.
  split; [apply getline_pieces_concat | split].
  - apply getline_pieces_comma_free. intros [].
  - apply getline_pieces_length.
Qed.

Lemma getline_pieces_comma_free_prefix (substr x ss : string) :
  comma_free x ->
  getline_pieces substr (x ++ ss) = getline_pieces (substr ++ x) ss.
Proof.
  revert substr. induction x as [| ch x IH]; intros substr Hx.
  - change (""%string ++ ss)%string with ss. now rewrite append_empty_r.
  - change (String ch x ++ ss)%string with (String ch (x ++ ss)).
    cbn [getline_pieces]. destruct (ch =? ",")%char eqn:Hch.
    + apply Ascii.eqb_eq in Hch. subst ch. exfalso. apply Hx. now left.
    + rewrite IH.
      * rewrite append_assoc. reflexivity.
      * intros Hin. apply Hx. now right.
Qed.

Lemma getline_pieces_of_join (names : list string) :
  names <> [] -> Forall comma_free names ->
  getline_pieces "" (String.concat "," names) = names.
Proof.
  induction names as [| x rest IH]; intros Hne Hfree; [contradiction |].
  inversion Hfree as [| ? ? Hx Hrest]; subst.
  destruct rest as [| y rest].
  - cbn [String.concat]. rewrite <- (append_empty_r x) at 1.
    rewrite getline_pieces_comma_free_prefix by exact Hx. reflexivity.
  - rewrite concat_cons_pieces by discriminate.
    rewrite getline_pieces_comma_free_prefix by exact Hx.
    change (getline_pieces ("" ++ x) ("," ++ String.concat "," (y :: rest)))%string
      with (x :: getline_pieces "" (String.concat "," (y :: rest))).
    f_equal. apply IH; [discriminate | exact Hrest].
Qed.

Lemma elem_of_insert_pieces_fold (pieces : list string) (collections : gset string)
    (x : string) :
  x ∈ foldl (fun acc substr => {[ substr ]} ∪ acc) collections pieces
  <-> x ∈ pieces \/ x ∈ collections.
Proof.
  revert collections. induction pieces as [| p rest IH]; intros collections; cbn.
  - rewrite elem_of_nil. tauto.
  - rewrite IH, elem_of_cons, elem_of_union, elem_of_singleton. tauto.
Qed.

(** X8: A parameter value written as names joined by commas, the names free of
    commas and the value not empty, is read as exactly these names, in
    order and untrimmed; after the insertion the set holds these names and
    the names it held before, and nothing else. *)
Theorem list_pieces_of_joined_names (names : list string)
    (collections : gset string) (x : string) :
  Forall comma_free names ->
  String.concat "," names <> ""%string ->
  list_pieces (String.concat "," names) = names
  /\ (x ∈ insert_pieces (String.concat "," names) collections
      <-> x ∈ names \/ x ∈ collections).
Proof.
  intros Hfree Hvalue.
  assert (Hne : names <> []) by (intros ->; now apply Hvalue).
  assert (Hpieces : list_pieces (String.concat "," names) = names).
  { unfold list_pieces. apply String.eqb_neq in Hvalue. rewrite Hvalue.
    now apply getline_pieces_of_join. }
  split; [exact Hpieces |].
  unfold insert_pieces. rewrite Hpieces. apply elem_of_insert_pieces_fold.
Qed.

(** X9: An empty parameter value leaves the set as it was; any other value,
    even a lone comma, leaves a set that is not empty, and no value removes
    a name from the set. *)
Theorem insert_pieces_never_empties (str : string) (collections : gset string) :
  (str = ""%string -> insert_pieces str collections = collections)
  /\ (str <> ""%string -> insert_pieces str collections <> ∅)
  /\ collections ⊆ insert_pieces str collections
  /\ insert_pieces "," collections = {[ ""%string ]} ∪ collections.
Proof.
  split; [| split; [| split]].
  - intros ->. reflexivity.
  - intros Hstr Hempty. unfold insert_pieces, list_pieces in Hempty.
    apply String.eqb_neq in Hstr. rewrite Hstr in Hempty.
    destruct (getline_pieces "" str) as [| p rest] eqn:Hpieces.
    + now apply getline_pieces_not_nil in Hpieces.
    + assert (Hin : p ∈ (∅ : gset string)).
      { rewrite <- Hempty. apply elem_of_insert_pieces_fold. left. now left. }
      now apply not_elem_of_empty in Hin.
  - intros x Hx. unfold insert_pieces. apply elem_of_insert_pieces_fold. now right.
  - apply set_eq. intros x. unfold insert_pieces.
    rewrite elem_of_insert_pieces_fold. cbn.
    rewrite elem_of_union, elem_of_singleton, !elem_of_cons, elem_of_nil. tauto.
Qed.

End collection_lists.

Lemma list_pieces_join_witness :
  String.concat "," (PODIO.list_pieces "EventHeader,,MCParticles,") = "EventHeader,,MCParticles,"%string
  /\ length (PODIO.list_pieces "EventHeader,,MCParticles,") = 4%nat.
Proof.
  destruct (list_pieces_join "EventHeader,,MCParticles,") as (Hjoin & _ & Hlen);
    [discriminate |].
  split; [exact Hjoin | exact Hlen].
Defined.

Lemma list_pieces_of_joined_names_witness :
  PODIO.list_pieces "EventHeader, MCParticles" = ["EventHeader"; " MCParticles"]%string.
Proof.
  apply (list_pieces_of_joined_names ["EventHeader"; " MCParticles"]%string ∅ ""%string).
  - repeat constructor; unfold PODIO.comma_free; cbn;
      intros Hin; repeat destruct Hin as [Hin | Hin]; try discriminate; exact Hin.
  - discriminate.
Defined.

Lemma insert_pieces_never_empties_witness :
  PODIO.insert_pieces "," ∅ <> ∅.
Proof.
  apply (insert_pieces_never_empties "," ∅). discriminate.
Defined.

(** ** The version check *)

Section version_check.

Import PODIO.
Local Open Scope Z_scope.

(** X10: The file is refused exactly when its (major, minor) pair is greater, in
    lexicographic order, than the pair the executable was built with; the
    patch level plays no part, a file of the build version is never
    refused, and of two versions at most one refuses the other. *)
Theorem version_mismatch_lexicographic (version build_version : Version) :
  (version_mismatch version build_version = true
   <-> major version > major build_version
       \/ (major version = major build_version
           /\ minor version > minor build_version))
  /\ (major version = major build_version ->
      minor version = minor build_version ->
      version_mismatch version build_version = false)
  /\ (version_mismatch version build_version = true ->
      version_mismatch build_version version = false)
  /\ (forall p q,
        version_mismatch
          {| major := major version; minor := minor version; patch := p |}
          {| major := major build_version; minor := minor build_version; patch := q |}
        = version_mismatch version build_version).
Proof.
  unfold version_mismatch. cbn [major minor].
  destruct (Z.gtb_spec (major version) (major build_version)),
    (Z.eqb_spec (major version) (major build_version)),
    (Z.gtb_spec (minor version) (minor build_version)),
    (Z.gtb_spec (major build_version) (major version)),
    (Z.eqb_spec (major build_version) (major version)),
    (Z.gtb_spec (minor build_version) (minor version));
    cbn; repeat split; intros; try discriminate; try reflexivity; try lia.
Qed.

End version_check.

Lemma version_mismatch_lexicographic_witness :
  PODIO.version_mismatch
    {| PODIO.major := 0; PODIO.minor := 16; PODIO.patch := 9 |}
    {| PODIO.major := 0; PODIO.minor := 16; PODIO.patch := 2 |} = false.
Proof.
  apply (version_mismatch_lexicographic
           {| PODIO.major := 0; PODIO.minor := 16; PODIO.patch := 9 |}
           {| PODIO.major := 0; PODIO.minor := 16; PODIO.patch := 2 |});
    reflexivity.
Defined.

(** ** Reading events *)

Section reading_events.

Import PODIO.
Local Open Scope Z_scope.

Variable Tdata : Type.
Variable counter_modulus : Z.
Variable reader_GetEvent : Z -> EICEventStore Tdata.
Variable CopyToJEvent :
  DataVectorT Tdata -> JEvent Tdata -> list (Obj Tdata) -> JEvent Tdata * list (Obj Tdata).
Variable Get_EventHeader : JEvent Tdata -> list (Z * Z).

Local Abbreviation GetEvent' :=
  (GetEvent counter_modulus reader_GetEvent CopyToJEvent Get_EventHeader).
Local Abbreviation GetEvents' :=
  (GetEvents counter_modulus reader_GetEvent CopyToJEvent Get_EventHeader).
Local Abbreviation fill_event' :=
  (fill_event reader_GetEvent CopyToJEvent Get_EventHeader).

Lemma GetEvent_throws (s : JEventSourcePODIO) (event : JEvent Tdata) :
  Nevents_in_file s <= Nevents_read s -> run_forever s = false ->
  GetEvent' s event = (call_reader call_CloseFile s, inl kNO_MORE_EVENTS).
Proof.
  intros Hdone Hforever. unfold GetEvent.
  apply Z.leb_le in Hdone. now rewrite Hdone, Hforever.
Qed.

Lemma GetEvent_reads (s : JEventSourcePODIO) (event : JEvent Tdata) :
  Nevents_read s < Nevents_in_file s ->
  GetEvent' s event =
  (call_reader (call_GetEvent (Nevents_read s))
     (set_Nevents_read ((Nevents_read s + 1) mod counter_modulus) s),
   inr (fill_event' (Nevents_read s) event)).
Proof.
  intros Hmore. unfold GetEvent.
  apply Z.leb_gt in Hmore. now rewrite Hmore.
Qed.

Lemma GetEvent_restarts (s : JEventSourcePODIO) (event : JEvent Tdata) :
  Nevents_in_file s <= Nevents_read s -> run_forever s = true ->
  GetEvent' s event =
  (call_reader (call_GetEvent 0)
     (set_Nevents_read (1 mod counter_modulus) (set_Nevents_read 0 s)),
   inr (fill_event' 0 event)).
Proof.
  intros Hdone Hforever. unfold GetEvent.
  apply Z.leb_le in Hdone. now rewrite Hdone, Hforever.
Qed.

(** X11: One call of [GetEvent] on a source that has read no more events than
    the file holds: it throws [kNO_MORE_EVENTS] exactly when the file is
    used up and [run_forever] is off, and then closes the file and leaves
    the counters; otherwise it asks the reader for one entry, which lies
    inside the file whenever the file has events, and counts it.  On a file
    without events [run_forever] makes it ask for entry 0 all the same. *)
Theorem GetEvent_entry_in_file (s : JEventSourcePODIO) (event : JEvent Tdata) :
  0 <= Nevents_read s <= Nevents_in_file s ->
  Nevents_in_file s < counter_modulus ->
  let s' := fst (GetEvent' s event) in
  let result := snd (GetEvent' s event) in
  (result = inl kNO_MORE_EVENTS
   <-> Nevents_read s = Nevents_in_file s /\ run_forever s = false)
  /\ (result = inl kNO_MORE_EVENTS ->
      reader_calls s' = reader_calls s ++ [call_CloseFile]
      /\ Nevents_read s' = Nevents_read s)
  /\ (forall filled, result = inr filled ->
      exists entry,
        reader_calls s' = reader_calls s ++ [call_GetEvent entry]
        /\ filled = fill_event' entry event
        /\ entry = (if Nevents_read s <? Nevents_in_file s then Nevents_read s else 0)
        /\ (0 < Nevents_in_file s ->
            0 <= entry < Nevents_in_file s
            /\ Nevents_read s' = entry + 1
            /\ Nevents_read s' <= Nevents_in_file s)
        /\ (Nevents_in_file s = 0 -> entry = 0 /\ run_forever s = true))
  /\ Nevents_in_file s' = Nevents_in_file s
  /\ run_forever s' = run_forever s.
Proof.
  intros Hread Hfile. cbv zeta.
  destruct (Z.ltb_spec (Nevents_read s) (Nevents_in_file s)) as [Hmore | Hdone].
  - rewrite (GetEvent_reads s event Hmore). cbn [fst snd].
    split; [split; [discriminate | intros [Heq _]; lia] |].
    split; [discriminate |]. split; [| split; reflexivity].
    intros filled [= <-]. exists (Nevents_read s).
    split; [reflexivity |]. split; [reflexivity |]. split; [reflexivity |].
    split; [| lia]. intros _. cbn [Nevents_read set_Nevents_read call_reader].
    rewrite Z.mod_small by lia. lia.
  - destruct (run_forever s) eqn:Hforever.
    + rewrite (GetEvent_restarts s event Hdone Hforever). cbn [fst snd].
      split; [split; [discriminate | intros [_ Hoff]; discriminate] |].
      split; [discriminate |]. split; [| split; [reflexivity | exact Hforever]].
      intros filled [= <-]. exists 0.
      split; [reflexivity |]. split; [reflexivity |]. split; [reflexivity |].
      split; [| intros _; split; reflexivity].
      intros Hpos. cbn [Nevents_read set_Nevents_read call_reader].
      rewrite Z.mod_small by lia. lia.
    + rewrite (GetEvent_throws s event Hdone Hforever). cbn [fst snd].
      split; [split; [intros _; split; [lia | reflexivity] | reflexivity] |].
      split; [intros _; split; reflexivity |].
      split; [discriminate | split; [reflexivity | exact Hforever]].
Qed.

Lemma GetEvents_succ (n : nat) (fresh : JEvent Tdata) (s : JEventSourcePODIO) :
  GetEvents' (S n) fresh s =
  match GetEvent' s fresh with
  | (s', inl status) => ([], s', Some status)
  | (s', inr event) =>
      let '(events, s'', status) := GetEvents' n fresh s' in
      (event :: events, s'', status)
  end.
Proof. reflexivity. Qed.

(** The entries asked for are consecutive while the file lasts. *)
Lemma GetEvents_consecutive (n : nat) (fresh : JEvent Tdata) (s : JEventSourcePODIO) :
  0 <= Nevents_read s ->
  Nevents_read s + Z.of_nat n <= Nevents_in_file s ->
  Nevents_in_file s < counter_modulus ->
  exists s',
    GetEvents' n fresh s =
      (map (fun k => fill_event' (Nevents_read s + Z.of_nat k) fresh) (seq 0 n),
       s', None)
    /\ reader_calls s' =
       reader_calls s
         ++ map (fun k => call_GetEvent (Nevents_read s + Z.of_nat k)) (seq 0 n)
    /\ Nevents_read s' = Nevents_read s + Z.of_nat n
    /\ Nevents_in_file s' = Nevents_in_file s
    /\ run_forever s' = run_forever s.
Proof.
  revert s. induction n as [| n IH]; intros s Hlow Hroom Hfile.
  - exists s. cbn. rewrite app_nil_r, Z.add_0_r. repeat split.
  - rewrite GetEvents_succ, GetEvent_reads by lia.
    set (s1 := call_reader (call_GetEvent (Nevents_read s))
                 (set_Nevents_read ((Nevents_read s + 1) mod counter_modulus) s)).
    assert (Hread1 : Nevents_read s1 = Nevents_read s + 1).
    { unfold s1. cbn. apply Z.mod_small. lia. }
    destruct (IH s1) as (s' & Hrun & Hcalls & Hread & Hfile' & Hforever');
      [lia | rewrite Hread1; cbn; lia | cbn; lia |].
    exists s'. rewrite Hrun. rewrite Hcalls, Hread, Hfile', Hforever', Hread1.
    split; [| split; [| split; [lia | split; reflexivity]]].
    + f_equal. f_equal. cbn [seq map]. rewrite Z.add_0_r. f_equal.
      rewrite <- seq_shift, map_map. apply map_ext. intros k. f_equal. lia.
    + unfold s1 at 1. cbn [reader_calls call_reader set_Nevents_read].
      rewrite <- app_assoc. f_equal. cbn [seq map app]. rewrite Z.add_0_r. f_equal.
      rewrite <- seq_shift, map_map. apply map_ext. intros k. f_equal. lia.
Qed.

(** From a source without [run_forever] that is [m] entries from the end of
    the file, more than [m] calls deliver the [m] entries and then throw. *)
Lemma GetEvents_to_end (extra : nat) (s0 : JEventSourcePODIO) (m : nat)
    (fresh : JEvent Tdata) :
  0 <= Nevents_read s0 ->
  Nevents_read s0 + Z.of_nat m = Nevents_in_file s0 ->
  Nevents_in_file s0 < counter_modulus ->
  run_forever s0 = false ->
  exists s',
    GetEvents' (m + S extra) fresh s0 =
      (map (fun k => fill_event' (Nevents_read s0 + Z.of_nat k) fresh) (seq 0 m),
       s', Some kNO_MORE_EVENTS)
    /\ reader_calls s' =
       reader_calls s0
         ++ map (fun k => call_GetEvent (Nevents_read s0 + Z.of_nat k)) (seq 0 m)
         ++ [call_CloseFile].
Proof.
  revert s0. induction m as [| m IHm]; intros s0 Hlow Hend Hf Hfor.
  - cbn [Nat.add]. rewrite GetEvents_succ, GetEvent_throws by (assumption || lia).
    eexists. split; reflexivity.
  - cbn [Nat.add]. rewrite GetEvents_succ, GetEvent_reads by lia.
    set (s1 := call_reader (call_GetEvent (Nevents_read s0))
                 (set_Nevents_read ((Nevents_read s0 + 1) mod counter_modulus) s0)).
    assert (Hread1 : Nevents_read s1 = Nevents_read s0 + 1).
    { unfold s1. cbn. apply Z.mod_small. lia. }
    destruct (IHm s1) as (s' & Hrun & Hcalls);
      [lia | rewrite Hread1; cbn; lia | cbn; lia | exact Hfor |].
    exists s'. rewrite Hrun, Hcalls, Hread1. split.
    + f_equal. f_equal. cbn [seq map]. rewrite Z.add_0_r. f_equal.
      rewrite <- seq_shift, map_map. apply map_ext. intros k. f_equal. lia.
    + unfold s1 at 1. cbn [reader_calls call_reader set_Nevents_read].
      rewrite <- app_assoc. f_equal. cbn [seq map app]. rewrite Z.add_0_r. f_equal.
      f_equal. rewrite <- seq_shift, map_map. apply map_ext. intros k. f_equal. lia.
Qed.

(** X12: A source without [run_forever] delivers the entries [0, 1, ...] of the
    file in order, one per call, each from the reader; the call after the
    last entry throws [kNO_MORE_EVENTS] and closes the file, and no entry is
    asked for twice or skipped. *)
Theorem GetEvents_until_end (fresh : JEvent Tdata) (s : JEventSourcePODIO)
    (n : nat) :
  run_forever s = false ->
  Nevents_read s = 0 ->
  0 <= Nevents_in_file s < counter_modulus ->
  let total := Z.to_nat (Nevents_in_file s) in
  ((n <= total)%nat ->
   exists s',
     GetEvents' n fresh s =
       (map (fun k => fill_event' (Z.of_nat k) fresh) (seq 0 n), s', None)
     /\ reader_calls s' =
        reader_calls s ++ map (fun k => call_GetEvent (Z.of_nat k)) (seq 0 n)
     /\ Nevents_read s' = Z.of_nat n)
  /\ ((total < n)%nat ->
      exists s',
        GetEvents' n fresh s =
          (map (fun k => fill_event' (Z.of_nat k) fresh) (seq 0 total),
           s', Some kNO_MORE_EVENTS)
        /\ reader_calls s' =
           reader_calls s
             ++ map (fun k => call_GetEvent (Z.of_nat k)) (seq 0 total)
             ++ [call_CloseFile]).
Proof.
  intros Hforever Hread Hfile total.
  assert (Hprefix : forall m : nat, (m <= total)%nat ->
            exists s',
              GetEvents' m fresh s =
                (map (fun k => fill_event' (Z.of_nat k) fresh) (seq 0 m), s', None)
              /\ reader_calls s' =
                 reader_calls s ++ map (fun k => call_GetEvent (Z.of_nat k)) (seq 0 m)
              /\ Nevents_read s' = Z.of_nat m
              /\ Nevents_in_file s' = Nevents_in_file s
              /\ run_forever s' = false).
  { intros m Hm.
    destruct (GetEvents_consecutive m fresh s) as (s' & Hrun & Hcalls & Hr & Hf & Hfor);
      [lia | unfold total in Hm; lia | lia |].
    exists s'. rewrite Hrun, Hcalls, Hr, Hf, Hfor, Hread, Hforever.
    repeat split. }
  split.
  - intros Hn. destruct (Hprefix n Hn) as (s' & Hrun & Hcalls & Hr & _).
    exists s'. repeat split; assumption.
  - intros Hn.
    destruct (GetEvents_to_end (n - total - 1)%nat s total fresh) as (s' & Hrun & Hcalls);
      [lia | unfold total; lia | lia | exact Hforever |].
    replace (total + S (n - total - 1))%nat with n in Hrun by lia.
    exists s'. rewrite Hrun, Hcalls, Hread. split; reflexivity.
Qed.

(** X13: With [run_forever] a source on a file that has events never throws, and
    its calls ask for the entries of the file round and round: the call
    number [k] asks for entry [k mod Nevents_in_file]. *)
Theorem GetEvents_run_forever (fresh : JEvent Tdata) (s : JEventSourcePODIO)
    (n : nat) :
  run_forever s = true ->
  0 <= Nevents_read s <= Nevents_in_file s ->
  0 < Nevents_in_file s < counter_modulus ->
  exists s',
    GetEvents' n fresh s =
      (map (fun k => fill_event'
                       ((Nevents_read s + Z.of_nat k) mod Nevents_in_file s) fresh)
           (seq 0 n),
       s', None)
    /\ reader_calls s' =
       reader_calls s
         ++ map (fun k => call_GetEvent
                            ((Nevents_read s + Z.of_nat k) mod Nevents_in_file s))
              (seq 0 n)
    /\ 0 <= Nevents_read s' <= Nevents_in_file s.
Proof.
  revert s. induction n as [| n IH]; intros s Hforever Hread Hfile.
  - exists s. cbn. rewrite app_nil_r. repeat split; lia.
  - set (N := Nevents_in_file s) in *.
    set (entry := Nevents_read s mod N).
    set (s1 := call_reader (call_GetEvent entry)
                 (set_Nevents_read (entry + 1)
                    (if Nevents_read s <? N then s else set_Nevents_read 0 s))).
    assert (Hstep : GetEvent' s fresh = (s1, inr (fill_event' entry fresh))).
    { unfold s1, entry. destruct (Z.ltb_spec (Nevents_read s) N) as [Hmore | Hdone].
      - rewrite GetEvent_reads by exact Hmore.
        rewrite (Z.mod_small (Nevents_read s) N) by lia.
        rewrite (Z.mod_small _ counter_modulus) by lia. reflexivity.
      - rewrite GetEvent_restarts by (assumption || (fold N; lia)).
        replace (Nevents_read s) with N by lia. rewrite Z_mod_same_full.
        rewrite (Z.mod_small _ counter_modulus) by lia. reflexivity. }
    assert (Hentry : 0 <= entry < N) by (apply Z.mod_pos_bound; lia).
    assert (Hs1 : Nevents_read s1 = entry + 1 /\ Nevents_in_file s1 = N
                  /\ run_forever s1 = true
                  /\ reader_calls s1 = reader_calls s ++ [call_GetEvent entry]).
    { unfold s1. destruct (Nevents_read s <? N); cbn; auto. }
    destruct Hs1 as (Hread1 & Hfile1 & Hforever1 & Hcalls1).
    destruct (IH s1) as (s' & Hrun & Hcalls & Hbound);
      [exact Hforever1 | rewrite Hread1, Hfile1; lia | rewrite Hfile1; lia |].
    exists s'. rewrite GetEvents_succ, Hstep, Hrun, Hcalls, Hcalls1, Hread1, Hfile1.
    assert (Hshift : forall k : nat,
              (entry + 1 + Z.of_nat k) mod N = (Nevents_read s + Z.of_nat (S k)) mod N).
    { intros k. unfold entry.
      replace (Nevents_read s mod N + 1 + Z.of_nat k)
        with (Nevents_read s mod N + (1 + Z.of_nat k)) by lia.
      rewrite Zplus_mod_idemp_l. f_equal. lia. }
    split; [| split].
    + f_equal. f_equal. cbn [seq map]. rewrite Z.add_0_r. fold entry. f_equal.
      rewrite <- seq_shift, map_map. apply map_ext. intros k. now rewrite Hshift.
    + rewrite <- app_assoc. f_equal. cbn [seq map app]. rewrite Z.add_0_r.
      fold entry. f_equal.
      rewrite <- seq_shift, map_map. apply map_ext. intros k. now rewrite Hshift.
    + rewrite Hfile1 in Hbound. exact Hbound.
Qed.

End reading_events.

Lemma GetEvent_entry_in_file_witness :
  snd (PODIO.GetEvent (2 ^ 64) PODIO.sample_store PODIO.CopyToJEventT PODIO.sample_headers
         (PODIO.open_source 3 false) PODIO.empty_event)
  = inl PODIO.kNO_MORE_EVENTS
  <-> PODIO.Nevents_read (PODIO.open_source 3 false)
      = PODIO.Nevents_in_file (PODIO.open_source 3 false)
      /\ PODIO.run_forever (PODIO.open_source 3 false) = false.
Proof.
  pose proof (GetEvent_entry_in_file Z (2 ^ 64)%Z PODIO.sample_store PODIO.CopyToJEventT
                PODIO.sample_headers (PODIO.open_source 3 false) PODIO.empty_event) as H.
  cbv zeta in H. destruct H as (H & _); [cbn; lia | cbn; lia | exact H].
Defined.

Lemma GetEvents_until_end_witness :
  exists s',
    PODIO.GetEvents (2 ^ 64) PODIO.sample_store PODIO.CopyToJEventT PODIO.sample_headers
      5 PODIO.empty_event (PODIO.open_source 2 false)
    = (map (fun k => PODIO.fill_event PODIO.sample_store PODIO.CopyToJEventT
                       PODIO.sample_headers (Z.of_nat k) PODIO.empty_event)
         (seq 0 2),
       s', Some PODIO.kNO_MORE_EVENTS)
    /\ PODIO.reader_calls s'
       = [] ++ map (fun k => PODIO.call_GetEvent (Z.of_nat k)) (seq 0 2)
            ++ [PODIO.call_CloseFile].
Proof.
  pose proof (GetEvents_until_end Z (2 ^ 64)%Z PODIO.sample_store PODIO.CopyToJEventT
                PODIO.sample_headers PODIO.empty_event (PODIO.open_source 2 false) 5%nat)
    as H.
  cbv zeta in H. destruct H as (_ & H); [reflexivity | reflexivity | cbn; lia |].
  apply H. cbn. lia.
Defined.

Lemma GetEvents_run_forever_witness :
  exists s',
    PODIO.GetEvents (2 ^ 64) PODIO.sample_store PODIO.CopyToJEventT PODIO.sample_headers
      5 PODIO.empty_event (PODIO.open_source 2 true)
    = (map (fun k => PODIO.fill_event PODIO.sample_store PODIO.CopyToJEventT
                       PODIO.sample_headers ((0 + Z.of_nat k) mod 2)%Z PODIO.empty_event)
         (seq 0 5),
       s', None)
    /\ PODIO.reader_calls s'
       = [] ++ map (fun k => PODIO.call_GetEvent ((0 + Z.of_nat k) mod 2)%Z) (seq 0 5)
    /\ (0 <= PODIO.Nevents_read s' <= 2)%Z.
Proof.
  apply (GetEvents_run_forever Z (2 ^ 64)%Z PODIO.sample_store PODIO.CopyToJEventT
           PODIO.sample_headers PODIO.empty_event (PODIO.open_source 2 true) 5%nat);
    [reflexivity | cbn; lia | cbn; lia].
Defined.

(** ** Copying collections into the event *)

Section copying.

Import PODIO.
Local Open Scope Z_scope.

Variable Tdata : Type.

(** The objects made from the elements of a collection: element [i] with
    the identifier [(first + i, collection)]. *)
Local Abbreviation numbered first collection :=
  (imap (fun (i : nat) (data : Tdata) =>
           {| obj_id := {| index := first + Z.of_nat i; collectionID := collection |};
              obj_data := data |})).

Lemma copy_loop (datas : list Tdata) (id : ObjectID) (tptrs podio_objs : list (Obj Tdata)) :
  fold_left copy_one datas (id, tptrs, podio_objs) =
  ({| index := index id + Z.of_nat (length datas); collectionID := collectionID id |},
   tptrs ++ numbered (index id) (collectionID id) datas,
   podio_objs ++ numbered (index id) (collectionID id) datas).
Proof.
  revert id tptrs podio_objs.
  induction datas as [| data rest IH]; intros id tptrs podio_objs.
  - cbn. rewrite !app_nil_r, Z.add_0_r. now destruct id.
  - cbn [fold_left copy_one]. rewrite IH. cbn [index collectionID length].
    rewrite imap_cons, <- !app_assoc. cbn [app]. rewrite Z.add_0_r.
    assert (Hshift :
              numbered (index id + 1) (collectionID id) rest
              = imap ((fun (i : nat) (data0 : Tdata) =>
                         {| obj_id := {| index := index id + Z.of_nat i;
                                         collectionID := collectionID id |};
                            obj_data := data0 |}) ∘ S) rest).
    { apply imap_ext. intros i x _. cbn. do 2 f_equal.
      rewrite Nat2Z.inj_succ. unfold Z.succ. ring. }
    rewrite Hshift. destruct id as [i c]. cbn [index collectionID].
    replace (i + 1 + Z.of_nat (length rest)) with (i + Z.of_nat (S (length rest)))
      by lia.
    reflexivity.
Qed.

(** X14: [CopyToJEventT] hands the event one collection under the name of the
    data vector: as many objects as the vector has elements, in the same
    order, element [i] carrying the identifier [(i, collectionID)] and its
    data unchanged; the same objects are appended to [podio_objs] behind
    what was there, and nothing else in the event changes. *)
Theorem CopyToJEventT_numbers_objects (dvt : DataVectorT Tdata)
    (event : JEvent Tdata) (podio_objs : list (Obj Tdata)) :
  Z.of_nat (length (vec dvt)) < 2 ^ 31 ->
  let copied := numbered 0 (dv_collectionID dvt) (vec dvt) in
  CopyToJEventT dvt event podio_objs
  = (Insert copied (dv_name dvt) event, podio_objs ++ copied)
  /\ length copied = length (vec dvt)
  /\ (forall (i : nat) data,
        vec dvt !! i = Some data ->
        copied !! i
        = Some {| obj_id := {| index := Z.of_nat i;
                               collectionID := dv_collectionID dvt |};
                  obj_data := data |})
  /\ inserted (fst (CopyToJEventT dvt event podio_objs))
     = inserted event ++ [(dv_name dvt, copied)]
  /\ event_number (fst (CopyToJEventT dvt event podio_objs)) = event_number event
  /\ run_number (fst (CopyToJEventT dvt event podio_objs)) = run_number event.
Proof.
  intros _ copied.
  assert (Hrun : CopyToJEventT dvt event podio_objs
                 = (Insert copied (dv_name dvt) event, podio_objs ++ copied)).
  { unfold CopyToJEventT. rewrite copy_loop. reflexivity. }
  split; [exact Hrun |]. rewrite Hrun. cbn [fst].
  split; [apply length_imap |]. split; [| repeat split].
  intros i data Hi. unfold copied. rewrite list_lookup_imap, Hi. reflexivity.
Qed.

Variable reader_GetEvent : Z -> EICEventStore Tdata.
Variable CopyToJEvent :
  DataVectorT Tdata -> JEvent Tdata -> list (Obj Tdata) -> JEvent Tdata * list (Obj Tdata).
Variable Get_EventHeader : JEvent Tdata -> list (Z * Z).

Lemma set_numbers_last (headers : list (Z * Z)) (event : JEvent Tdata) :
  fold_left set_numbers headers event =
  match last headers with
  | None => event
  | Some h => {| event_number := fst h;
                 run_number := snd h;
                 event_store := event_store event;
                 inserted := inserted event |}
  end.
Proof.
  revert event. induction headers as [| h rest IH]; intros event; [reflexivity |].
  cbn [fold_left]. destruct rest as [| h' rest]; [reflexivity |].
  rewrite IH, last_cons_cons.
  destruct (last (h' :: rest)) as [h'' |] eqn:Hlast; [reflexivity |].
  apply last_None in Hlast. discriminate.
Qed.

(** X15: The event gets the event number and the run number of the last header
    that [Get] returns; with no header it keeps the numbers it had after
    the copies; the loop over the headers touches neither the store nor the
    collections. *)
Theorem fill_event_numbers (entry : Z) (event : JEvent Tdata) :
  let es := reader_GetEvent entry in
  let copied :=
    fold_left (copy_datavector CopyToJEvent) (m_datavectors es) (Insert_store es event) in
  let filled := fill_event reader_GetEvent CopyToJEvent Get_EventHeader entry event in
  (forall h, last (Get_EventHeader copied) = Some h ->
     event_number filled = fst h /\ run_number filled = snd h)
  /\ (Get_EventHeader copied = [] ->
      event_number filled = event_number copied
      /\ run_number filled = run_number copied)
  /\ event_store filled = event_store copied
  /\ inserted filled = inserted copied.
Proof.
  cbv zeta. unfold fill_event. rewrite set_numbers_last.
  set (copied := fold_left (copy_datavector CopyToJEvent) _ _).
  split; [| split; [| split]].
  - intros h ->. split; reflexivity.
  - intros ->. split; reflexivity.
  - destruct (last (Get_EventHeader copied)); reflexivity.
  - destruct (last (Get_EventHeader copied)); reflexivity.
Qed.

Lemma copy_datavector_template (event : JEvent Tdata) (es : EICEventStore Tdata)
    (dv : DataVectorT Tdata) :
  event_store event = Some es ->
  copy_datavector CopyToJEventT event dv =
  {| event_number := event_number event;
     run_number := run_number event;
     event_store :=
       Some {| m_datavectors := m_datavectors es;
               m_podio_objs :=
                 m_podio_objs es ++ numbered 0 (dv_collectionID dv) (vec dv) |};
     inserted :=
       inserted event ++ [(dv_name dv, numbered 0 (dv_collectionID dv) (vec dv))] |}.
Proof.
  intros Hstore. unfold copy_datavector, CopyToJEventT. rewrite Hstore, copy_loop.
  reflexivity.
Qed.

Lemma copy_datavectors_template (dvs : list (DataVectorT Tdata))
    (event : JEvent Tdata) (es : EICEventStore Tdata) :
  event_store event = Some es ->
  fold_left (copy_datavector CopyToJEventT) dvs event =
  {| event_number := event_number event;
     run_number := run_number event;
     event_store :=
       Some {| m_datavectors := m_datavectors es;
               m_podio_objs :=
                 m_podio_objs es
                   ++ concat (map (fun dv => numbered 0 (dv_collectionID dv) (vec dv)) dvs) |};
     inserted :=
       inserted event
         ++ map (fun dv => (dv_name dv, numbered 0 (dv_collectionID dv) (vec dv))) dvs |}.
Proof.
  revert event es. induction dvs as [| dv rest IH]; intros event es Hstore.
  - destruct event as [en rn store ins]. cbn in Hstore |- *. subst store.
    destruct es as [dvs0 objs0]. cbn. rewrite !app_nil_r. reflexivity.
  - cbn [fold_left]. rewrite (copy_datavector_template event es dv Hstore).
    erewrite IH by reflexivity. cbn [event_number run_number event_store inserted
                                       m_datavectors m_podio_objs map concat].
    rewrite <- !app_assoc. reflexivity.
Qed.

(** X16: When every data vector is copied by [CopyToJEventT], the event ends up
    with one collection per data vector of the store, under its name and in
    the order of the store, and the store's [m_podio_objs] lists exactly the
    objects of these collections, each once and in the same order, behind
    the objects it held before: every object handed to the event is also
    registered for deletion. *)
Theorem fill_event_registers_objects (entry : Z) (event : JEvent Tdata) :
  let es := reader_GetEvent entry in
  let filled := fill_event reader_GetEvent CopyToJEventT Get_EventHeader entry event in
  exists collections,
    inserted filled = inserted event ++ collections
    /\ map fst collections = map dv_name (m_datavectors es)
    /\ map (fun c => length (snd c)) collections
       = map (fun dv => length (vec dv)) (m_datavectors es)
    /\ event_store filled
       = Some {| m_datavectors := m_datavectors es;
                 m_podio_objs := m_podio_objs es ++ concat (map snd collections) |}.
Proof.
  cbv zeta.
  unfold fill_event. rewrite set_numbers_last.
  set (es := reader_GetEvent entry).
  rewrite (copy_datavectors_template (m_datavectors es) (Insert_store es event) es eq_refl).
  set (collections :=
         map (fun dv => (dv_name dv, numbered 0 (dv_collectionID dv) (vec dv)))
           (m_datavectors es)).
  exists collections.
  assert (Hnames : map fst collections = map dv_name (m_datavectors es)).
  { unfold collections. rewrite map_map. reflexivity. }
  assert (Hsizes : map (fun c => length (snd c)) collections
                   = map (fun dv => length (vec dv)) (m_datavectors es)).
  { unfold collections. rewrite map_map. apply map_ext. intros dv. cbn.
    apply length_imap. }
  assert (Hobjs : map snd collections
                  = map (fun dv => numbered 0 (dv_collectionID dv) (vec dv))
                      (m_datavectors es)).
  { unfold collections. rewrite map_map. reflexivity. }
  rewrite Hobjs.
  destruct (last (Get_EventHeader _)); cbn; repeat split; assumption.
Qed.

End copying.

Lemma CopyToJEventT_numbers_objects_witness :
  PODIO.inserted
    (fst (PODIO.CopyToJEventT
            {| PODIO.dv_name := "EcalBarrelHits";
               PODIO.dv_className := "vector<edm4hep::SimCalorimeterHitData>";
               PODIO.dv_collectionID := 2;
               PODIO.vec := [11; 12]%Z |}
            PODIO.empty_event []))
  = [("EcalBarrelHits"%string,
      [ {| PODIO.obj_id := {| PODIO.index := 0; PODIO.collectionID := 2 |};
           PODIO.obj_data := 11%Z |};
        {| PODIO.obj_id := {| PODIO.index := 1; PODIO.collectionID := 2 |};
           PODIO.obj_data := 12%Z |} ])].
Proof.
  pose proof (CopyToJEventT_numbers_objects Z
                {| PODIO.dv_name := "EcalBarrelHits";
                   PODIO.dv_className := "vector<edm4hep::SimCalorimeterHitData>";
                   PODIO.dv_collectionID := 2;
                   PODIO.vec := [11; 12]%Z |}
                PODIO.empty_event []) as H.
  cbv zeta in H. destruct H as (_ & _ & _ & H & _); [cbn; lia |].
  rewrite H. reflexivity.
Defined.

Lemma fill_event_numbers_witness :
  PODIO.event_number
    (PODIO.fill_event PODIO.sample_store PODIO.CopyToJEventT PODIO.sample_headers 1
       PODIO.empty_event) = 101%Z
  /\ PODIO.run_number
       (PODIO.fill_event PODIO.sample_store PODIO.CopyToJEventT PODIO.sample_headers 1
          PODIO.empty_event) = 7%Z.
Proof.
  pose proof (fill_event_numbers Z PODIO.sample_store PODIO.CopyToJEventT
                PODIO.sample_headers 1%Z PODIO.empty_event) as H.
  cbv zeta in H. destruct H as (H & _). apply (H (101, 7)%Z). reflexivity.
Defined.

(** ** The table of collection types *)

Section type_table.

Import PODIO.
Local Open Scope Z_scope.

Variable max_size : Z.

Lemma strlen_append (s t : string) : strlen (s ++ t) = strlen s + strlen t.
Proof.
  unfold strlen. induction s as [| ch s IH]; [reflexivity |].
  change (String ch s ++ t)%string with (String ch (s ++ t)).
  cbn [String.length]. lia.
Qed.

Lemma strlen_nonneg (s : string) : 0 <= strlen s.
Proof. unfold strlen. lia. Qed.

Lemma strlen_string_fill (n : nat) (ch : ascii) : strlen (string_fill n ch) = Z.of_nat n.
Proof.
  unfold strlen. induction n as [| n IH]; [reflexivity |].
  cbn [string_fill String.length]. lia.
Qed.

Lemma fold_std_max (dvs : list (string * string)) (m0 : Z) :
  let m := fold_left (fun m dv => std_max m (strlen (fst dv))) dvs m0 in
  m0 <= m
  /\ Forall (fun dv => strlen (fst dv) <= m) dvs
  /\ (m = m0 \/ Exists (fun dv => m = strlen (fst dv)) dvs).
Proof.
  revert m0. induction dvs as [| dv rest IH]; intros m0; cbn [fold_left].
  - cbv zeta. split; [lia | split; [constructor | now left]].
  - specialize (IH (std_max m0 (strlen (fst dv)))). cbv zeta in IH |- *.
    destruct IH as (Hlow & Hall & Hwhich).
    assert (Hmax : m0 <= std_max m0 (strlen (fst dv))
                   /\ strlen (fst dv) <= std_max m0 (strlen (fst dv))
                   /\ (std_max m0 (strlen (fst dv)) = m0
                       \/ std_max m0 (strlen (fst dv)) = strlen (fst dv))).
    { unfold std_max. destruct (Z.ltb_spec m0 (strlen (fst dv))); lia. }
    destruct Hmax as (Hm0 & Hdv & Hcase).
    split; [lia | split; [constructor; [lia | exact Hall] |]].
    destruct Hwhich as [Heq | Hex]; [| right; now constructor 2].
    destruct Hcase as [Hc | Hc]; [left; lia | right; constructor 1; lia].
Qed.

Lemma max_name_len_bounds (dvs : list (string * string)) :
  0 <= max_name_len dvs
  /\ Forall (fun dv => strlen (fst dv) <= max_name_len dvs) dvs
  /\ (max_name_len dvs = 0 \/ Exists (fun dv => max_name_len dvs = strlen (fst dv)) dvs).
Proof. apply (fold_std_max dvs 0). Qed.

(** The implementation's [max_size()] is at least the length of the longer
    title and stays below the largest [size_t] value by more than that. *)
Hypothesis max_size_headroom : 15 <= max_size /\ max_size + 15 < size_t_modulus.

Lemma fill_padding (width len : Z) :
  0 <= len <= width + 2 -> width + 2 <= max_size ->
  fill max_size (size_t_sub (width + 2) len) " "
  = Some (string_fill (Z.to_nat (width + 2 - len)) " ").
Proof using max_size_headroom.
  intros Hlen Hwidth. unfold fill, size_t_sub.
  rewrite Z.mod_small by (unfold size_t_modulus in *; lia).
  destruct (Z.leb_spec (width + 2 - len) max_size); [reflexivity | lia].
Qed.

Lemma fill_wraps (width len : Z) :
  0 <= width -> width + 2 < len -> len <= 15 ->
  fill max_size (size_t_sub (width + 2) len) " " = None.
Proof using max_size_headroom.
  intros Hwidth Hshort Hlen. unfold fill, size_t_sub.
  replace (width + 2 - len) with (width + 2 - len + size_t_modulus + -1 * size_t_modulus)
    by lia.
  rewrite Z_mod_plus_full.
  rewrite Z.mod_small by (unfold size_t_modulus in *; lia).
  destruct (Z.leb_spec (width + 2 - len + size_t_modulus) max_size); [lia | reflexivity].
Qed.

Lemma table_rows_padded (width : Z) (dvs : list (string * string)) :
  Forall (fun dv => strlen (fst dv) <= width) dvs ->
  width + 2 <= max_size ->
  table_rows max_size width dvs
  = Some (map (fun dv : string * string =>
                 ((fst dv ++ string_fill (Z.to_nat (width + 2 - strlen (fst dv))) " ")%string,
                  snd dv)) dvs).
Proof using max_size_headroom.
  intros Hall Hwidth. induction Hall as [| dv rest Hdv Hrest IH]; [reflexivity |].
  cbn [table_rows map]. rewrite fill_padding, IH; [reflexivity | | exact Hwidth].
  pose proof (strlen_nonneg (fst dv)). lia.
Qed.

Lemma max_name_len_fits (dvs : list (string * string)) :
  names_fit max_size dvs -> max_name_len dvs + 2 <= max_size.
Proof using max_size_headroom.
  intros Hfit. destruct (max_name_len_bounds dvs) as (_ & _ & [Hzero | Hsome]).
  - rewrite Hzero. lia.
  - unfold names_fit in Hfit. rewrite Forall_forall in Hfit.
    apply Exists_exists in Hsome as (dv & Hin & ->). now apply Hfit.
Qed.

(** What [table] returns when the header padding does not wrap. *)
Lemma table_value (title : string) (dvs : list (string * string)) :
  names_fit max_size dvs ->
  strlen title <= max_name_len dvs + 2 ->
  table max_size title dvs
  = Some ((title ++ string_fill (Z.to_nat (max_name_len dvs + 2 - strlen title)) " ",
           "Data Type"),
          string_fill (Z.to_nat (max_name_len dvs)) "-" ++ "  "
            ++ string_fill (Z.to_nat (max_name_len dvs)) "-",
          map (fun dv : string * string =>
                 (fst dv ++ string_fill (Z.to_nat (max_name_len dvs + 2 - strlen (fst dv))) " ",
                  snd dv)) dvs)%string.
Proof using max_size_headroom.
  intros Hfit Htitle. pose proof (max_name_len_fits dvs Hfit) as Hwidth.
  destruct (max_name_len_bounds dvs) as (Hpos & Hall & _).
  unfold table. rewrite fill_padding by (pose proof (strlen_nonneg title); lia).
  unfold fill at 1. destruct (Z.leb_spec (max_name_len dvs) max_size); [| lia].
  rewrite table_rows_padded by assumption. reflexivity.
Qed.

Lemma PrintCollectionTypeTable_needs_long_names_aux (title : string)
    (dvs : list (string * string)) :
  names_fit max_size dvs -> strlen title <= 15 ->
  (table max_size title dvs = None <-> max_name_len dvs + 2 < strlen title).
Proof using max_size_headroom.
  intros Hfit Htitle.
  destruct (Z.lt_ge_cases (max_name_len dvs + 2) (strlen title)) as [Hshort | Hlong].
  - split; [intros _; exact Hshort | intros _].
    unfold table. rewrite fill_wraps; [reflexivity | | exact Hshort | exact Htitle].
    apply max_name_len_bounds.
  - rewrite table_value by assumption. split; [discriminate | lia].
Qed.

(** X17: The table is printed exactly when the longest name is at most two
    characters shorter than the title of the first column; otherwise the
    padding of the header line is computed as [size_t] below zero, wraps
    around to more than [max_size()], and the call ends in a
    [std::length_error].  For the two tables of the function this means a
    data vector name of at least 13 characters and an object-id vector name
    of at least 8; a file without collections cannot be listed. *)
Theorem PrintCollectionTypeTable_needs_long_names
    (data_vectors objid_vectors : list (string * string)) :
  names_fit max_size data_vectors -> names_fit max_size objid_vectors ->
  (PrintCollectionTypeTable max_size data_vectors objid_vectors = None
   <-> max_name_len data_vectors < 13 \/ max_name_len objid_vectors < 8)
  /\ PrintCollectionTypeTable max_size [] objid_vectors = None
  /\ (forall title dvs,
        names_fit max_size dvs -> strlen title <= 15 ->
        (table max_size title dvs = None <-> max_name_len dvs + 2 < strlen title)).
Proof using max_size_headroom.
  intros Hdata Hobjid.
  pose proof PrintCollectionTypeTable_needs_long_names_aux as Htable.
  split; [| split; [| exact Htable]].
  - unfold PrintCollectionTypeTable.
    pose proof (Htable "Collection Name"%string data_vectors Hdata) as H1.
    pose proof (Htable "ObjID Name"%string objid_vectors Hobjid) as H2.
    change (strlen "Collection Name") with 15 in H1.
    change (strlen "ObjID Name") with 10 in H2.
    specialize (H1 ltac:(lia)). specialize (H2 ltac:(lia)).
    destruct (table max_size "Collection Name" data_vectors) as [t1 |].
    + destruct (table max_size "ObjID Name" objid_vectors) as [t2 |].
      * split; [discriminate |]. intros [Hd | Ho].
        -- assert (Hd' : max_name_len data_vectors + 2 < 15) by lia.
           apply H1 in Hd'. discriminate.
        -- assert (Ho' : max_name_len objid_vectors + 2 < 10) by lia.
           apply H2 in Ho'. discriminate.
      * split; [intros _; right |  reflexivity].
        assert (Hlt : max_name_len objid_vectors + 2 < 10) by now apply H2. lia.
    + split; [intros _; left | reflexivity].
      assert (Hlt : max_name_len data_vectors + 2 < 15) by now apply H1. lia.
  - unfold PrintCollectionTypeTable, table.
    change (max_name_len []) with 0. change (strlen "Collection Name") with 15.
    rewrite fill_wraps; [reflexivity | lia | lia | lia].
Qed.

(** X18: In a table that is printed the first column has one width throughout:
    the header cell and every row cell are two characters longer than the
    longest name, so the second column starts at the same place on every
    line; a row cell is the name followed by blanks only, and the second
    column holds the class names in the order of the vectors. *)
Theorem table_columns_aligned (title : string) (dvs : list (string * string))
    (header : string * string) (dashes : string) (rows : list (string * string)) :
  names_fit max_size dvs -> strlen title <= 15 ->
  table max_size title dvs = Some (header, dashes, rows) ->
  strlen (fst header) = max_name_len dvs + 2
  /\ snd header = "Data Type"%string
  /\ Forall (fun row => strlen (fst row) = max_name_len dvs + 2) rows
  /\ map snd rows = map snd dvs
  /\ Forall2 (fun dv row => exists n, fst row = (fst dv ++ string_fill n " ")%string) dvs rows
  /\ strlen dashes = 2 * max_name_len dvs + 2.
Proof using max_size_headroom.
  intros Hfit Htitle Htable.
  destruct (Z.lt_ge_cases (max_name_len dvs + 2) (strlen title)) as [Hshort | Hlong].
  - exfalso.
    destruct (PrintCollectionTypeTable_needs_long_names_aux title dvs Hfit Htitle)
      as [_ Hnone].
    rewrite (Hnone Hshort) in Htable. discriminate.
  - rewrite table_value in Htable by assumption.
    injection Htable as <- <- <-. cbn [fst snd].
    destruct (max_name_len_bounds dvs) as (Hpos & Hall & _).
    pose proof (strlen_nonneg title) as Htpos.
    split; [| split; [reflexivity | split; [| split; [| split]]]].
    + rewrite strlen_append, strlen_string_fill. lia.
    + rewrite Forall_forall in Hall |- *. intros row Hrow.
      apply list_elem_of_In, in_map_iff in Hrow as (dv & <- & Hdv). cbn [fst].
      apply list_elem_of_In in Hdv.
      rewrite strlen_append, strlen_string_fill.
      specialize (Hall dv Hdv). pose proof (strlen_nonneg (fst dv)). lia.
    + rewrite map_map. reflexivity.
    + clear Hfit Hlong Hall Hpos Htpos Htitle. generalize (max_name_len dvs). intros w.
      induction dvs as [| dv rest IH]; cbn [map]; constructor; [| exact IH].
      cbn [fst]. eexists. reflexivity.
    + rewrite !strlen_append, !strlen_string_fill. change (strlen "  ") with 2. lia.
Qed.

End type_table.

Lemma PrintCollectionTypeTable_needs_long_names_witness :
  PODIO.PrintCollectionTypeTable (2 ^ 62) (PODIO.file_data_vectors PODIO.sample_file)
    (PODIO.file_objid_vectors PODIO.sample_file) = None
  <-> (PODIO.max_name_len (PODIO.file_data_vectors PODIO.sample_file) < 13)%Z
      \/ (PODIO.max_name_len (PODIO.file_objid_vectors PODIO.sample_file) < 8)%Z.
Proof.
  destruct (PrintCollectionTypeTable_needs_long_names (2 ^ 62)%Z
              ltac:(unfold PODIO.size_t_modulus; lia)
              (PODIO.file_data_vectors PODIO.sample_file)
              (PODIO.file_objid_vectors PODIO.sample_file)) as (H & _).
  - unfold PODIO.names_fit. cbn. repeat constructor; vm_compute; discriminate.
  - unfold PODIO.names_fit. cbn. repeat constructor; vm_compute; discriminate.
  - exact H.
Defined.

Lemma table_columns_aligned_witness :
  PODIO.strlen "Collection Name " = (14 + 2)%Z
  /\ Forall (fun row : string * string => PODIO.strlen (fst row) = (14 + 2)%Z)
       [("EventHeader     ", "vector<edm4hep::EventHeaderData>");
        ("EcalBarrelHits  ", "vector<edm4hep::SimCalorimeterHitData>")]%string.
Proof.
  destruct (table_columns_aligned (2 ^ 62)%Z ltac:(unfold PODIO.size_t_modulus; lia)
              "Collection Name" (PODIO.file_data_vectors PODIO.sample_file)
              ("Collection Name ", "Data Type")%string
              "--------------  --------------"
              [("EventHeader     ", "vector<edm4hep::EventHeaderData>");
               ("EcalBarrelHits  ", "vector<edm4hep::SimCalorimeterHitData>")]%string)
    as (Hheader & _ & Hrows & _).
  - unfold PODIO.names_fit. cbn. repeat constructor; vm_compute; discriminate.
  - vm_compute. discriminate.
  - vm_compute. reflexivity.
  - split; [exact Hheader | exact Hrows].
Defined.

(** ** Opening a file *)

Section opening.

Import PODIO.
Local Open Scope Z_scope.

Variable max_size : Z.
Variable build_version : Version.
Variable length_error_what : string.
Variable user : user_parameters.
Variable file : root_file.

Local Abbreviation Open' := (Open max_size build_version length_error_what user file).
Local Abbreviation try_block' := (try_block max_size build_version length_error_what file).
Local Abbreviation table_on_reader :=
  (PrintCollectionTypeTable_on_reader max_size length_error_what file).
Local Abbreviation print_type_table := (SetDefaultParameter (PRINT_TYPE_TABLE user) false).

(** The members a step leaves alone when it only talks to the reader and
    the log. *)
Local Abbreviation same_members s s' :=
  (resource_name s' = resource_name s
   /\ m_INPUT_INCLUDE_COLLECTIONS s' = m_INPUT_INCLUDE_COLLECTIONS s
   /\ m_INPUT_EXCLUDE_COLLECTIONS s' = m_INPUT_EXCLUDE_COLLECTIONS s
   /\ run_forever s' = run_forever s
   /\ Nevents_in_file s' = Nevents_in_file s
   /\ Nevents_read s' = Nevents_read s
   /\ quit_called s' = quit_called s).

Lemma enable_collections_calls (names : list string) (s : JEventSourcePODIO) :
  let s' := fold_left (enable_collection file) names s in
  reader_calls s' = reader_calls s ++ map (fun n => call_SetBranchStatus n true) names
  /\ same_members s s'.
Proof.
  revert s. induction names as [| name rest IH]; intros s; cbn [fold_left map].
  - rewrite app_nil_r. repeat split.
  - destruct (IH (enable_collection file s name)) as (Hcalls & Hr & Hi & He & Hf & Hn & Hd & Hq).
    cbv zeta in *. rewrite Hcalls, Hr, Hi, He, Hf, Hn, Hd, Hq.
    unfold enable_collection. destruct (branches_found file name =? 0); cbn;
      rewrite <- app_assoc; repeat split.
Qed.

Lemma disable_collections_calls (names : list string) (s : JEventSourcePODIO) :
  let s' := fold_left (disable_collection file) names s in
  reader_calls s' = reader_calls s ++ map (fun n => call_SetBranchStatus n false) names
  /\ same_members s s'.
Proof.
  revert s. induction names as [| name rest IH]; intros s; cbn [fold_left map].
  - rewrite app_nil_r. repeat split.
  - destruct (IH (disable_collection file s name)) as (Hcalls & Hr & Hi & He & Hf & Hn & Hd & Hq).
    cbv zeta in *. rewrite Hcalls, Hr, Hi, He, Hf, Hn, Hd, Hq.
    unfold disable_collection. destruct (branches_found file name =? 0); cbn;
      rewrite <- app_assoc; repeat split.
Qed.

(** The walk over a set visits its names, each once, in ascending order. *)
Lemma in_order_names (names : gset string) :
  Sorted (fun x y : string => String.leb x y) (in_order names)
  /\ NoDup (in_order names)
  /\ (forall n, n ∈ in_order names <-> n ∈ names)
  /\ (names = ∅ -> in_order names = []).
Proof.
  assert (Htotal : Total (fun x y : string => Is_true (String.leb x y))).
  { intros x y. destruct (String.leb_total x y) as [H | H]; rewrite H; [left | right]; exact I. }
  unfold in_order. split; [apply (Sorted_merge_sort _) | split; [| split]].
  - rewrite merge_sort_Permutation. apply NoDup_elements.
  - intros n. rewrite merge_sort_Permutation. apply elem_of_elements.
  - intros ->. rewrite elements_empty. reflexivity.
Qed.

(** The calls the two blocks at the end of [Open] make on the reader. *)
Lemma set_branch_statuses_calls (s : JEventSourcePODIO) :
  let s' := set_branch_statuses file s in
  reader_calls s' =
    reader_calls s
      ++ (if decide (m_INPUT_INCLUDE_COLLECTIONS s = ∅) then []
          else call_SetBranchStatus "*" false
                 :: map (fun n => call_SetBranchStatus n true)
                      (in_order (m_INPUT_INCLUDE_COLLECTIONS s)))
      ++ map (fun n => call_SetBranchStatus n false)
           (in_order (m_INPUT_EXCLUDE_COLLECTIONS s))
  /\ same_members s s'.
Proof.
  cbv zeta. unfold set_branch_statuses.
  set (s1 := if decide (m_INPUT_INCLUDE_COLLECTIONS s = ∅) then s
             else fold_left (enable_collection file)
                    (in_order (m_INPUT_INCLUDE_COLLECTIONS s))
                    (call_reader (call_SetBranchStatus "*" false) s)).
  assert (H1 : reader_calls s1 =
                 reader_calls s
                   ++ (if decide (m_INPUT_INCLUDE_COLLECTIONS s = ∅) then []
                       else call_SetBranchStatus "*" false
                              :: map (fun n => call_SetBranchStatus n true)
                                   (in_order (m_INPUT_INCLUDE_COLLECTIONS s)))
               /\ same_members s s1).
  { unfold s1. destruct (decide (m_INPUT_INCLUDE_COLLECTIONS s = ∅)) as [Hempty | Hsome].
    - rewrite app_nil_r. repeat split.
    - destruct (enable_collections_calls (in_order (m_INPUT_INCLUDE_COLLECTIONS s))
                  (call_reader (call_SetBranchStatus "*" false) s))
        as (Hcalls & Hr & Hi & He & Hf & Hn & Hd & Hq).
      cbv zeta in *. rewrite Hcalls, Hr, Hi, He, Hf, Hn, Hd, Hq. cbn.
      rewrite <- app_assoc. repeat split. }
  clearbody s1. destruct H1 as (Hcalls1 & Hr1 & Hi1 & He1 & Hf1 & Hn1 & Hd1 & Hq1).
  rewrite He1.
  destruct (decide (m_INPUT_EXCLUDE_COLLECTIONS s = ∅)) as [Hempty | Hsome].
  - destruct (in_order_names (m_INPUT_EXCLUDE_COLLECTIONS s)) as (_ & _ & _ & Hnil).
    rewrite Hcalls1, (Hnil Hempty). cbn [map]. rewrite app_nil_r.
    repeat split; assumption.
  - destruct (disable_collections_calls (in_order (m_INPUT_EXCLUDE_COLLECTIONS s)) s1)
      as (Hcalls & Hr & Hi & He & Hf & Hn & Hd & Hq).
    cbv zeta in *. rewrite Hcalls, Hr, Hi, He, Hf, Hn, Hd, Hq, Hcalls1.
    rewrite <- app_assoc. repeat split; assumption.
Qed.

(** Queries handed to the reader one after the other. *)
Lemma queries_calls (queries : list reader_call) (s : JEventSourcePODIO) :
  let s' := fold_left (fun s query => call_reader query s) queries s in
  reader_calls s' = reader_calls s ++ queries /\ same_members s s'.
Proof.
  revert s. induction queries as [| query rest IH]; intros s; cbn [fold_left].
  - rewrite app_nil_r. repeat split.
  - destruct (IH (call_reader query s)) as (Hcalls & Hr & Hi & He & Hf & Hn & Hd & Hq).
    cbv zeta in *. rewrite Hcalls, Hr, Hi, He, Hf, Hn, Hd, Hq. cbn.
    rewrite <- app_assoc. repeat split.
Qed.

(** A table that is printed was asked for its vectors twice. *)
Lemma table_queries_printed (query : reader_call) (title : string)
    (dvs : list (string * string)) :
  table max_size title dvs <> None ->
  table_queries max_size query title dvs = [query; query].
Proof.
  unfold table, table_queries.
  destruct (fill max_size (size_t_sub (max_name_len dvs + 2) (strlen title)) " ");
    [| intros H; now destruct H].
  destruct (fill max_size (max_name_len dvs) "-"); [reflexivity | intros H; now destruct H].
Qed.

(** The type table on the reader: only queries are made, and the lines are
    printed exactly when both queries answer and no padding throws. *)
Lemma table_on_reader_outcome :
  forallb is_query (fst table_on_reader) = true
  /\ (forall lines,
        snd table_on_reader = inr lines
        <-> data_vectors_exception file = None
            /\ objid_vectors_exception file = None
            /\ PrintCollectionTypeTable max_size (file_data_vectors file)
                 (file_objid_vectors file) = Some lines)
  /\ (forall lines,
        snd table_on_reader = inr lines ->
        fst table_on_reader
        = [call_GetDataVectors; call_GetDataVectors;
           call_GetObjIDVectors; call_GetObjIDVectors]).
Proof.
  unfold PrintCollectionTypeTable_on_reader.
  assert (Hq : forall query title dvs,
            is_query query = true ->
            forallb is_query (table_queries max_size query title dvs) = true).
  { intros query title dvs Hquery. unfold table_queries.
    destruct (fill max_size _ " "); [destruct (fill max_size _ "-") |];
      cbn; rewrite ?Hquery; reflexivity. }
  destruct (data_vectors_exception file) as [what |].
  { split; [reflexivity |]. split; [| discriminate].
    intros lines. split; [discriminate | intros (Hno & _); discriminate]. }
  destruct (table max_size "Collection Name" (file_data_vectors file))
    as [collections |] eqn:Hfirst.
  2:{ cbn [fst snd]. split; [now apply Hq |]. split; [| discriminate].
      intros lines. split; [discriminate | intros (_ & _ & Hprinted)].
      unfold PrintCollectionTypeTable in Hprinted. rewrite Hfirst in Hprinted.
      discriminate. }
  assert (Hfirst_queries :
            table_queries max_size call_GetDataVectors "Collection Name"
              (file_data_vectors file) = [call_GetDataVectors; call_GetDataVectors]).
  { apply table_queries_printed. rewrite Hfirst. discriminate. }
  rewrite Hfirst_queries.
  destruct (objid_vectors_exception file) as [what |].
  { split; [reflexivity |]. split; [| discriminate].
    intros lines. split; [discriminate | intros (_ & Hno & _); discriminate]. }
  destruct (PrintCollectionTypeTable max_size (file_data_vectors file)
              (file_objid_vectors file)) as [printed |] eqn:Hprinted; cbn [fst snd].
  - assert (Hsecond : table max_size "ObjID Name" (file_objid_vectors file) <> None).
    { unfold PrintCollectionTypeTable in Hprinted. rewrite Hfirst in Hprinted.
      destruct (table max_size "ObjID Name" (file_objid_vectors file)); discriminate. }
    rewrite (table_queries_printed _ _ _ Hsecond).
    split; [reflexivity |]. split; [| reflexivity].
    intros lines. split.
    + intros [= <-]. repeat split.
    + intros (_ & _ & [= <-]). reflexivity.
  - split.
    + rewrite forallb_app. cbn. now rewrite Hq.
    + split; [| discriminate].
      intros lines. split; [discriminate | intros (_ & _ & Habs); discriminate].
Qed.

(** The [try] block: what the reader has seen when control leaves it, and
    how it leaves. *)
Lemma try_block_calls (print : bool) (s : JEventSourcePODIO) :
  let s1 := fst (try_block' print s) in
  let outcome := snd (try_block' print s) in
  (exists queries,
      reader_calls s1 = reader_calls s ++ call_OpenFile (resource_name s) :: queries
      /\ forallb is_query queries = true
      /\ (outcome = completed ->
          queries
          = [call_GetPodioVersion; call_GetNumEvents]
              ++ (if print then fst table_on_reader else [])))
  /\ resource_name s1 = resource_name s
  /\ m_INPUT_INCLUDE_COLLECTIONS s1 = m_INPUT_INCLUDE_COLLECTIONS s
  /\ m_INPUT_EXCLUDE_COLLECTIONS s1 = m_INPUT_EXCLUDE_COLLECTIONS s
  /\ run_forever s1 = run_forever s
  /\ Nevents_read s1 = Nevents_read s
  /\ quit_called s1
     = (quit_called s || match outcome with returned => true | _ => false end)%bool.
Proof.
  cbv zeta. unfold try_block.
  destruct (open_exception file) as [what |].
  { split; [exists []; cbn; repeat split; discriminate
           | cbn; rewrite orb_false_r; repeat split]. }
  destruct (version_exception file) as [what |].
  { split; [exists [call_GetPodioVersion]; cbn; rewrite <- app_assoc;
            repeat split; discriminate
           | cbn; rewrite orb_false_r; repeat split]. }
  destruct (version_mismatch (file_version file) build_version).
  { split; [exists [call_GetPodioVersion]; cbn; rewrite <- app_assoc;
            repeat split; discriminate
           | cbn; rewrite orb_true_r; repeat split]. }
  destruct (events_exception file) as [what |].
  { split; [exists [call_GetPodioVersion; call_GetNumEvents]; cbn;
            rewrite <- !app_assoc; repeat split; discriminate
           | cbn; rewrite orb_false_r; repeat split]. }
  destruct print.
  2:{ split; [exists [call_GetPodioVersion; call_GetNumEvents]; cbn;
              rewrite <- !app_assoc; repeat split
             | cbn; rewrite orb_false_r; repeat split]. }
  destruct table_on_reader_outcome as (Hqueries & _ & _).
  destruct table_on_reader as [queries result].
  set (s0 := log_line _ (set_Nevents_in_file _ (call_reader call_GetNumEvents _))).
  destruct (queries_calls queries s0) as (Hcalls & Hr & Hi & He & Hf & _ & Hd & Hq).
  cbv zeta in *. cbn [fst snd] in *.
  assert (Hbase : reader_calls s0
                  = reader_calls s ++ call_OpenFile (resource_name s)
                      :: [call_GetPodioVersion; call_GetNumEvents]).
  { unfold s0. cbn. rewrite <- !app_assoc. reflexivity. }
  destruct result as [what | lines]; cbn [fst snd reader_calls log_line resource_name
    m_INPUT_INCLUDE_COLLECTIONS m_INPUT_EXCLUDE_COLLECTIONS run_forever Nevents_read
    quit_called]; rewrite Hcalls, Hr, Hi, He, Hf, Hd, Hq, Hbase, orb_false_r, <- app_assoc;
    (split; [exists ([call_GetPodioVersion; call_GetNumEvents] ++ queries);
             split; [reflexivity | split; [exact Hqueries | first [discriminate | reflexivity]]]
            | unfold s0; repeat split]).
Qed.

(** The [try] block is left at its end exactly when every call made in it
    answers, the version is accepted and, if the table is asked for, it is
    printed; the number of events is taken over once [GetNumEvents] has
    answered. *)
Lemma try_block_completed (print : bool) (s : JEventSourcePODIO) :
  let s1 := fst (try_block' print s) in
  let outcome := snd (try_block' print s) in
  let counted :=
    open_exception file = None /\ version_exception file = None
    /\ version_mismatch (file_version file) build_version = false
    /\ events_exception file = None in
  (outcome = completed
   <-> counted
       /\ (print = true ->
           data_vectors_exception file = None
           /\ objid_vectors_exception file = None
           /\ PrintCollectionTypeTable max_size (file_data_vectors file)
                (file_objid_vectors file) <> None))
  /\ (counted -> Nevents_in_file s1 = file_events file)
  /\ (~ counted -> Nevents_in_file s1 = Nevents_in_file s).
Proof.
  cbv zeta. unfold try_block.
  destruct (open_exception file) as [what |].
  { cbn. split; [split; [discriminate | intros ((H & _) & _); discriminate] |].
    split; [intros (H & _); discriminate | reflexivity]. }
  destruct (version_exception file) as [what |].
  { cbn. split; [split; [discriminate | intros ((_ & H & _) & _); discriminate] |].
    split; [intros (_ & H & _); discriminate | reflexivity]. }
  destruct (version_mismatch (file_version file) build_version).
  { cbn. split; [split; [discriminate | intros ((_ & _ & H & _) & _); discriminate] |].
    split; [intros (_ & _ & H & _); discriminate | reflexivity]. }
  destruct (events_exception file) as [what |].
  { cbn. split; [split; [discriminate | intros ((_ & _ & _ & H) & _); discriminate] |].
    split; [intros (_ & _ & _ & H); discriminate | reflexivity]. }
  assert (Hcounted : @None string = None /\ @None string = None /\ false = false
                     /\ @None string = None) by repeat split.
  destruct print.
  2:{ cbn. split; [split; [intros _; split; [exact Hcounted | discriminate] | reflexivity] |].
      split; [reflexivity | intros Hnot; now destruct Hnot]. }
  destruct table_on_reader_outcome as (_ & Hprinted & _).
  destruct table_on_reader as [queries result].
  set (s0 := log_line _ (set_Nevents_in_file _ (call_reader call_GetNumEvents _))).
  destruct (queries_calls queries s0) as (_ & _ & _ & _ & _ & Hn & _).
  cbv zeta in *. cbn [fst snd] in *.
  assert (Hevents : Nevents_in_file s0 = file_events file) by reflexivity.
  destruct result as [what | lines]; cbn [fst snd Nevents_in_file log_line].
  - split; [split; [discriminate |] |].
    + intros (_ & Htable). destruct (Htable eq_refl) as (Hdv & Hov & Hsome).
      destruct (PrintCollectionTypeTable max_size (file_data_vectors file)
                  (file_objid_vectors file)) as [lines |]; [| now destruct Hsome].
      assert (Habs : @inl string (list string) what = inr lines)
        by (apply Hprinted; repeat split; assumption).
      discriminate.
    + rewrite Hn, Hevents. split; [reflexivity | intros Hnot; now destruct Hnot].
  - split; [split; [intros _; split; [exact Hcounted |] | reflexivity] |].
    + intros _. destruct (Hprinted lines) as [Hto _].
      destruct (Hto eq_refl) as (Hdv & Hov & Hsome). rewrite Hsome.
      repeat split; try assumption. discriminate.
    + rewrite Hn, Hevents. split; [reflexivity | intros Hnot; now destruct Hnot].
Qed.

(** [Open] in terms of its [try] block. *)
Lemma Open_try_block (s : JEventSourcePODIO) :
  let s0 :=
    set_parameters
      (SetDefaultParameter (INPUT_INCLUDE_COLLECTIONS user) (m_include_collections_str s))
      (SetDefaultParameter (INPUT_EXCLUDE_COLLECTIONS user) (m_exclude_collections_str s))
      (SetDefaultParameter (RUN_FOREVER user) (run_forever s)) s in
  Open' s
  = match snd (try_block' print_type_table s0) with
    | thrown what =>
        problem_opening what (fst (try_block' print_type_table s0))
    | returned => fst (try_block' print_type_table s0)
    | completed => set_branch_statuses file (fst (try_block' print_type_table s0))
    end.
Proof.
  cbv zeta. unfold Open.
  destruct (try_block' _ _) as [s1 [what | |]]; reflexivity.
Qed.

(** An [Open] that does not quit left the [try] block at its end. *)
Lemma Open_not_quit (s : JEventSourcePODIO) :
  quit_called (Open' s) = false ->
  let s0 :=
    set_parameters
      (SetDefaultParameter (INPUT_INCLUDE_COLLECTIONS user) (m_include_collections_str s))
      (SetDefaultParameter (INPUT_EXCLUDE_COLLECTIONS user) (m_exclude_collections_str s))
      (SetDefaultParameter (RUN_FOREVER user) (run_forever s)) s in
  snd (try_block' print_type_table s0) = completed
  /\ Open' s = set_branch_statuses file (fst (try_block' print_type_table s0)).
Proof.
  intros Hopened. cbv zeta. rewrite Open_try_block in Hopened |- *. cbv zeta in *.
  destruct (try_block_calls print_type_table
              (set_parameters
                 (SetDefaultParameter (INPUT_INCLUDE_COLLECTIONS user)
                    (m_include_collections_str s))
                 (SetDefaultParameter (INPUT_EXCLUDE_COLLECTIONS user)
                    (m_exclude_collections_str s))
                 (SetDefaultParameter (RUN_FOREVER user) (run_forever s)) s))
    as (_ & _ & _ & _ & _ & _ & Hq).
  cbv zeta in Hq.
  destruct (snd (try_block' _ _)) as [what | |].
  - discriminate Hopened.
  - rewrite Hq, orb_true_r in Hopened. discriminate.
  - split; reflexivity.
Qed.

(** X19: [Open] goes on to the branch statuses exactly when every call made on
    the reader in the [try] block answers ([OpenFile], [GetPodioVersion],
    [GetNumEvents] and, if the type table is asked for, the two vector
    queries), the file is not of a newer PODIO than the executable, and the
    table, if asked for, is printed without a [std::length_error]; in every
    other case it calls [Quit].  When it calls [Quit] the reader has seen
    [OpenFile] and after it queries only, so no branch status was set.  The
    number of events is taken from the file once [GetNumEvents] has
    answered, hence also when the table throws afterwards, and is left as
    it was otherwise; the count of events read is never touched. *)
Theorem Open_quits (s : JEventSourcePODIO) :
  quit_called s = false ->
  let counted :=
    open_exception file = None /\ version_exception file = None
    /\ version_mismatch (file_version file) build_version = false
    /\ events_exception file = None in
  (quit_called (Open' s) = false
   <-> counted
       /\ (print_type_table = true ->
           data_vectors_exception file = None
           /\ objid_vectors_exception file = None
           /\ PrintCollectionTypeTable max_size (file_data_vectors file)
                (file_objid_vectors file) <> None))
  /\ (quit_called (Open' s) = true ->
      exists queries,
        reader_calls (Open' s)
        = reader_calls s ++ call_OpenFile (resource_name s) :: queries
        /\ Forall (fun call => is_query call = true) queries)
  /\ (counted -> Nevents_in_file (Open' s) = file_events file)
  /\ (~ counted -> Nevents_in_file (Open' s) = Nevents_in_file s)
  /\ Nevents_read (Open' s) = Nevents_read s.
Proof.
  intros Hquit. cbv zeta. rewrite Open_try_block. cbv zeta.
  set (s0 := set_parameters _ _ _ s).
  destruct (try_block_calls print_type_table s0)
    as ((queries & Hcalls & Hqueries & _) & _ & _ & _ & _ & Hread & Hq).
  destruct (try_block_completed print_type_table s0) as (Hiff & Hcounted & Hnot).
  cbv zeta in *.
  change (quit_called s0) with (quit_called s) in Hq. rewrite Hquit in Hq.
  change (Nevents_read s0) with (Nevents_read s) in Hread.
  change (Nevents_in_file s0) with (Nevents_in_file s) in Hnot.
  change (reader_calls s0) with (reader_calls s) in Hcalls.
  change (resource_name s0) with (resource_name s) in Hcalls.
  assert (Hforall : Forall (fun call => is_query call = true) queries).
  { apply Forall_forall. intros call Hcall.
    rewrite forallb_forall in Hqueries. apply Hqueries. now apply list_elem_of_In. }
  destruct (snd (try_block' print_type_table s0)) as [what | |] eqn:Houtcome.
  - cbn [problem_opening Quit log_line quit_called reader_calls Nevents_in_file
         Nevents_read].
    split; [split; [discriminate | intros Hall; apply Hiff in Hall; discriminate] |].
    split; [intros _; exists queries; split; assumption |].
    split; [exact Hcounted | split; [exact Hnot | exact Hread]].
  - cbn [orb] in Hq.
    split; [split; [rewrite Hq; discriminate
                   | intros Hall; apply Hiff in Hall; discriminate] |].
    split; [intros _; exists queries; split; assumption |].
    split; [exact Hcounted | split; [exact Hnot | exact Hread]].
  - destruct (set_branch_statuses_calls (fst (try_block' print_type_table s0)))
      as (_ & _ & _ & _ & _ & Hn' & Hd' & Hq').
    cbv zeta in *. rewrite Hq', Hq, Hn', Hd'. cbn [orb].
    split; [split; [intros _; now apply Hiff | reflexivity] |].
    split; [discriminate |].
    split; [exact Hcounted | split; [exact Hnot | exact Hread]].
Qed.

(** ** Branch statuses *)

Variable matches : string -> string -> bool.

Lemma branch_status_app (calls more : list reader_call) (initial : bool) (branch : string) :
  branch_status matches (calls ++ more) initial branch
  = branch_status matches more (branch_status matches calls initial branch) branch.
Proof. unfold branch_status. apply fold_left_app. Qed.

Lemma branch_status_set_all (names : list string) (new_status initial : bool)
    (branch : string) :
  branch_status matches (map (fun n => call_SetBranchStatus n new_status) names)
    initial branch
  = if existsb (fun n => matches n branch) names then new_status else initial.
Proof.
  revert initial. induction names as [| name rest IH]; intros initial; [reflexivity |].
  cbn [map existsb]. change (branch_status matches (?c :: ?l) initial branch)
    with (branch_status matches l
            (match c with
             | call_SetBranchStatus brname st => if matches brname branch then st else initial
             | _ => initial
             end) branch).
  cbn match. rewrite IH. destruct (matches name branch); cbn [orb]; [| reflexivity].
  now destruct (existsb (fun n => matches n branch) rest).
Qed.

(** Calls that are not [SetBranchStatus] leave every status as it is. *)
Lemma branch_status_queries (calls : list reader_call) (initial : bool) (branch : string) :
  Forall (fun call => forall brname status, call <> call_SetBranchStatus brname status)
    calls ->
  branch_status matches calls initial branch = initial.
Proof.
  intros Hcalls. revert initial.
  induction Hcalls as [| call rest Hcall _ IH]; intros initial; [reflexivity |].
  change (branch_status matches (call :: rest) initial branch)
    with (branch_status matches rest
            (match call with
             | call_SetBranchStatus brname st => if matches brname branch then st else initial
             | _ => initial
             end) branch).
  rewrite IH. destruct call; try reflexivity. now destruct (Hcall brname status).
Qed.

Lemma existsb_in_order (names : gset string) (branch : string) :
  existsb (fun n => matches n branch) (in_order names) = true
  <-> exists n, n ∈ names /\ matches n branch = true.
Proof.
  destruct (in_order_names names) as (_ & _ & Hin & _).
  rewrite existsb_exists. split; intros (n & Hn & Hmatch); exists n; split; try exact Hmatch.
  - now apply Hin, list_elem_of_In.
  - now apply list_elem_of_In, Hin.
Qed.

(** X20: After an [Open] that did not quit, the calls made on the reader leave
    each branch in a status fixed by the two sets alone, in whatever order
    the sets are walked: a branch that an excluded name matches is off,
    also when an included name matches it; any other branch that an
    included name matches is on; when names are included, a branch that
    none of them matches is off if ["*"] matches it; and without included
    names a branch that no excluded name matches keeps its status. *)
Theorem Open_branch_statuses (s : JEventSourcePODIO) (branch : string) (initial : bool) :
  quit_called s = false ->
  quit_called (Open' s) = false ->
  let status := branch_status matches (reader_calls (Open' s)) initial branch in
  let before := branch_status matches (reader_calls s) initial branch in
  let included :=
    exists n, n ∈ m_INPUT_INCLUDE_COLLECTIONS (Open' s) /\ matches n branch = true in
  let excluded :=
    exists n, n ∈ m_INPUT_EXCLUDE_COLLECTIONS (Open' s) /\ matches n branch = true in
  (excluded -> status = false)
  /\ (~ excluded -> included -> status = true)
  /\ (~ excluded -> ~ included -> m_INPUT_INCLUDE_COLLECTIONS (Open' s) <> ∅ ->
      status = if matches "*" branch then false else before)
  /\ (~ excluded -> m_INPUT_INCLUDE_COLLECTIONS (Open' s) = ∅ -> status = before).
Proof.
  intros Hquit Hopened. cbv zeta.
  destruct (Open_not_quit s Hopened) as (_ & Hs1). cbv zeta in Hs1.
  set (s0 := set_parameters _ _ _ s) in Hs1.
  destruct (try_block_calls print_type_table s0)
    as ((queries & Hcalls1 & Hqueries & _) & _ & _ & _ & _ & _ & _).
  cbv zeta in Hcalls1.
  change (reader_calls s0) with (reader_calls s) in Hcalls1.
  set (s1 := fst (try_block' print_type_table s0)) in *.
  destruct (set_branch_statuses_calls s1) as (Hcalls & _ & Hinc & Hexc & _).
  cbv zeta in *. rewrite Hs1, Hcalls, Hinc, Hexc, Hcalls1.
  set (inc := m_INPUT_INCLUDE_COLLECTIONS s1). set (exc := m_INPUT_EXCLUDE_COLLECTIONS s1).
  rewrite <- !app_assoc, !branch_status_app, (branch_status_set_all (in_order exc)).
  assert (Hquiet : forall b,
            branch_status matches (call_OpenFile (resource_name s0) :: queries) b branch = b).
  { intros b. apply branch_status_queries. constructor; [discriminate |].
    apply Forall_forall. intros call Hcall brname status ->.
    rewrite forallb_forall in Hqueries.
    specialize (Hqueries _ (proj1 (list_elem_of_In _ _) Hcall)). discriminate. }
  rewrite Hquiet.
  pose proof (existsb_in_order exc branch) as Hexcb.
  pose proof (existsb_in_order inc branch) as Hincb.
  destruct (existsb (fun n => matches n branch) (in_order exc)).
  { split; [reflexivity |].
    assert (Hex : exists n, n ∈ exc /\ matches n branch = true) by now apply Hexcb.
    split; [intros Hnot; now destruct Hnot |].
    split; intros Hnot; now destruct Hnot. }
  split; [intros Hex; apply Hexcb in Hex; discriminate |].
  destruct (decide (inc = ∅)) as [Hempty | Hsome].
  - split; [| split; [intros _ _ Hne; now destruct Hne | reflexivity]].
    intros _ (n & Hin & _). rewrite Hempty in Hin. now apply not_elem_of_empty in Hin.
  - change (branch_status matches (call_SetBranchStatus "*" false :: ?l) ?b branch)
      with (branch_status matches l (if matches "*"%string branch then false else b) branch).
    rewrite (branch_status_set_all (in_order inc)).
    destruct (existsb (fun n => matches n branch) (in_order inc)).
    + split; [reflexivity |]. split; [| intros _ Hempty; now destruct Hsome].
      intros _ Hnot. destruct Hnot. now apply Hincb.
    + split; [intros _ Hin; apply Hincb in Hin; discriminate |].
      split; [reflexivity | intros _ Hempty; now destruct Hsome].
Qed.

(** ** Opening and reading *)

Variable Tdata : Type.
Variable counter_modulus : Z.
Variable reader_GetEvent : Z -> EICEventStore Tdata.
Variable CopyToJEvent :
  DataVectorT Tdata -> JEvent Tdata -> list (Obj Tdata) -> JEvent Tdata * list (Obj Tdata).
Variable Get_EventHeader : JEvent Tdata -> list (Z * Z).

(** X21: A source that has read nothing, whose [Open] does not quit and which
    is not set to run forever delivers, call after call, each entry of the
    file once and in order, then throws [kNO_MORE_EVENTS].  The reader sees
    [OpenFile], then the queries [GetPodioVersion] and [GetNumEvents] and,
    if the type table is printed, the two vector queries twice each, then
    the branch statuses, walked over each set in ascending order of the
    names, then one [GetEvent] per entry, and [CloseFile] last. *)
Theorem Open_then_GetEvents (s : JEventSourcePODIO) (fresh : JEvent Tdata) (n : nat) :
  quit_called s = false ->
  Nevents_read s = 0 ->
  quit_called (Open' s) = false ->
  run_forever (Open' s) = false ->
  0 <= file_events file < counter_modulus ->
  (Z.to_nat (file_events file) < n)%nat ->
  exists s' statuses,
    GetEvents counter_modulus reader_GetEvent CopyToJEvent Get_EventHeader n fresh (Open' s)
    = (map (fun k => fill_event reader_GetEvent CopyToJEvent Get_EventHeader
                       (Z.of_nat k) fresh)
         (seq 0 (Z.to_nat (file_events file))),
       s', Some kNO_MORE_EVENTS)
    /\ reader_calls s'
       = reader_calls s
           ++ [call_OpenFile (resource_name s); call_GetPodioVersion; call_GetNumEvents]
           ++ (if print_type_table
               then [call_GetDataVectors; call_GetDataVectors;
                     call_GetObjIDVectors; call_GetObjIDVectors]
               else [])
           ++ statuses
           ++ map (fun k => call_GetEvent (Z.of_nat k)) (seq 0 (Z.to_nat (file_events file)))
           ++ [call_CloseFile]
    /\ statuses
       = (if decide (m_INPUT_INCLUDE_COLLECTIONS (Open' s) = ∅) then []
          else call_SetBranchStatus "*" false
                 :: map (fun name => call_SetBranchStatus name true)
                      (in_order (m_INPUT_INCLUDE_COLLECTIONS (Open' s))))
           ++ map (fun name => call_SetBranchStatus name false)
                (in_order (m_INPUT_EXCLUDE_COLLECTIONS (Open' s)))
    /\ Sorted (fun x y : string => String.leb x y)
         (in_order (m_INPUT_INCLUDE_COLLECTIONS (Open' s)))
    /\ Sorted (fun x y : string => String.leb x y)
         (in_order (m_INPUT_EXCLUDE_COLLECTIONS (Open' s))).
Proof.
  intros Hquit Hread Hopened Hforever Hevents Hn.
  destruct (Open_not_quit s Hopened) as (Hcompleted & Hs1). cbv zeta in Hcompleted, Hs1.
  set (s0 := set_parameters _ _ _ s) in Hcompleted, Hs1.
  destruct (try_block_calls print_type_table s0)
    as ((queries & Hcalls1 & _ & Hqueries) & _ & _ & _ & _ & Hread1 & _).
  destruct (try_block_completed print_type_table s0) as (Hiff & Hcounted & _).
  cbv zeta in *.
  change (reader_calls s0) with (reader_calls s) in Hcalls1.
  change (resource_name s0) with (resource_name s) in Hcalls1.
  change (Nevents_read s0) with (Nevents_read s) in Hread1.
  specialize (Hqueries Hcompleted).
  destruct (proj1 Hiff Hcompleted) as (Hall & Htable).
  specialize (Hcounted Hall).
  set (s1 := fst (try_block' print_type_table s0)) in *.
  destruct (set_branch_statuses_calls s1)
    as (Hstatuses & _ & Hinc & Hexc & _ & Hfile & Hread' & _).
  cbv zeta in Hstatuses, Hinc, Hexc, Hfile, Hread'.
  rewrite <- Hs1 in Hstatuses, Hinc, Hexc, Hfile, Hread'.
  rewrite Hcounted in Hfile. rewrite Hread1, Hread in Hread'.
  assert (Htable_queries :
            (if print_type_table then fst table_on_reader else [])
            = (if print_type_table
               then [call_GetDataVectors; call_GetDataVectors;
                     call_GetObjIDVectors; call_GetObjIDVectors]
               else [])).
  { destruct print_type_table; [| reflexivity].
    destruct (Htable eq_refl) as (Hdv & Hov & Hsome).
    destruct table_on_reader_outcome as (_ & Hprinted & Hfour).
    destruct (PrintCollectionTypeTable max_size (file_data_vectors file)
                (file_objid_vectors file)) as [lines |] eqn:Hlines; [| now destruct Hsome].
    apply (Hfour lines). apply Hprinted. repeat split; assumption. }
  destruct (GetEvents_to_end Tdata counter_modulus reader_GetEvent CopyToJEvent
              Get_EventHeader (n - Z.to_nat (file_events file) - 1)%nat (Open' s)
              (Z.to_nat (file_events file)) fresh) as (s' & Hrun & Hcalls);
    [lia | lia | lia | exact Hforever |].
  replace (Z.to_nat (file_events file) + S (n - Z.to_nat (file_events file) - 1))%nat
    with n in Hrun by lia.
  exists s'. eexists.
  split; [rewrite Hrun, Hread'; reflexivity |].
  split; [| split; [reflexivity |]].
  - rewrite Hcalls, Hread', Hstatuses, Hcalls1, Hqueries, Htable_queries, Hinc, Hexc.
    rewrite <- !app_assoc. cbn [app]. reflexivity.
  - split; apply in_order_names.
Qed.

End opening.

Lemma Open_quits_witness :
  exists queries,
    PODIO.reader_calls
      (PODIO.Open (2 ^ 62) {| PODIO.major := 0; PODIO.minor := 16; PODIO.patch := 2 |}
         "basic_string::_M_create" PODIO.default_user PODIO.unreadable_file
         (PODIO.new_source "events.root"))
    = [] ++ PODIO.call_OpenFile "events.root" :: queries
    /\ Forall (fun call => PODIO.is_query call = true) queries.
Proof.
  pose proof (Open_quits (2 ^ 62)%Z {| PODIO.major := 0; PODIO.minor := 16; PODIO.patch := 2 |}
                "basic_string::_M_create" PODIO.default_user PODIO.unreadable_file
                (PODIO.new_source "events.root")) as H.
  cbv zeta in H. destruct H as (_ & H & _); [reflexivity |].
  apply H. reflexivity.
Defined.

Lemma Open_branch_statuses_witness :
  PODIO.branch_status PODIO.exact_or_star
    (PODIO.reader_calls
       (PODIO.Open (2 ^ 62) {| PODIO.major := 0; PODIO.minor := 16; PODIO.patch := 2 |}
          "basic_string::_M_create" PODIO.selecting_user PODIO.sample_file
          (PODIO.new_source "events.root")))
    true "EventHeader"
  = false.
Proof.
  pose proof (Open_branch_statuses (2 ^ 62)%Z
                {| PODIO.major := 0; PODIO.minor := 16; PODIO.patch := 2 |}
                "basic_string::_M_create" PODIO.selecting_user PODIO.sample_file
                PODIO.exact_or_star (PODIO.new_source "events.root") "EventHeader" true) as H.
  cbv zeta in H. destruct H as (H & _); [reflexivity | vm_compute; reflexivity |].
  apply H. exists "EventHeader"%string. split; [| reflexivity].
  vm_compute. reflexivity.
Defined.

Lemma Open_then_GetEvents_witness :
  exists s',
    PODIO.GetEvents (2 ^ 64) PODIO.sample_store PODIO.CopyToJEventT PODIO.sample_headers 5
      PODIO.empty_event
      (PODIO.Open (2 ^ 62) {| PODIO.major := 0; PODIO.minor := 16; PODIO.patch := 2 |}
         "basic_string::_M_create" PODIO.listing_user PODIO.sample_file
         (PODIO.new_source "events.root"))
    = (map (fun k => PODIO.fill_event PODIO.sample_store PODIO.CopyToJEventT
                       PODIO.sample_headers (Z.of_nat k) PODIO.empty_event)
         (seq 0 3),
       s', Some PODIO.kNO_MORE_EVENTS)
    /\ PODIO.reader_calls s'
       = [PODIO.call_OpenFile "events.root"; PODIO.call_GetPodioVersion;
          PODIO.call_GetNumEvents;
          PODIO.call_GetDataVectors; PODIO.call_GetDataVectors;
          PODIO.call_GetObjIDVectors; PODIO.call_GetObjIDVectors;
          PODIO.call_GetEvent 0; PODIO.call_GetEvent 1; PODIO.call_GetEvent 2;
          PODIO.call_CloseFile].
Proof.
  destruct (Open_then_GetEvents (2 ^ 62)%Z
              {| PODIO.major := 0; PODIO.minor := 16; PODIO.patch := 2 |}
              "basic_string::_M_create" PODIO.listing_user PODIO.sample_file
              Z (2 ^ 64)%Z PODIO.sample_store PODIO.CopyToJEventT PODIO.sample_headers
              (PODIO.new_source "events.root") PODIO.empty_event 5%nat)
    as (s' & statuses & Hrun & Hcalls & Hstatuses & _);
    [reflexivity | reflexivity | vm_compute; reflexivity | vm_compute; reflexivity
    | cbn; lia | cbn; lia |].
  exists s'. split; [exact Hrun |].
  rewrite Hcalls, Hstatuses. vm_compute. reflexivity.
Defined.
